(** * CatmullClark (cuda-rewrite): half-edge mesh topology core

    A shallow embedding of [Mesh.cpp]: the counting formulas of the cage and
    of the subdivision hierarchy, the crease and halfedge accessors, the
    vertex-halfedge rotation and the edge-to-halfedge resolver; and of
    [Utilities.h]: the numeric helpers on [float] and the UV codec.

    Integers are the program's: [int32_t] and [uint32_t] values are [Z]
    numbers kept in range by an explicit wrap-around after every
    arithmetic operation.  Array reads return [option]: [None] stands for
    an access outside the array.  The [assert]s of the source state what
    the caller owes; they compute nothing and are left out. *)

From Stdlib Require Import ZArith Zpow_facts List Bool Lia Morphisms Setoid SpecFloat.
Import ListNotations.
Local Open Scope Z_scope.

(** ** Machine integers *)

Definition int32_min : Z := - 2 ^ 31.
Definition int32_max : Z := 2 ^ 31 - 1.

(** Reduction of an integer to the [int32_t] range (two's complement). *)
Definition wrap32 (z : Z) : Z := (z + 2 ^ 31) mod 2 ^ 32 - 2 ^ 31.

(** Reduction of an integer to the [uint32_t] range. *)
Definition wrapu32 (z : Z) : Z := z mod 2 ^ 32.

(** Reduction of an integer to the [size_t] range (64 bits). *)
Definition wrap_size_t (z : Z) : Z := z mod 2 ^ 64.

Definition is_int32 (z : Z) : Prop := int32_min <= z <= int32_max.

Definition add32 (a b : Z) : Z := wrap32 (a + b).
Definition sub32 (a b : Z) : Z := wrap32 (a - b).
Definition mul32 (a b : Z) : Z := wrap32 (a * b).

(** [a / b] on [int32_t]: the quotient is truncated toward zero. *)
Definition div32 (a b : Z) : Z := wrap32 (Z.quot a b).

(** A shift amount the 32-bit shifter takes as it is. *)
Definition valid_shift (n : Z) : bool := (0 <=? n) && (n <? 32).

(** [a << n] on [int32_t].  C leaves a shift by an amount outside [0, 32)
    undefined.  The value given here for such an amount is 0, that of a
    shifter which clamps the amount to the word size; a shifter which takes
    the amount modulo 32 gives another one.  What is stated of the counting
    formulas is stated where every amount is below 32, or does not depend
    on that value. *)
Definition shl32 (a n : Z) : Z :=
  if valid_shift n then wrap32 (Z.shiftl a n) else 0.

(** [a << n] on [uint32_t], with the same value for an amount outside
    [0, 32). *)
Definition shlu32 (a n : Z) : Z :=
  if valid_shift n then wrapu32 (Z.shiftl a n) else 0.

(** [~a] on [uint32_t]. *)
Definition notu32 (a : Z) : Z := wrapu32 (Z.lnot a).

(** [a / b] on [uint32_t]. *)
Definition divu32 (a b : Z) : Z := a / b.

(** The literal [0xFFFFFFFF], of type [unsigned int]. *)
Definition x_FFFFFFFF : Z := 4294967295.

(** ** Numeric data *)

(** A [float] value: a binary32 number, in the representation of
    [SpecFloat]. *)
Definition float32 : Type := spec_float.

(** The literal [0.0f]. *)
Definition f32_zero : float32 := S754_zero false.

(** ** Option monad for array reads *)

Definition obind {A B : Type} (m : option A) (k : A -> option B) : option B :=
  match m with
  | Some a => k a
  | None => None
  end.

Notation "x <- m ;; k" := (obind m (fun x => k))
  (at level 61, m at next level, right associativity).

(** [a[i]]: defined for [0 <= i < length a] only. *)
Definition array_get {A : Type} (a : list A) (i : Z) : option A :=
  if i <? 0 then None else nth_error a (Z.to_nat i).

(** ** Data model *)

Record cc_VertexPoint : Type := mk_VertexPoint {
  vp_x : float32;
  vp_y : float32;
  vp_z : float32
}.

Record cc_VertexUv : Type := mk_VertexUv {
  uv_u : float32;
  uv_v : float32
}.

(** Halfedge of the cage. *)
Record cc_Halfedge : Type := mk_Halfedge {
  he_twinID : Z;
  he_nextID : Z;
  he_prevID : Z;
  he_vertexID : Z;
  he_uvID : Z;
  he_edgeID : Z;
  he_faceID : Z
}.

(** Halfedge of a subdivision level: next, prev and face are not stored. *)
Record cc_Halfedge_SemiRegular : Type := mk_Halfedge_SemiRegular {
  sr_twinID : Z;
  sr_edgeID : Z;
  sr_vertexID : Z;
  sr_uvID : Z
}.

Record cc_Crease : Type := mk_Crease {
  cr_nextID : Z;
  cr_prevID : Z;
  cr_sharpness : float32
}.

Record cc_Mesh : Type := mk_Mesh {
  vertexCount : Z;
  uvCount : Z;
  halfedgeCount : Z;
  edgeCount : Z;
  faceCount : Z;
  vertexToHalfedgeIDs : list Z;
  edgeToHalfedgeIDs : list Z;
  faceToHalfedgeIDs : list Z;
  halfedges : list cc_Halfedge;
  creases : list cc_Crease;
  vertexPoints : list cc_VertexPoint;
  uvs : list cc_VertexUv
}.

Record cc_Subd : Type := mk_Subd {
  cage : cc_Mesh;
  s_halfedges : list cc_Halfedge_SemiRegular;
  s_creases : list cc_Crease;
  s_vertexPoints : list cc_VertexPoint;
  maxDepth : Z
}.

(** The five counts of a mesh are [int32_t] fields. *)
Definition mesh_counts_int32 (m : cc_Mesh) : Prop :=
  is_int32 (vertexCount m) /\ is_int32 (uvCount m) /\
  is_int32 (halfedgeCount m) /\ is_int32 (edgeCount m) /\
  is_int32 (faceCount m).

(** ** Cage counts *)

Definition ccm_FaceCount (mesh : cc_Mesh) : Z := faceCount mesh.
Definition ccm_EdgeCount (mesh : cc_Mesh) : Z := edgeCount mesh.
Definition ccm_CreaseCount (mesh : cc_Mesh) : Z := ccm_EdgeCount mesh.
Definition ccm_HalfedgeCount (mesh : cc_Mesh) : Z := halfedgeCount mesh.
Definition ccm_VertexCount (mesh : cc_Mesh) : Z := vertexCount mesh.
Definition ccm_UvCount (mesh : cc_Mesh) : Z := uvCount mesh.

(** ** Per-level counting formulas *)

Definition ccm_FaceCountAtDepth_Fast (cage : cc_Mesh) (depth : Z) : Z :=
  let H0 := ccm_HalfedgeCount cage in
  shl32 H0 (shl32 (sub32 depth 1) 1).

Definition ccm_FaceCountAtDepth (cage : cc_Mesh) (depth : Z) : Z :=
  if depth =? 0 then ccm_FaceCount cage
  else ccm_FaceCountAtDepth_Fast cage depth.

Definition ccm_EdgeCountAtDepth_Fast (cage : cc_Mesh) (depth : Z) : Z :=
  let E0 := ccm_EdgeCount cage in
  let H0 := ccm_HalfedgeCount cage in
  let tmp := wrap32 (notu32 (shlu32 x_FFFFFFFF depth)) in
  shl32 (add32 (shl32 E0 1) (mul32 tmp H0)) (sub32 depth 1).

Definition ccm_EdgeCountAtDepth (cage : cc_Mesh) (depth : Z) : Z :=
  if depth =? 0 then ccm_EdgeCount cage
  else ccm_EdgeCountAtDepth_Fast cage depth.

Definition ccm_HalfedgeCountAtDepth (cage : cc_Mesh) (depth : Z) : Z :=
  let H0 := ccm_HalfedgeCount cage in
  shl32 H0 (shl32 depth 1).

Definition ccm_CreaseCountAtDepth (cage : cc_Mesh) (depth : Z) : Z :=
  let C0 := ccm_CreaseCount cage in
  shl32 C0 depth.

Definition ccm_VertexCountAtDepth_Fast (cage : cc_Mesh) (depth : Z) : Z :=
  let V0 := ccm_VertexCount cage in
  let F0 := ccm_FaceCount cage in
  let E0 := ccm_EdgeCount cage in
  let H0 := ccm_HalfedgeCount cage in
  let F1 := H0 in
  let E1 := add32 (mul32 2 E0) H0 in
  let V1 := add32 (add32 V0 E0) F0 in
  let tmp := wrap32 (notu32 (shlu32 x_FFFFFFFF (sub32 depth 1))) in
  add32 V1 (mul32 tmp (add32 E1 (mul32 tmp F1))).

Definition ccm_VertexCountAtDepth (cage : cc_Mesh) (depth : Z) : Z :=
  if depth =? 0 then ccm_VertexCount cage
  else ccm_VertexCountAtDepth_Fast cage depth.

(** ** Cumulative counting formulas of the subdivision hierarchy *)

Definition ccs_CumulativeHalfedgeCountAtDepth (cage : cc_Mesh) (maxDepth : Z) : Z :=
  let D := maxDepth in
  let H0 := ccm_HalfedgeCount cage in
  let H1 := shl32 H0 2 in
  let tmp := wrap32 (notu32 (shlu32 x_FFFFFFFF (shl32 D 1))) in
  div32 (mul32 H1 tmp) 3.

Definition ccs_CumulativeFaceCountAtDepth (cage : cc_Mesh) (depth : Z) : Z :=
  Z.shiftr (ccs_CumulativeHalfedgeCountAtDepth cage depth) 2.

Definition ccs_CumulativeEdgeCountAtDepth (cage : cc_Mesh) (depth : Z) : Z :=
  let H0 := ccm_HalfedgeCount cage in
  let E0 := ccm_EdgeCount cage in
  let H1 := shl32 H0 2 in
  let E1 := add32 (shl32 E0 1) H0 in
  let D := depth in
  let A := wrap32 (notu32 (shlu32 x_FFFFFFFF D)) in
  div32 (mul32 A (sub32 (add32 (mul32 6 E1) (mul32 A H1)) H1)) 6.

Definition ccs_CumulativeCreaseCountAtDepth (cage : cc_Mesh) (maxDepth : Z) : Z :=
  let D := maxDepth in
  let C0 := ccm_CreaseCount cage in
  let C1 := shl32 C0 1 in
  let tmp := wrap32 (notu32 (shlu32 x_FFFFFFFF D)) in
  mul32 C1 tmp.

Definition ccs_CumulativeVertexCountAtDepth (cage : cc_Mesh) (depth : Z) : Z :=
  let V0 := ccm_VertexCount cage in
  let F0 := ccm_FaceCount cage in
  let E0 := ccm_EdgeCount cage in
  let H0 := ccm_HalfedgeCount cage in
  let F1 := H0 in
  let E1 := add32 (mul32 2 E0) H0 in
  let V1 := add32 (add32 V0 E0) F0 in
  let D := depth in
  let A := wrap32 (notu32 (shlu32 x_FFFFFFFF D)) in
  let B := wrap32 (divu32 (notu32 (shlu32 x_FFFFFFFF (shl32 D 1))) 3) in
  add32 (add32 (mul32 A (sub32 E1 (shl32 F1 1))) (mul32 B F1))
        (mul32 D (add32 (sub32 F1 E1) V1)).

Definition ccs_MaxDepth (subd : cc_Subd) : Z := maxDepth subd.

Definition ccs_CumulativeFaceCount (subd : cc_Subd) : Z :=
  ccs_CumulativeFaceCountAtDepth (cage subd) (ccs_MaxDepth subd).
Definition ccs_CumulativeEdgeCount (subd : cc_Subd) : Z :=
  ccs_CumulativeEdgeCountAtDepth (cage subd) (ccs_MaxDepth subd).
Definition ccs_CumulativeHalfedgeCount (subd : cc_Subd) : Z :=
  ccs_CumulativeHalfedgeCountAtDepth (cage subd) (ccs_MaxDepth subd).
Definition ccs_CumulativeCreaseCount (subd : cc_Subd) : Z :=
  ccs_CumulativeCreaseCountAtDepth (cage subd) (ccs_MaxDepth subd).
Definition ccs_CumulativeVertexCount (subd : cc_Subd) : Z :=
  ccs_CumulativeVertexCountAtDepth (cage subd) (ccs_MaxDepth subd).

(** ** Allocation *)

(** [malloc (byteCount)] read as an array of elements of [elemSize] bytes.
    The block is not initialised: every cell holds [junk]. *)
Definition malloc {A : Type} (junk : A) (elemSize byteCount : Z) : list A :=
  repeat junk (Z.to_nat (wrap_size_t byteCount / elemSize)).

Section Allocation.

(** Sizes of the structures of [Mesh.h], in bytes. *)
Variables sizeof_Halfedge sizeof_Halfedge_SemiRegular : Z.
Variables sizeof_Crease sizeof_VertexPoint sizeof_VertexUv : Z.

(** Contents of a block that was allocated and not written yet. *)
Variable junk_id : Z.
Variable junk_halfedge : cc_Halfedge.
Variable junk_sr_halfedge : cc_Halfedge_SemiRegular.
Variable junk_crease : cc_Crease.
Variable junk_point : cc_VertexPoint.
Variable junk_uv : cc_VertexUv.

(** [count * sizeof (T)], computed in [size_t]. *)
Definition byte_count (count elemSize : Z) : Z :=
  wrap_size_t (wrap_size_t count * elemSize).

Definition ccm_Create
    (vertexCount uvCount halfedgeCount edgeCount faceCount : Z) : cc_Mesh :=
  let halfedgeByteCount := wrap32 (byte_count halfedgeCount sizeof_Halfedge) in
  let vertexByteCount := wrap32 (byte_count vertexCount sizeof_VertexPoint) in
  let uvByteCount := wrap32 (byte_count uvCount sizeof_VertexUv) in
  let creaseByteCount := wrap32 (byte_count edgeCount sizeof_Crease) in
  mk_Mesh vertexCount uvCount halfedgeCount edgeCount faceCount
    (malloc junk_id 4 (byte_count vertexCount 4))
    (malloc junk_id 4 (byte_count edgeCount 4))
    (malloc junk_id 4 (byte_count faceCount 4))
    (malloc junk_halfedge sizeof_Halfedge halfedgeByteCount)
    (malloc junk_crease sizeof_Crease creaseByteCount)
    (malloc junk_point sizeof_VertexPoint vertexByteCount)
    (malloc junk_uv sizeof_VertexUv uvByteCount).

Definition ccs_Create (cage : cc_Mesh) (maxDepth : Z) : cc_Subd :=
  let halfedgeCount := ccs_CumulativeHalfedgeCountAtDepth cage maxDepth in
  let creaseCount := ccs_CumulativeCreaseCountAtDepth cage maxDepth in
  let vertexCount := ccs_CumulativeVertexCountAtDepth cage maxDepth in
  let halfedgeByteCount := byte_count halfedgeCount sizeof_Halfedge_SemiRegular in
  let creaseByteCount := byte_count creaseCount sizeof_Crease in
  let vertexPointByteCount := byte_count vertexCount sizeof_VertexPoint in
  mk_Subd cage
    (malloc junk_sr_halfedge sizeof_Halfedge_SemiRegular halfedgeByteCount)
    (malloc junk_crease sizeof_Crease creaseByteCount)
    (malloc junk_point sizeof_VertexPoint vertexPointByteCount)
    maxDepth.

End Allocation.

(** ** Cage accessors *)

(** Modelled from the spec: [ccm__Halfedge] is declared in [Mesh.h]; a
    per-entity accessor is an O(1) indexation of the mesh's flat array. *)
Definition ccm__Halfedge (mesh : cc_Mesh) (halfedgeID : Z) : option cc_Halfedge :=
  array_get (halfedges mesh) halfedgeID.

(** Modelled from the spec: [ccm__Crease] is declared in [Mesh.h]; a
    per-entity accessor is an O(1) indexation of the mesh's flat array. *)
Definition ccm__Crease (mesh : cc_Mesh) (edgeID : Z) : option cc_Crease :=
  array_get (creases mesh) edgeID.

Definition ccm_HalfedgeTwinID (mesh : cc_Mesh) (halfedgeID : Z) : option Z :=
  h <- ccm__Halfedge mesh halfedgeID ;; Some (he_twinID h).
Definition ccm_HalfedgeNextID (mesh : cc_Mesh) (halfedgeID : Z) : option Z :=
  h <- ccm__Halfedge mesh halfedgeID ;; Some (he_nextID h).
Definition ccm_HalfedgePrevID (mesh : cc_Mesh) (halfedgeID : Z) : option Z :=
  h <- ccm__Halfedge mesh halfedgeID ;; Some (he_prevID h).
Definition ccm_HalfedgeVertexID (mesh : cc_Mesh) (halfedgeID : Z) : option Z :=
  h <- ccm__Halfedge mesh halfedgeID ;; Some (he_vertexID h).
Definition ccm_HalfedgeUvID (mesh : cc_Mesh) (halfedgeID : Z) : option Z :=
  h <- ccm__Halfedge mesh halfedgeID ;; Some (he_uvID h).
Definition ccm_HalfedgeEdgeID (mesh : cc_Mesh) (halfedgeID : Z) : option Z :=
  h <- ccm__Halfedge mesh halfedgeID ;; Some (he_edgeID h).
Definition ccm_HalfedgeFaceID (mesh : cc_Mesh) (halfedgeID : Z) : option Z :=
  h <- ccm__Halfedge mesh halfedgeID ;; Some (he_faceID h).

Definition ccm_CreaseNextID (mesh : cc_Mesh) (edgeID : Z) : option Z :=
  c <- ccm__Crease mesh edgeID ;; Some (cr_nextID c).
Definition ccm_CreasePrevID (mesh : cc_Mesh) (edgeID : Z) : option Z :=
  c <- ccm__Crease mesh edgeID ;; Some (cr_prevID c).
Definition ccm_CreaseSharpness (mesh : cc_Mesh) (edgeID : Z) : option float32 :=
  c <- ccm__Crease mesh edgeID ;; Some (cr_sharpness c).

Definition ccm_HalfedgeSharpness (mesh : cc_Mesh) (halfedgeID : Z) : option float32 :=
  e <- ccm_HalfedgeEdgeID mesh halfedgeID ;; ccm_CreaseSharpness mesh e.

Definition ccm_VertexPoint (mesh : cc_Mesh) (vertexID : Z) : option cc_VertexPoint :=
  array_get (vertexPoints mesh) vertexID.
Definition ccm_Uv (mesh : cc_Mesh) (uvID : Z) : option cc_VertexUv :=
  array_get (uvs mesh) uvID.

Definition ccm_VertexToHalfedgeID (mesh : cc_Mesh) (vertexID : Z) : option Z :=
  array_get (vertexToHalfedgeIDs mesh) vertexID.
Definition ccm_EdgeToHalfedgeID (mesh : cc_Mesh) (edgeID : Z) : option Z :=
  array_get (edgeToHalfedgeIDs mesh) edgeID.
Definition ccm_FaceToHalfedgeID (mesh : cc_Mesh) (faceID : Z) : option Z :=
  array_get (faceToHalfedgeIDs mesh) faceID.

(** ** Quad arithmetic *)

(** Modelled from the spec: [ccm__ScrollFaceHalfedgeID_Quad] is declared in
    [Mesh.h]; next/prev within a face of 4 are obtained by
    incrementing/decrementing the low 2 bits modulo 4 while keeping the
    face's high bits fixed. *)
Definition ccm__ScrollFaceHalfedgeID_Quad (halfedgeID direction : Z) : Z :=
  let base := 3 in
  let localID := add32 (Z.land halfedgeID base) direction in
  Z.lor (Z.land halfedgeID (Z.lnot base)) (Z.land localID base).

Definition ccm_HalfedgeFaceID_Quad (halfedgeID : Z) : Z :=
  Z.shiftr halfedgeID 2.
Definition ccm_HalfedgeNextID_Quad (halfedgeID : Z) : Z :=
  ccm__ScrollFaceHalfedgeID_Quad halfedgeID 1.
Definition ccm_HalfedgePrevID_Quad (halfedgeID : Z) : Z :=
  ccm__ScrollFaceHalfedgeID_Quad halfedgeID (-1).
Definition ccm_FaceToHalfedgeID_Quad (faceID : Z) : Z :=
  shl32 faceID 2.

(** ** Vertex-halfedge rotation of the cage *)

Definition ccm_NextVertexHalfedgeID (mesh : cc_Mesh) (halfedgeID : Z) : option Z :=
  twinID <- ccm_HalfedgeTwinID mesh halfedgeID ;;
  if 0 <=? twinID then ccm_HalfedgeNextID mesh twinID else Some (-1).

Definition ccm_PrevVertexHalfedgeID (mesh : cc_Mesh) (halfedgeID : Z) : option Z :=
  prevID <- ccm_HalfedgePrevID mesh halfedgeID ;;
  ccm_HalfedgeTwinID mesh prevID.

(** ** Subd accessors *)

(** Modelled from the spec: [ccs__Crease] is declared in [Mesh.h]; to reach
    level-[depth] data inside the flat cumulative array, compute the stride,
    the cumulative count through [depth - 1], and index [stride + localID]. *)
Definition ccs__Crease (subd : cc_Subd) (edgeID depth : Z) : option cc_Crease :=
  let stride := ccs_CumulativeCreaseCountAtDepth (cage subd) (sub32 depth 1) in
  array_get (s_creases subd) (add32 stride edgeID).

(** Modelled from the spec: [ccs__Halfedge] is declared in [Mesh.h]; to reach
    level-[depth] data inside the flat cumulative array, compute the stride,
    the cumulative count through [depth - 1], and index [stride + localID]. *)
Definition ccs__Halfedge (subd : cc_Subd) (halfedgeID depth : Z)
    : option cc_Halfedge_SemiRegular :=
  let stride := ccs_CumulativeHalfedgeCountAtDepth (cage subd) (sub32 depth 1) in
  array_get (s_halfedges subd) (add32 stride halfedgeID).

Definition ccs_CreaseSharpness_Fast (subd : cc_Subd) (edgeID depth : Z)
    : option float32 :=
  c <- ccs__Crease subd edgeID depth ;; Some (cr_sharpness c).

Definition ccs_CreaseSharpness (subd : cc_Subd) (edgeID depth : Z)
    : option float32 :=
  let creaseCount := ccm_CreaseCountAtDepth (cage subd) depth in
  if edgeID <? creaseCount then ccs_CreaseSharpness_Fast subd edgeID depth
  else Some f32_zero.

Definition ccs_CreaseNextID_Fast (subd : cc_Subd) (edgeID depth : Z) : option Z :=
  c <- ccs__Crease subd edgeID depth ;; Some (cr_nextID c).

Definition ccs_CreaseNextID (subd : cc_Subd) (edgeID depth : Z) : option Z :=
  let creaseCount := ccm_CreaseCountAtDepth (cage subd) depth in
  if edgeID <? creaseCount then ccs_CreaseNextID_Fast subd edgeID depth
  else Some edgeID.

Definition ccs_CreasePrevID_Fast (subd : cc_Subd) (edgeID depth : Z) : option Z :=
  c <- ccs__Crease subd edgeID depth ;; Some (cr_prevID c).

Definition ccs_CreasePrevID (subd : cc_Subd) (edgeID depth : Z) : option Z :=
  let creaseCount := ccm_CreaseCountAtDepth (cage subd) depth in
  if edgeID <? creaseCount then ccs_CreasePrevID_Fast subd edgeID depth
  else Some edgeID.

Definition ccs_HalfedgeVertexID (subd : cc_Subd) (halfedgeID depth : Z) : option Z :=
  h <- ccs__Halfedge subd halfedgeID depth ;; Some (sr_vertexID h).

Definition ccs_HalfedgeTwinID (subd : cc_Subd) (halfedgeID depth : Z) : option Z :=
  h <- ccs__Halfedge subd halfedgeID depth ;; Some (sr_twinID h).

Definition ccs_HalfedgeNextID (subd : cc_Subd) (halfedgeID depth : Z) : Z :=
  ccm_HalfedgeNextID_Quad halfedgeID.

Definition ccs_HalfedgePrevID (subd : cc_Subd) (halfedgeID depth : Z) : Z :=
  ccm_HalfedgePrevID_Quad halfedgeID.

Definition ccs_HalfedgeFaceID (subd : cc_Subd) (halfedgeID depth : Z) : Z :=
  ccm_HalfedgeFaceID_Quad halfedgeID.

Definition ccs_HalfedgeEdgeID (subd : cc_Subd) (halfedgeID depth : Z) : option Z :=
  h <- ccs__Halfedge subd halfedgeID depth ;; Some (sr_edgeID h).

Definition ccs_HalfedgeSharpness (subd : cc_Subd) (halfedgeID depth : Z)
    : option float32 :=
  edgeID <- ccs_HalfedgeEdgeID subd halfedgeID depth ;;
  ccs_CreaseSharpness subd edgeID depth.

Definition ccs_VertexPoint (subd : cc_Subd) (vertexID depth : Z)
    : option cc_VertexPoint :=
  let stride := ccs_CumulativeVertexCountAtDepth (cage subd) (sub32 depth 1) in
  array_get (s_vertexPoints subd) (add32 stride vertexID).

Definition ccs_HalfedgeVertexPoint (subd : cc_Subd) (halfedgeID depth : Z)
    : option cc_VertexPoint :=
  vertexID <- ccs_HalfedgeVertexID subd halfedgeID depth ;;
  ccs_VertexPoint subd vertexID depth.

(** ** Vertex-halfedge rotation of the subd *)

Definition ccs_PrevVertexHalfedgeID (subd : cc_Subd) (halfedgeID depth : Z)
    : option Z :=
  let prevID := ccs_HalfedgePrevID subd halfedgeID depth in
  ccs_HalfedgeTwinID subd prevID depth.

Definition ccs_NextVertexHalfedgeID (subd : cc_Subd) (halfedgeID depth : Z)
    : option Z :=
  twinID <- ccs_HalfedgeTwinID subd halfedgeID depth ;;
  Some (ccs_HalfedgeNextID subd twinID depth).

Definition ccs_FaceToHalfedgeID (subd : cc_Subd) (faceID depth : Z) : Z :=
  ccm_FaceToHalfedgeID_Quad faceID.

(** ** Edge-to-halfedge resolver *)

Definition cc__Max (a b : Z) : Z := if a >? b then a else b.

(** The halfedge of a spoke edge: [cc__Max (4 * halfedgeID + 1, 4 * nextID + 2)]. *)
Definition spoke_halfedge (halfedgeID : Z) : Z :=
  let nextID := ccm_HalfedgeNextID_Quad halfedgeID in
  cc__Max (add32 (mul32 4 halfedgeID) 1) (add32 (mul32 4 nextID) 2).

(** One replayed transform: bit 1 gives [4 * nextID + 3], bit 0 gives
    [4 * edgeHalfedgeID + 0]. *)
Definition replay_step (bit : bool) (edgeHalfedgeID : Z) : Z :=
  if bit then add32 (mul32 4 (ccm_HalfedgeNextID_Quad edgeHalfedgeID)) 3
  else add32 (mul32 4 edgeHalfedgeID) 0.

(** The local variables of [ccs_EdgeToHalfedgeID]. *)
Record resolver_state : Type := mk_resolver_state {
  rs_heap : Z;             (* uint32_t heap *)
  rs_edgeID : Z;           (* int32_t edgeID *)
  rs_heapDepth : Z;        (* int32_t heapDepth *)
  rs_edgeHalfedgeID : Z    (* int32_t edgeHalfedgeID *)
}.

(** The "build heap" loop, [for (; heapDepth > 1; --heapDepth)], unrolled at
    most [trips] times.  A [break] leaves [heapDepth] above 1. *)
Fixpoint build_heap (cage : cc_Mesh) (trips : nat) (st : resolver_state)
    : resolver_state :=
  match trips with
  | O => st
  | S trips' =>
    if 1 <? rs_heapDepth st then
      let edgeCount :=
        ccm_EdgeCountAtDepth_Fast cage (sub32 (rs_heapDepth st) 1) in
      if mul32 2 edgeCount <=? rs_edgeID st then
        let halfedgeID := sub32 (rs_edgeID st) (mul32 2 edgeCount) in
        mk_resolver_state (rs_heap st) (rs_edgeID st) (rs_heapDepth st)
          (spoke_halfedge halfedgeID)
      else
        build_heap cage trips'
          (mk_resolver_state
             (wrapu32 (Z.lor (shlu32 (rs_heap st) 1) (Z.land (rs_edgeID st) 1)))
             (Z.shiftr (rs_edgeID st) 1)
             (sub32 (rs_heapDepth st) 1)
             (rs_edgeHalfedgeID st))
    else st
  end.

(** The "read heap" loop, [while (heap > 1u)], unrolled at most [trips]
    times. *)
Fixpoint read_heap (trips : nat) (heap edgeHalfedgeID : Z) : Z :=
  match trips with
  | O => edgeHalfedgeID
  | S trips' =>
    if 1 <? heap then
      read_heap trips' (Z.shiftr heap 1)
        (replay_step (Z.land heap 1 =? 1) edgeHalfedgeID)
    else edgeHalfedgeID
  end.

Section Resolver.

(** [ccs__EdgeToHalfedgeID_First] is declared in [Mesh.h]: the resolver takes
    it as given.  It reads the cage's arrays, hence the [option]. *)
Variable EdgeToHalfedgeID_First : cc_Mesh -> Z -> option Z.

(** The non-recursive version, the one that is compiled.  The first loop
    runs at most [depth - 1] times and the second at most once per bit of
    the 32-bit heap. *)
Definition ccs_EdgeToHalfedgeID (subd : cc_Subd) (edgeID depth : Z) : option Z :=
  let st := build_heap (cage subd) (Z.to_nat (depth - 1))
              (mk_resolver_state 1 edgeID depth 0) in
  root <- (if rs_heapDepth st =? 1
           then EdgeToHalfedgeID_First (cage subd) (rs_edgeID st)
           else Some (rs_edgeHalfedgeID st)) ;;
  Some (read_heap 32 (rs_heap st) root).

(** The recursive version kept in the source under [#if 0]: the radial case
    is decided by the band of [edgeID], [E, 2E) or [0, E).  [fuel] bounds the
    recursion depth; [depth - 1] calls are enough. *)
Fixpoint EdgeToHalfedgeID_recursive (fuel : nat) (subd : cc_Subd)
    (edgeID depth : Z) : option Z :=
  if 1 <? depth then
    match fuel with
    | O => None
    | S fuel' =>
      let edgeCount := ccm_EdgeCountAtDepth_Fast (cage subd) (sub32 depth 1) in
      if mul32 2 edgeCount <=? edgeID then
        Some (spoke_halfedge (sub32 edgeID (mul32 2 edgeCount)))
      else if edgeCount <=? edgeID then
        halfedgeID <- EdgeToHalfedgeID_recursive fuel' subd
                        (Z.shiftr edgeID 1) (sub32 depth 1) ;;
        Some (replay_step true halfedgeID)
      else
        halfedgeID <- EdgeToHalfedgeID_recursive fuel' subd
                        (Z.shiftr edgeID 1) (sub32 depth 1) ;;
        Some (replay_step false halfedgeID)
    end
  else EdgeToHalfedgeID_First (cage subd) edgeID.

Definition ccs_EdgeToHalfedgeID_recursive (subd : cc_Subd) (edgeID depth : Z)
    : option Z :=
  EdgeToHalfedgeID_recursive (Z.to_nat (depth - 1)) subd edgeID depth.

(** The same recursion with the radial case decided by the low bit of
    [edgeID], the bit the compiled version records: odd gives
    [4 * nextID + 3], even gives [4 * halfedgeID]. *)
Fixpoint EdgeToHalfedgeID_parity (fuel : nat) (subd : cc_Subd)
    (edgeID depth : Z) : option Z :=
  if 1 <? depth then
    match fuel with
    | O => None
    | S fuel' =>
      let edgeCount := ccm_EdgeCountAtDepth_Fast (cage subd) (sub32 depth 1) in
      if mul32 2 edgeCount <=? edgeID then
        Some (spoke_halfedge (sub32 edgeID (mul32 2 edgeCount)))
      else
        halfedgeID <- EdgeToHalfedgeID_parity fuel' subd
                        (Z.shiftr edgeID 1) (sub32 depth 1) ;;
        Some (replay_step (Z.land edgeID 1 =? 1) halfedgeID)
    end
  else EdgeToHalfedgeID_First (cage subd) edgeID.

Definition ccs_EdgeToHalfedgeID_parity (subd : cc_Subd) (edgeID depth : Z)
    : option Z :=
  EdgeToHalfedgeID_parity (Z.to_nat (depth - 1)) subd edgeID depth.

End Resolver.

(** Modelled from the spec: [ccs__EdgeToHalfedgeID_First] is declared in
    [Mesh.h]; at level 1 the resolver initialises via the cage's own
    edge-to-halfedge map composed with one subdivision step: the band
    [2E, 2E + H) holds the spoke edges, indexed by a parent halfedge id, the
    band [E, 2E) maps [h] to [4 * next (h) + 3] and the band [0, E) maps [h]
    to [4 * h], with next taken in the cage. *)
Definition ccs__EdgeToHalfedgeID_First (cage : cc_Mesh) (edgeID : Z) : option Z :=
  let edgeCount := ccm_EdgeCount cage in
  if mul32 2 edgeCount <=? edgeID then
    let halfedgeID := sub32 edgeID (mul32 2 edgeCount) in
    nextID <- ccm_HalfedgeNextID cage halfedgeID ;;
    Some (cc__Max (add32 (mul32 4 halfedgeID) 1) (add32 (mul32 4 nextID) 2))
  else if edgeCount <=? edgeID then
    halfedgeID <- ccm_EdgeToHalfedgeID cage (Z.shiftr edgeID 1) ;;
    nextID <- ccm_HalfedgeNextID cage halfedgeID ;;
    Some (add32 (mul32 4 nextID) 3)
  else
    halfedgeID <- ccm_EdgeToHalfedgeID cage (Z.shiftr edgeID 1) ;;
    Some (add32 (mul32 4 halfedgeID) 0).

(** ** The one-step subdivision rules *)

(** Element counts of one level, as mathematical integers. *)
Record level_counts : Type := mk_level_counts {
  lc_V : Z;
  lc_E : Z;
  lc_H : Z;
  lc_F : Z;
  lc_C : Z
}.

(** The counts of the cage; every cage edge is a potential crease. *)
Definition cage_counts (cage : cc_Mesh) : level_counts :=
  mk_level_counts (ccm_VertexCount cage) (ccm_EdgeCount cage)
    (ccm_HalfedgeCount cage) (ccm_FaceCount cage) (ccm_CreaseCount cage).

(** [F' = H], [E' = 2E + H], [H' = 4H], [C' = 2C], [V' = V + E + F]. *)
Definition subdivide_counts (c : level_counts) : level_counts :=
  mk_level_counts (lc_V c + lc_E c + lc_F c) (2 * lc_E c + lc_H c)
    (4 * lc_H c) (lc_H c) (2 * lc_C c).

(** The rules applied [d] times starting from the cage. *)
Fixpoint counts_at (cage : cc_Mesh) (d : nat) : level_counts :=
  match d with
  | O => cage_counts cage
  | S d' => subdivide_counts (counts_at cage d')
  end.

(** [f first + f (first + 1) + ... + f (first + n - 1)]. *)
Fixpoint sum_levels (f : Z -> Z) (first : Z) (n : nat) : Z :=
  match n with
  | O => 0
  | S n' => sum_levels f first n' + f (first + Z.of_nat n')
  end.

(** The sum of a per-level count over the levels [first .. last]. *)
Definition sum_over_levels (f : Z -> Z) (first last : Z) : Z :=
  sum_levels f first (Z.to_nat (last - first + 1)).

(** The subdivision rules summed over the levels [1 .. d]. *)
Definition total_counts (proj : level_counts -> Z) (cage : cc_Mesh) (d : nat) : Z :=
  sum_levels (fun k => proj (counts_at cage (Z.to_nat k))) 1 d.

(** The cage is non-negative in every count and, for the hierarchy of depth
    [d], the numbers the cumulative formulas form stay within [int32_t]:
    the products taken before the divisions by 3 and by 6, and the vertex
    total. *)
Definition hierarchy_fits (cage : cc_Mesh) (d : Z) : Prop :=
  0 <= ccm_VertexCount cage /\ 0 <= ccm_EdgeCount cage /\
  0 <= ccm_HalfedgeCount cage /\ 0 <= ccm_FaceCount cage /\
  3 * total_counts lc_H cage (Z.to_nat d) <= int32_max /\
  6 * total_counts lc_E cage (Z.to_nat d) <= int32_max /\
  total_counts lc_V cage (Z.to_nat d) <= int32_max.

(** The part of [hierarchy_fits] that the halfedge and face totals need. *)
Definition halfedge_total_fits (cage : cc_Mesh) (d : Z) : Prop :=
  0 <= ccm_HalfedgeCount cage /\
  3 * total_counts lc_H cage (Z.to_nat d) <= int32_max.

(** ** The shape of the resolver's heap *)

(** The heap word that holds [path], the most recently recorded bit first,
    above the sentinel bit. *)
Fixpoint heap_of_path (path : list bool) : Z :=
  match path with
  | [] => 1
  | b :: path' => 2 * heap_of_path path' + Z.b2z b
  end.

(** The transforms of [path] replayed on [h], the most recently recorded bit
    first. *)
Fixpoint replay_path (path : list bool) (h : Z) : Z :=
  match path with
  | [] => h
  | b :: path' => replay_path path' (replay_step b h)
  end.

(** The bits the "build heap" loop records, the most recent one first. *)
Fixpoint descent_path (cage : cc_Mesh) (trips : nat) (edgeID heapDepth : Z)
    (path : list bool) : list bool :=
  match trips with
  | O => path
  | S trips' =>
    if 1 <? heapDepth then
      let edgeCount := ccm_EdgeCountAtDepth_Fast cage (sub32 heapDepth 1) in
      if mul32 2 edgeCount <=? edgeID then path
      else descent_path cage trips' (Z.shiftr edgeID 1) (sub32 heapDepth 1)
             ((Z.land edgeID 1 =? 1) :: path)
    else path
  end.

(** The 32-bit heap word suffices for the descent of [edgeID] from [depth]:
    the descent records at most [depth - 1] bits, the word the loop builds
    with its 32-bit shifts is the one that holds them all above the
    sentinel, and the "read heap" loop applies exactly the recorded
    transforms. *)
Definition path_word_suffices (cage : cc_Mesh) (edgeID depth : Z) : Prop :=
  let trips := Z.to_nat (depth - 1) in
  let st := build_heap cage trips (mk_resolver_state 1 edgeID depth 0) in
  let path := descent_path cage trips edgeID depth [] in
  (length path <= trips)%nat /\
  rs_heap st = heap_of_path path /\
  rs_heap st < 2 ^ 32 /\
  forall root, read_heap 32 (rs_heap st) root = replay_path path root.

(** ** Example meshes *)

Definition zero_point : cc_VertexPoint := mk_VertexPoint f32_zero f32_zero f32_zero.
Definition zero_uv : cc_VertexUv := mk_VertexUv f32_zero f32_zero.
Definition zero_halfedge : cc_Halfedge := mk_Halfedge 0 0 0 0 0 0 0.
Definition zero_sr_halfedge : cc_Halfedge_SemiRegular := mk_Halfedge_SemiRegular 0 0 0 0.
Definition zero_crease : cc_Crease := mk_Crease 0 0 f32_zero.

(** [ccm_Create] and [ccs_Create] with the structure sizes of a 32-bit
    [int] and [float] layout and zero-filled blocks. *)
Definition ccm_Create0 : Z -> Z -> Z -> Z -> Z -> cc_Mesh :=
  ccm_Create 28 12 12 8 0 zero_halfedge zero_crease zero_point zero_uv.
Definition ccs_Create0 : cc_Mesh -> Z -> cc_Subd :=
  ccs_Create 16 12 12 zero_sr_halfedge zero_crease zero_point.

(** The cube of the spec: V0 = 8, Uv0 = 0, H0 = 24, E0 = 12, F0 = 6. *)
Definition cube_cage : cc_Mesh := ccm_Create0 8 0 24 12 6.

(** A single triangle: V0 = 3, H0 = 3, E0 = 3, F0 = 1. *)
Definition triangle_cage : cc_Mesh := ccm_Create0 3 0 3 3 1.

(** A single quad: V0 = 4, H0 = 4, E0 = 4, F0 = 1; every halfedge lies on
    the boundary. *)
Definition quad_cage : cc_Mesh :=
  mk_Mesh 4 0 4 4 1
    [0; 1; 2; 3] [0; 1; 2; 3] [0]
    [ mk_Halfedge (-1) 1 3 0 0 0 0;
      mk_Halfedge (-1) 2 0 1 0 1 0;
      mk_Halfedge (-1) 3 1 2 0 2 0;
      mk_Halfedge (-1) 0 2 3 0 3 0 ]
    [ mk_Crease 0 0 f32_zero; mk_Crease 1 1 f32_zero;
      mk_Crease 2 2 f32_zero; mk_Crease 3 3 f32_zero ]
    [ zero_point; zero_point; zero_point; zero_point ]
    [].

(** The four halfedges that subdividing cage halfedge [h] of the quad
    produces: ids [4h .. 4h + 3], boundary twins stored as [-1]. *)
Definition quad_level1_halfedges (h : Z) : list cc_Halfedge_SemiRegular :=
  let next := (h + 1) mod 4 in
  let prev := (h + 3) mod 4 in
  [ mk_Halfedge_SemiRegular (-1) (2 * h) h 0;
    mk_Halfedge_SemiRegular (4 * next + 2) (8 + h) (4 + h) 0;
    mk_Halfedge_SemiRegular (4 * prev + 1) (8 + prev) 8 0;
    mk_Halfedge_SemiRegular (-1) (2 * prev + 1) (4 + prev) 0 ].

(** The quad subdivided once: 16 halfedges, 8 creases, 9 vertex points. *)
Definition quad_subd : cc_Subd :=
  mk_Subd quad_cage
    (quad_level1_halfedges 0 ++ quad_level1_halfedges 1 ++
     quad_level1_halfedges 2 ++ quad_level1_halfedges 3)
    (repeat zero_crease 8)
    (repeat zero_point 9)
    1.

(** The quad with a hierarchy of two levels, as [ccs_Create] allocates it. *)
Definition quad_subd2 : cc_Subd := ccs_Create0 quad_cage 2.

(** ** binary32 arithmetic *)

(** The operations of [float]: IEEE 754 binary32, 24 bits of precision,
    round to nearest even. *)
Definition f32_add : float32 -> float32 -> float32 := SFadd 24 128.
Definition f32_sub : float32 -> float32 -> float32 := SFsub 24 128.
Definition f32_mul : float32 -> float32 -> float32 := SFmul 24 128.
Definition f32_div : float32 -> float32 -> float32 := SFdiv 24 128.

(** [a * b + c] with one rounding, of the exact sum: the fused multiply-add
    into which a compiler may contract a product followed by a sum. *)
Definition f32_fma (a b c : float32) : float32 :=
  match a, b with
  | S754_nan, _ | _, S754_nan => S754_nan
  | S754_infinity _, S754_zero _ | S754_zero _, S754_infinity _ => S754_nan
  | S754_infinity sa, S754_infinity sb
  | S754_infinity sa, S754_finite sb _ _
  | S754_finite sa _ _, S754_infinity sb =>
    f32_add (S754_infinity (xorb sa sb)) c
  | S754_zero sa, S754_zero sb
  | S754_zero sa, S754_finite sb _ _
  | S754_finite sa _ _, S754_zero sb =>
    f32_add (S754_zero (xorb sa sb)) c
  | S754_finite sa ma ea, S754_finite sb mb eb =>
    let sp := xorb sa sb in
    let mp := Pos.mul ma mb in
    let ep := ea + eb in
    match c with
    | S754_nan => S754_nan
    | S754_infinity _ => c
    | S754_zero _ => binary_round_aux 24 128 sp (Zpos mp) ep loc_Exact
    | S754_finite sc mc ec =>
      let ez := Z.min ep ec in
      binary_normalize 24 128
        (cond_Zopp sp (Zpos (fst (shl_align mp ep ez)))
         + cond_Zopp sc (Zpos (fst (shl_align mc ec ez))))
        ez false
    end
  end.

(** [x < y] and [x > y]: false as soon as one side is a NaN. *)
Definition f32_lt (x y : float32) : bool :=
  match SFcompare x y with
  | Some Lt => true
  | _ => false
  end.
Definition f32_gt (x y : float32) : bool :=
  match SFcompare x y with
  | Some Gt => true
  | _ => false
  end.

(** [x <= y] and [x == y], used to state ranges; false for a NaN. *)
Definition f32_le (x y : float32) : bool := SFleb x y.
Definition f32_eq (x y : float32) : bool := SFeqb x y.

(** A zero or another finite number: neither an infinity nor a NaN. *)
Definition f32_is_finite (x : float32) : bool :=
  match x with
  | S754_zero _ | S754_finite _ _ _ => true
  | S754_infinity _ | S754_nan => false
  end.

(** The literals [1.0f], [-1.0f] and [65535.0f]. *)
Definition f32_one : float32 := S754_finite false 8388608 (-23).
Definition f32_minus_one : float32 := S754_finite true 8388608 (-23).
Definition f32_65535 : float32 := S754_finite false 16776960 (-8).

(** [FLT_MAX], the largest finite [float]. *)
Definition f32_max : float32 := S754_finite false 16777215 104.

(** The conversion of a [uint32_t] to [float], rounded to nearest. *)
Definition f32_of_u32 (n : Z) : float32 := binary_normalize 24 128 n 0 false.

(** The conversion of a [float] to [uint32_t]: the fractional part is
    discarded.  There is no result when the integral part is no [uint32_t],
    where C leaves the conversion undefined. *)
Definition f32_to_u32 (x : float32) : option Z :=
  match x with
  | S754_zero _ => Some 0
  | S754_finite s m e =>
    let magnitude := Z.shiftl (Zpos m) e in
    if s then (if magnitude =? 0 then Some 0 else None)
    else if magnitude <? 2 ^ 32 then Some magnitude else None
  | S754_infinity _ => None
  | S754_nan => None
  end.

(** ** Numeric primitives of [Utilities.h] *)

Definition cc__Minf (x y : float32) : float32 := if f32_lt x y then x else y.

Definition cc__Maxf (x y : float32) : float32 := if f32_gt x y then x else y.

Definition cc__Satf (x : float32) : float32 :=
  cc__Maxf f32_zero (cc__Minf x f32_one).

Definition cc__Signf (x : float32) : float32 :=
  if f32_lt x f32_zero then f32_minus_one
  else if f32_gt x f32_zero then f32_one
  else f32_zero.

(** ** Vectors of [float] in memory *)

(** The [float] cells of the memory the vector helpers work on.  A
    [float *] is the index of the cell it points to, so that two pointers
    into the same block can overlap. *)
Definition float_store : Type := list float32.

(** [a] with cell [i] replaced by [v]. *)
Fixpoint set_nth {A : Type} (a : list A) (i : nat) (v : A) : list A :=
  match a, i with
  | [], _ => []
  | _ :: a', O => v :: a'
  | b :: a', S i' => b :: set_nth a' i' v
  end.

(** [a[i] = v]: defined for [0 <= i < length a] only. *)
Definition array_set {A : Type} (a : list A) (i : Z) (v : A) : option (list A) :=
  if i <? 0 then None
  else if Nat.ltb (Z.to_nat i) (length a) then Some (set_nth a (Z.to_nat i) v)
  else None.

(** [for (int32_t i = ...; i < n; ++i) body], from the current [i] on and
    unrolled at most [trips] times; [body] updates the state or fails. *)
Fixpoint for_upto {St : Type} (trips : nat) (i n : Z)
    (body : Z -> St -> option St) (st : St) : option St :=
  match trips with
  | O => Some st
  | S trips' =>
    if i <? n then
      st' <- body i st ;;
      for_upto trips' (add32 i 1) n body st'
    else Some st
  end.

(** [x + u * (y - x)] on [float].  The difference is rounded.  The product
    and the sum are rounded one after the other, as written, or in one step
    when the compiler contracts them into a fused multiply-add: [fused]
    tells which. *)
Definition lerp_value (fused : bool) (x y u : float32) : float32 :=
  if fused then f32_fma u (f32_sub y x) x
  else f32_add x (f32_mul u (f32_sub y x)).

(** [out[i] = x[i] + u * (y[i] - x[i])] for [i < n]. *)
Definition cc__Lerpfv (fused : bool) (n : Z) (out x y : Z) (u : float32)
    (mem : float_store) : option float_store :=
  for_upto (Z.to_nat n) 0 n
    (fun i mem =>
       xi <- array_get mem (x + i) ;;
       yi <- array_get mem (y + i) ;;
       array_set mem (out + i) (lerp_value fused xi yi u))
    mem.

Definition cc__Lerp2f (fused : bool) (out x y : Z) (u : float32)
    (mem : float_store) : option float_store :=
  cc__Lerpfv fused 2 out x y u mem.

Definition cc__Lerp3f (fused : bool) (out x y : Z) (u : float32)
    (mem : float_store) : option float_store :=
  cc__Lerpfv fused 3 out x y u mem.

(** [out[i] = x[i] * y] for [i < n]. *)
Definition cc__Mulfv (n : Z) (out x : Z) (y : float32) (mem : float_store)
    : option float_store :=
  for_upto (Z.to_nat n) 0 n
    (fun i mem =>
       xi <- array_get mem (x + i) ;;
       array_set mem (out + i) (f32_mul xi y))
    mem.

Definition cc__Mul3f (out x : Z) (y : float32) (mem : float_store)
    : option float_store :=
  cc__Mulfv 3 out x y mem.

(** [out[i] = x[i] + y[i]] for [i < n]. *)
Definition cc__Addfv (n : Z) (out x y : Z) (mem : float_store)
    : option float_store :=
  for_upto (Z.to_nat n) 0 n
    (fun i mem =>
       xi <- array_get mem (x + i) ;;
       yi <- array_get mem (y + i) ;;
       array_set mem (out + i) (f32_add xi yi))
    mem.

Definition cc__Add3f (out x y : Z) (mem : float_store) : option float_store :=
  cc__Addfv 3 out x y mem.

(** ** UV encoding and decoding *)

Definition cc__DecodeUv (uvEncoded : Z) : cc_VertexUv :=
  let tmp := wrapu32 uvEncoded in
  mk_VertexUv
    (f32_div (f32_of_u32 (Z.land (Z.shiftr tmp 0) 65535)) f32_65535)
    (f32_div (f32_of_u32 (Z.land (Z.shiftr tmp 16) 65535)) f32_65535).

Definition cc__EncodeUv (uv : cc_VertexUv) : option Z :=
  u <- f32_to_u32 (f32_mul (uv_u uv) f32_65535) ;;
  v <- f32_to_u32 (f32_mul (uv_v uv) f32_65535) ;;
  let tmp := wrapu32 (Z.lor (Z.land u 65535) (shlu32 (Z.land v 65535) 16)) in
  Some (wrap32 tmp).

(** [p] holds of [k], [k + 1], ..., [k + n - 1]: a check by enumeration. *)
Fixpoint all_upfrom (p : Z -> bool) (k : Z) (n : nat) : bool :=
  match n with
  | O => true
  | S n' => p k && all_upfrom p (k + 1) n'
  end.

(** [p] holds of every integer of [0, n). *)
Definition all_below (n : Z) (p : Z -> bool) : bool :=
  all_upfrom p 0 (Z.to_nat n).

(** What decoding and encoding do to one 16-bit field [k]: the decoded
    value lies in [0, 1], and encoding it gives [k] back. *)
Definition uv_field_ok (k : Z) : bool :=
  let x := f32_div (f32_of_u32 k) f32_65535 in
  f32_le f32_zero x && f32_le x f32_one &&
  match f32_to_u32 (f32_mul x f32_65535) with
  | Some k' => k' =? k
  | None => false
  end.

(** ** Values of binary32 numbers *)

(** [x] is a value of the type [float]: a zero, an infinity, a NaN, or a
    mantissa and an exponent of the binary32 format (at most 24 digits,
    exactly 24 above the smallest exponent -149, the exponent at most
    104). *)
Definition f32_valid (x : float32) : bool := valid_binary 24 128 x.

(** The value of a finite [x], counted in units of [2^-149], the smallest
    positive binary32 number: an integer. *)
Definition f32_units (x : float32) : Z :=
  match x with
  | S754_finite s m e => cond_Zopp s (Zpos m * 2 ^ (e + 149))
  | _ => 0
  end.

(** Half a unit in the last place of the integer [k < 2^24] as a binary32
    number, in units of [2^-157]. *)
Definition half_ulp (k : Z) : Z :=
  if k =? 0 then 0 else 2 ^ (Z.log2 k + 133).

(** What decoding does to one 16-bit field [k]: the decoded value is a
    finite binary32 number, and 65535 times it lies between [k] less half a
    unit in the last place of [k] and [k + 1/2].  The products are in units
    of [2^-157]: [65535 = 16776960 * 2^-8]. *)
Definition uv_decode_near (k : Z) : bool :=
  let x := f32_div (f32_of_u32 k) f32_65535 in
  let p := f32_units x * 16776960 in
  let q := Z.shiftl k 157 in
  f32_valid x && f32_is_finite x &&
  (q - half_ulp k <=? p) && (p <=? q + Z.shiftl 1 156).

(** The state of the right shifter of [binary_round_aux] after [n] steps on
    [M]: the quotient by [2^n], and where the remainder lies in its
    interval. *)
Definition shr_rel (M n : Z) (st : shr_record) : Prop :=
  shr_m st = M / 2 ^ n /\
  loc_of_shr_record st =
    (if M mod 2 ^ n =? 0 then loc_Exact
     else loc_Inexact (2 * (M mod 2 ^ n) ?= 2 ^ n)).

(** The binary32 number with mantissa [m1 <= 2^24] and exponent [e]: at
    [2^24] the mantissa is halved and the exponent goes up by one. *)
Definition f32_of_mantissa (m1 e : Z) : float32 :=
  match m1 with
  | Zpos m =>
    if m1 <? 2 ^ 24 then S754_finite false m e
    else S754_finite false 8388608 (e + 1)
  | _ => S754_zero false
  end.

(** ** Congruence modulo the word size *)

Definition eqm32 (a b : Z) : Prop := a mod 2 ^ 32 = b mod 2 ^ 32.

Infix "==32" := eqm32 (at level 70, no associativity).

(** * Properties *)

(** ** Arithmetic modulo 2^32 *)

#[export] Instance eqm32_equiv : Equivalence eqm32.
Proof.
  unfold eqm32. split.
  - intros a. reflexivity.
  - intros a b H. symmetry. exact H.
  - intros a b c Hab Hbc. rewrite Hab. exact Hbc.
Qed.

#[export] Instance add_eqm32 : Proper (eqm32 ==> eqm32 ==> eqm32) Z.add.
Proof.
  unfold eqm32. intros a a' Ha b b' Hb.
  rewrite (Z.add_mod a b), (Z.add_mod a' b') by lia. now rewrite Ha, Hb.
Qed.

#[export] Instance sub_eqm32 : Proper (eqm32 ==> eqm32 ==> eqm32) Z.sub.
Proof.
  unfold eqm32. intros a a' Ha b b' Hb.
  rewrite (Zminus_mod a b), (Zminus_mod a' b'). now rewrite Ha, Hb.
Qed.

#[export] Instance mul_eqm32 : Proper (eqm32 ==> eqm32 ==> eqm32) Z.mul.
Proof.
  unfold eqm32. intros a a' Ha b b' Hb.
  rewrite (Z.mul_mod a b), (Z.mul_mod a' b') by lia. now rewrite Ha, Hb.
Qed.

Lemma wrap32_eqm (z : Z) : wrap32 z ==32 z.
Proof.
  unfold eqm32, wrap32.
  rewrite Zminus_mod, Z.mod_mod by lia.
  rewrite <- Zminus_mod. f_equal. lia.
Qed.

Lemma wrapu32_eqm (z : Z) : wrapu32 z ==32 z.
Proof. unfold eqm32, wrapu32. apply Z.mod_mod. lia. Qed.

Lemma wrap32_range (z : Z) : is_int32 (wrap32 z).
Proof.
  unfold is_int32, int32_min, int32_max, wrap32.
  pose proof (Z.mod_pos_bound (z + 2 ^ 31) (2 ^ 32) ltac:(lia)). lia.
Qed.

Lemma wrap32_small (z : Z) : is_int32 z -> wrap32 z = z.
Proof.
  unfold is_int32, int32_min, int32_max, wrap32. intros H.
  rewrite Z.mod_small; lia.
Qed.

Lemma wrap32_congr (a b : Z) : a ==32 b -> wrap32 a = wrap32 b.
Proof.
  unfold eqm32, wrap32. intros H.
  rewrite (Z.add_mod a), (Z.add_mod b) by lia. now rewrite H.
Qed.

Lemma eqm32_int32 (a b : Z) : is_int32 a -> is_int32 b -> a ==32 b -> a = b.
Proof.
  intros Ha Hb H. rewrite <- (wrap32_small a Ha), <- (wrap32_small b Hb).
  now apply wrap32_congr.
Qed.

Lemma wrap32_to (a b : Z) : a ==32 b -> is_int32 a -> a = wrap32 b.
Proof.
  intros H Ha. rewrite <- (wrap32_small a Ha). now apply wrap32_congr.
Qed.

#[export] Instance wrap32_eqm32 : Proper (eqm32 ==> eqm32) wrap32.
Proof. intros a a' Ha. now rewrite (wrap32_congr a a' Ha). Qed.

#[export] Instance add32_eqm32 : Proper (eqm32 ==> eqm32 ==> eqm32) add32.
Proof. intros a a' Ha b b' Hb. unfold add32. now rewrite Ha, Hb. Qed.

#[export] Instance sub32_eqm32 : Proper (eqm32 ==> eqm32 ==> eqm32) sub32.
Proof. intros a a' Ha b b' Hb. unfold sub32. now rewrite Ha, Hb. Qed.

#[export] Instance mul32_eqm32 : Proper (eqm32 ==> eqm32 ==> eqm32) mul32.
Proof. intros a a' Ha b b' Hb. unfold mul32. now rewrite Ha, Hb. Qed.

Lemma add32_eqm (a b : Z) : add32 a b ==32 a + b.
Proof. apply wrap32_eqm. Qed.

Lemma sub32_eqm (a b : Z) : sub32 a b ==32 a - b.
Proof. apply wrap32_eqm. Qed.

Lemma mul32_eqm (a b : Z) : mul32 a b ==32 a * b.
Proof. apply wrap32_eqm. Qed.

Lemma pow2_ge32_eqm (n : Z) : 32 <= n -> 2 ^ n ==32 0.
Proof.
  intros H. unfold eqm32.
  replace n with (32 + (n - 32)) by lia.
  rewrite Z.pow_add_r by lia.
  rewrite Z.mul_comm, Z_mod_mult. reflexivity.
Qed.

Lemma valid_shift_true (n : Z) : valid_shift n = true <-> 0 <= n < 32.
Proof. unfold valid_shift. rewrite andb_true_iff, Z.leb_le, Z.ltb_lt. tauto. Qed.

Lemma valid_shift_false (n : Z) : valid_shift n = false <-> n < 0 \/ 32 <= n.
Proof.
  unfold valid_shift. rewrite andb_false_iff, Z.leb_gt, Z.ltb_ge. tauto.
Qed.

(** For a non-negative amount, [a << n] is [a * 2^n] modulo 2^32. *)
Lemma shl32_eqm (a n : Z) : 0 <= n -> shl32 a n ==32 a * 2 ^ n.
Proof.
  intros Hn. unfold shl32. destruct (valid_shift n) eqn:E.
  - rewrite wrap32_eqm, Z.shiftl_mul_pow2 by lia. reflexivity.
  - apply valid_shift_false in E.
    rewrite (pow2_ge32_eqm n) by lia. now rewrite Z.mul_0_r.
Qed.

Lemma shl32_range (a n : Z) : is_int32 (shl32 a n).
Proof.
  unfold shl32. destruct (valid_shift n).
  - apply wrap32_range.
  - unfold is_int32, int32_min, int32_max. lia.
Qed.

Lemma shlu32_eqm (a n : Z) : 0 <= n -> shlu32 a n ==32 a * 2 ^ n.
Proof.
  intros Hn. unfold shlu32. destruct (valid_shift n) eqn:E.
  - rewrite wrapu32_eqm, Z.shiftl_mul_pow2 by lia. reflexivity.
  - apply valid_shift_false in E.
    rewrite (pow2_ge32_eqm n) by lia. now rewrite Z.mul_0_r.
Qed.

(** [~(0xFFFFFFFF << n)] is [2^n - 1] modulo 2^32. *)
Lemma notu_mask_eqm (n : Z) :
  0 <= n -> notu32 (shlu32 x_FFFFFFFF n) ==32 2 ^ n - 1.
Proof.
  intros Hn. unfold notu32. rewrite wrapu32_eqm.
  replace (Z.lnot (shlu32 x_FFFFFFFF n))
    with (- shlu32 x_FFFFFFFF n - 1) by (unfold Z.lnot; lia).
  assert (H : - shlu32 x_FFFFFFFF n ==32 2 ^ n).
  { replace (- shlu32 x_FFFFFFFF n) with (0 - shlu32 x_FFFFFFFF n) by lia.
    rewrite (shlu32_eqm _ _ Hn).
    assert (Hx : x_FFFFFFFF ==32 -1) by reflexivity.
    rewrite Hx. replace (0 - -1 * 2 ^ n) with (2 ^ n) by lia. reflexivity. }
  rewrite H. reflexivity.
Qed.

(** The same mask read back as an [int32_t]. *)
Lemma low_mask_eqm (n : Z) :
  0 <= n -> wrap32 (notu32 (shlu32 x_FFFFFFFF n)) ==32 2 ^ n - 1.
Proof. intros Hn. rewrite wrap32_eqm. now apply notu_mask_eqm. Qed.

(** For an amount below the word size the unsigned mask is exactly
    [2^n - 1]. *)
Lemma notu_mask_exact (n : Z) :
  0 <= n <= 31 -> notu32 (shlu32 x_FFFFFFFF n) = 2 ^ n - 1.
Proof.
  intros Hn. pose proof (notu_mask_eqm n ltac:(lia)) as H.
  unfold eqm32 in H.
  assert (0 < 2 ^ n) by (apply Z.pow_pos_nonneg; lia).
  assert (2 ^ n <= 2 ^ 31) by (apply Z.pow_le_mono_r; lia).
  rewrite (Z.mod_small (2 ^ n - 1)) in H by lia.
  rewrite <- H. unfold notu32, wrapu32. symmetry. apply Z.mod_mod. lia.
Qed.

(** For an amount below the word size the mask is exactly [2^n - 1]. *)
Lemma low_mask_exact (n : Z) :
  0 <= n <= 31 -> wrap32 (notu32 (shlu32 x_FFFFFFFF n)) = 2 ^ n - 1.
Proof.
  intros Hn. apply eqm32_int32.
  - apply wrap32_range.
  - unfold is_int32, int32_min, int32_max.
    assert (0 < 2 ^ n) by (apply Z.pow_pos_nonneg; lia).
    assert (2 ^ n <= 2 ^ 31) by (apply Z.pow_le_mono_r; lia). lia.
  - apply low_mask_eqm. lia.
Qed.

(** An [int32_t] doubled by [<< 1]: either the double fits, or the result
    is negative and no shift amount any more. *)
Lemma shl32_1_cases (d : Z) :
  0 <= d <= int32_max ->
  (2 * d < 2 ^ 31 /\ shl32 d 1 = 2 * d) \/ (2 ^ 31 <= 2 * d /\ shl32 d 1 < 0).
Proof.
  unfold int32_max. intros Hd.
  unfold shl32. change (valid_shift 1) with true. cbv iota.
  rewrite Z.shiftl_mul_pow2 by lia. change (2 ^ 1) with 2.
  destruct (Z_lt_le_dec (2 * d) (2 ^ 31)) as [Hs | Hl]; [left | right].
  - split; [exact Hs|]. rewrite wrap32_small; [lia|].
    unfold is_int32, int32_min, int32_max. lia.
  - split; [exact Hl|]. unfold wrap32.
    replace (d * 2 + 2 ^ 31) with (d * 2 - 2 ^ 31 + 1 * 2 ^ 32) by lia.
    rewrite Z_mod_plus_full, Z.mod_small by lia. lia.
Qed.

Lemma pow4_as_pow2 (d : Z) : 0 <= d -> 4 ^ d = 2 ^ (2 * d).
Proof. intros Hd. rewrite Z.pow_mul_r by lia. reflexivity. Qed.

(** [a << (d << 1)] is [a * 4^d] modulo 2^32. *)
Lemma shl32_double_eqm (a d : Z) :
  0 <= d <= int32_max -> shl32 a (shl32 d 1) ==32 a * 4 ^ d.
Proof.
  intros Hd. rewrite pow4_as_pow2 by lia.
  destruct (shl32_1_cases d Hd) as [[Hs E] | [Hl E]].
  - rewrite E. apply shl32_eqm. lia.
  - unfold shl32 at 1.
    replace (valid_shift (shl32 d 1)) with false
      by (symmetry; apply valid_shift_false; lia).
    rewrite (pow2_ge32_eqm (2 * d)) by lia. now rewrite Z.mul_0_r.
Qed.

(** [~(0xFFFFFFFF << (d << 1))] is [4^d - 1] modulo 2^32. *)
Lemma low_mask_double_eqm (d : Z) :
  0 <= d <= int32_max ->
  wrap32 (notu32 (shlu32 x_FFFFFFFF (shl32 d 1))) ==32 4 ^ d - 1.
Proof.
  intros Hd. rewrite pow4_as_pow2 by lia.
  destruct (shl32_1_cases d Hd) as [[Hs E] | [Hl E]].
  - rewrite E. apply low_mask_eqm. lia.
  - unfold shlu32.
    replace (valid_shift (shl32 d 1)) with false
      by (symmetry; apply valid_shift_false; lia).
    rewrite (pow2_ge32_eqm (2 * d)) by lia. reflexivity.
Qed.

Lemma sub32_exact (a b : Z) : is_int32 (a - b) -> sub32 a b = a - b.
Proof. apply wrap32_small. Qed.

(** ** Closed forms of the subdivision rules *)

Lemma pow2_S (n : nat) : 2 ^ Z.of_nat (S n) = 2 * 2 ^ Z.of_nat n.
Proof. rewrite Nat2Z.inj_succ, Z.pow_succ_r by lia. reflexivity. Qed.

Lemma pow4_pow2 (n : Z) : 0 <= n -> 4 ^ n = 2 ^ n * 2 ^ n.
Proof.
  intros Hn. change 4 with (2 * 2). apply Z.pow_mul_l.
Qed.

Lemma pow2_pos (n : Z) : 0 <= n -> 1 <= 2 ^ n.
Proof. intros Hn. pose proof (Z.pow_pos_nonneg 2 n). lia. Qed.

Section ClosedForms.

Variable cage : cc_Mesh.

Let V0 := ccm_VertexCount cage.
Let E0 := ccm_EdgeCount cage.
Let H0 := ccm_HalfedgeCount cage.
Let F0 := ccm_FaceCount cage.

(** Halfedges, creases and edges after [n] steps. *)
Lemma counts_at_HCE (n : nat) :
  let p := 2 ^ Z.of_nat n in
  lc_H (counts_at cage n) = H0 * (p * p) /\
  lc_C (counts_at cage n) = E0 * p /\
  2 * lc_E (counts_at cage n) = p * (2 * E0 + (p - 1) * H0).
Proof.
  induction n as [| n IH].
  - cbn [counts_at cage_counts lc_H lc_C lc_E]. change (2 ^ Z.of_nat 0) with 1.
    unfold ccm_CreaseCount, E0, H0. cbn zeta. lia.
  - cbn zeta in *. rewrite pow2_S.
    destruct IH as (IHH & IHC & IHE).
    set (p := 2 ^ Z.of_nat n) in *.
    cbn [counts_at subdivide_counts lc_H lc_C lc_E].
    rewrite IHH, IHC. repeat split; try ring.
    replace (2 * (2 * lc_E (counts_at cage n) + H0 * (p * p)))
      with (2 * (2 * lc_E (counts_at cage n)) + 2 * H0 * (p * p)) by ring.
    rewrite IHE. ring.
Qed.

Lemma counts_at_H (n : nat) : lc_H (counts_at cage n) = H0 * 4 ^ Z.of_nat n.
Proof.
  rewrite pow4_pow2 by lia. apply (counts_at_HCE n).
Qed.

Lemma counts_at_C (n : nat) : lc_C (counts_at cage n) = E0 * 2 ^ Z.of_nat n.
Proof. apply (counts_at_HCE n). Qed.

Lemma counts_at_F (n : nat) :
  lc_F (counts_at cage (S n)) = H0 * 4 ^ Z.of_nat n.
Proof. cbn [counts_at subdivide_counts lc_F]. apply counts_at_H. Qed.

Lemma counts_at_E (n : nat) :
  let p := 2 ^ Z.of_nat n in
  lc_E (counts_at cage (S n)) = (2 * E0 + (2 * p - 1) * H0) * p.
Proof.
  cbn zeta. pose proof (counts_at_HCE (S n)) as (_ & _ & HE).
  cbn zeta in HE. rewrite pow2_S in HE.
  set (p := 2 ^ Z.of_nat n) in *.
  apply Z.mul_reg_l with (p := 2); [lia|]. rewrite HE. ring.
Qed.

(** Vertices after [n + 1] steps: level 1 by hand, then the closed form. *)
Lemma counts_at_V (n : nat) :
  let t := 2 ^ Z.of_nat n - 1 in
  lc_V (counts_at cage (S n)) =
  (V0 + E0 + F0) + t * ((2 * E0 + H0) + t * H0).
Proof.
  induction n as [| n IH].
  - cbn [counts_at cage_counts subdivide_counts lc_V lc_E lc_F].
    change (2 ^ Z.of_nat 0) with 1. unfold V0, E0, F0. cbn zeta. lia.
  - cbn zeta in *. rewrite pow2_S.
    pose proof (counts_at_E n) as HE. pose proof (counts_at_F n) as HF.
    cbn zeta in HE. rewrite pow4_pow2 in HF by lia.
    set (p := 2 ^ Z.of_nat n) in *.
    change (lc_V (counts_at cage (S (S n))))
      with (lc_V (counts_at cage (S n)) + lc_E (counts_at cage (S n))
            + lc_F (counts_at cage (S n))).
    rewrite IH, HE, HF. ring.
Qed.

Lemma counts_at_nonneg (n : nat) :
  0 <= V0 -> 0 <= E0 -> 0 <= H0 -> 0 <= F0 ->
  0 <= lc_V (counts_at cage n) /\ 0 <= lc_E (counts_at cage n) /\
  0 <= lc_H (counts_at cage n) /\ 0 <= lc_F (counts_at cage n) /\
  0 <= lc_C (counts_at cage n).
Proof.
  intros HV HE HH HF. induction n as [| n IH].
  - cbn [counts_at cage_counts lc_V lc_E lc_H lc_F lc_C].
    unfold ccm_CreaseCount, V0, E0, H0, F0 in *. lia.
  - cbn [counts_at subdivide_counts lc_V lc_E lc_H lc_F lc_C]. lia.
Qed.

End ClosedForms.

(** Two integers equal as polynomials are congruent. *)
Ltac eqm32_ring := unfold eqm32; f_equal; ring.

(** Replaces the wrapping sums, differences and products by the exact ones,
    outermost first. *)
Ltac unwrap32 :=
  repeat (first [rewrite add32_eqm | rewrite sub32_eqm | rewrite mul32_eqm]).

(** ** Per-level counting formulas against the rules *)

Section PerLevel.

Variable cage : cc_Mesh.
Variable d : Z.
Hypothesis counts_ok : mesh_counts_int32 cage.
Hypothesis depth_ok : 0 <= d <= int32_max.

Lemma depth_pred_exact : 0 < d -> sub32 d 1 = d - 1.
Proof.
  intros Hd. apply sub32_exact. unfold is_int32, int32_min, int32_max in *. lia.
Qed.

Lemma depth_succ : 0 < d -> Z.to_nat d = S (Z.to_nat (d - 1)).
Proof. intros Hd. lia. Qed.

Lemma ccm_HalfedgeCountAtDepth_wrap :
  ccm_HalfedgeCountAtDepth cage d = wrap32 (lc_H (counts_at cage (Z.to_nat d))).
Proof.
  unfold ccm_HalfedgeCountAtDepth. apply wrap32_to; [| apply shl32_range].
  rewrite counts_at_H, Z2Nat.id by lia. now apply shl32_double_eqm.
Qed.

Lemma ccm_CreaseCountAtDepth_wrap :
  ccm_CreaseCountAtDepth cage d = wrap32 (lc_C (counts_at cage (Z.to_nat d))).
Proof.
  unfold ccm_CreaseCountAtDepth. apply wrap32_to; [| apply shl32_range].
  rewrite counts_at_C, Z2Nat.id by lia. unfold ccm_CreaseCount.
  apply shl32_eqm. lia.
Qed.

Lemma ccm_FaceCountAtDepth_wrap :
  ccm_FaceCountAtDepth cage d = wrap32 (lc_F (counts_at cage (Z.to_nat d))).
Proof.
  unfold ccm_FaceCountAtDepth. destruct (Z.eqb_spec d 0) as [-> | Hne].
  - symmetry. apply wrap32_small. apply counts_ok.
  - unfold ccm_FaceCountAtDepth_Fast.
    apply wrap32_to; [| apply shl32_range].
    rewrite depth_pred_exact, depth_succ, counts_at_F, Z2Nat.id by lia.
    apply shl32_double_eqm. lia.
Qed.

Lemma ccm_EdgeCountAtDepth_wrap :
  ccm_EdgeCountAtDepth cage d = wrap32 (lc_E (counts_at cage (Z.to_nat d))).
Proof.
  unfold ccm_EdgeCountAtDepth. destruct (Z.eqb_spec d 0) as [-> | Hne].
  - symmetry. apply wrap32_small. apply counts_ok.
  - unfold ccm_EdgeCountAtDepth_Fast.
    apply wrap32_to; [| apply shl32_range].
    rewrite depth_pred_exact, depth_succ by lia.
    pose proof (counts_at_E cage (Z.to_nat (d - 1))) as HE. cbn zeta in HE.
    rewrite HE, Z2Nat.id by lia.
    rewrite shl32_eqm, add32_eqm, mul32_eqm, shl32_eqm, low_mask_eqm by lia.
    replace d with (d - 1 + 1) at 1 by lia.
    rewrite Z.pow_add_r by lia. change (2 ^ 1) with 2. eqm32_ring.
Qed.

Lemma ccm_VertexCountAtDepth_wrap :
  ccm_VertexCountAtDepth cage d = wrap32 (lc_V (counts_at cage (Z.to_nat d))).
Proof.
  unfold ccm_VertexCountAtDepth. destruct (Z.eqb_spec d 0) as [-> | Hne].
  - symmetry. apply wrap32_small. apply counts_ok.
  - unfold ccm_VertexCountAtDepth_Fast.
    apply wrap32_to; [| apply wrap32_range].
    rewrite depth_pred_exact, depth_succ by lia.
    pose proof (counts_at_V cage (Z.to_nat (d - 1))) as HV. cbn zeta in HV.
    rewrite HV, Z2Nat.id by lia.
    unwrap32. rewrite low_mask_eqm by lia. eqm32_ring.
Qed.

End PerLevel.

(** ** Closed forms of the totals over the levels 1 .. n *)

Section Totals.

Variable cage : cc_Mesh.

Let V0 := ccm_VertexCount cage.
Let E0 := ccm_EdgeCount cage.
Let H0 := ccm_HalfedgeCount cage.
Let F0 := ccm_FaceCount cage.

Lemma total_counts_S (proj : level_counts -> Z) (n : nat) :
  total_counts proj cage (S n) =
  total_counts proj cage n + proj (counts_at cage (S n)).
Proof.
  unfold total_counts. cbn [sum_levels]. f_equal.
  replace (Z.to_nat (1 + Z.of_nat n)) with (S n) by lia. reflexivity.
Qed.

Lemma total_H_closed (n : nat) :
  let p := 2 ^ Z.of_nat n in
  3 * total_counts lc_H cage n = 4 * H0 * (p * p - 1).
Proof.
  induction n as [| n IH].
  - cbn. ring.
  - cbn zeta in *. rewrite total_counts_S, pow2_S.
    pose proof (counts_at_HCE cage (S n)) as (HH & _ & _).
    cbn zeta in HH. rewrite pow2_S in HH.
    set (p := 2 ^ Z.of_nat n) in *. fold H0 in HH.
    rewrite Z.mul_add_distr_l, IH, HH. ring.
Qed.

Lemma total_F_closed (n : nat) :
  let p := 2 ^ Z.of_nat n in
  3 * total_counts lc_F cage n = H0 * (p * p - 1).
Proof.
  induction n as [| n IH].
  - cbn. ring.
  - cbn zeta in *. rewrite total_counts_S, pow2_S.
    pose proof (counts_at_F cage n) as HF. rewrite pow4_pow2 in HF by lia.
    set (p := 2 ^ Z.of_nat n) in *. fold H0 in HF.
    rewrite Z.mul_add_distr_l, IH, HF. ring.
Qed.

Lemma total_C_closed (n : nat) :
  let p := 2 ^ Z.of_nat n in
  total_counts lc_C cage n = 2 * E0 * (p - 1).
Proof.
  induction n as [| n IH].
  - cbn. ring.
  - cbn zeta in *. rewrite total_counts_S, pow2_S.
    pose proof (counts_at_C cage (S n)) as HC. rewrite pow2_S in HC.
    set (p := 2 ^ Z.of_nat n) in *. fold E0 in HC.
    rewrite IH, HC. ring.
Qed.

Lemma total_E_closed (n : nat) :
  let A := 2 ^ Z.of_nat n - 1 in
  6 * total_counts lc_E cage n =
  A * (6 * (2 * E0 + H0) + A * (4 * H0) - 4 * H0).
Proof.
  induction n as [| n IH].
  - cbn. ring.
  - cbn zeta in *. rewrite total_counts_S, pow2_S.
    pose proof (counts_at_E cage n) as HE. cbn zeta in HE.
    set (p := 2 ^ Z.of_nat n) in *. fold E0 H0 in HE.
    rewrite Z.mul_add_distr_l, IH, HE. ring.
Qed.

Lemma total_V_closed (n : nat) :
  let p := 2 ^ Z.of_nat n in
  3 * total_counts lc_V cage n =
  3 * (p - 1) * ((2 * E0 + H0) - 2 * H0) + (p * p - 1) * H0
  + 3 * Z.of_nat n * (H0 - (2 * E0 + H0) + (V0 + E0 + F0)).
Proof.
  induction n as [| n IH].
  - cbn. ring.
  - cbn zeta in *. rewrite total_counts_S, pow2_S.
    pose proof (counts_at_V cage n) as HV. cbn zeta in HV.
    rewrite Nat2Z.inj_succ.
    set (p := 2 ^ Z.of_nat n) in *. fold V0 E0 H0 F0 in HV.
    rewrite Z.mul_add_distr_l, IH, HV. ring.
Qed.

Lemma total_counts_nonneg (proj : level_counts -> Z) (n : nat) :
  (forall j, (1 <= j)%nat -> 0 <= proj (counts_at cage j)) ->
  0 <= total_counts proj cage n.
Proof.
  intros Hpos. induction n as [| n IH]; [cbn; lia|].
  rewrite total_counts_S. specialize (Hpos (S n)). lia.
Qed.

(** With non-negative counts every level is below the total. *)
Lemma level_le_total (proj : level_counts -> Z) (n k : nat) :
  (forall j, (1 <= j)%nat -> 0 <= proj (counts_at cage j)) ->
  (1 <= k <= n)%nat ->
  0 <= proj (counts_at cage k) <= total_counts proj cage n.
Proof.
  intros Hpos Hk. split; [apply Hpos; lia|].
  induction n as [| n IH]; [lia|].
  rewrite total_counts_S.
  destruct (Nat.eq_dec k (S n)) as [-> | Hne].
  - pose proof (total_counts_nonneg proj n Hpos). lia.
  - specialize (Hpos (S n)). assert (1 <= k <= n)%nat by lia. lia.
Qed.

End Totals.

Lemma sum_levels_ext (f g : Z -> Z) (first : Z) (n : nat) :
  (forall k, first <= k < first + Z.of_nat n -> f k = g k) ->
  sum_levels f first n = sum_levels g first n.
Proof.
  induction n as [| n IH]; intros Hfg; [reflexivity|].
  cbn [sum_levels]. rewrite IH, Hfg; [reflexivity | lia |].
  intros k Hk. apply Hfg. lia.
Qed.

(** ** Cumulative counting formulas against the totals *)

Section Cumulative.

Variable cage : cc_Mesh.
Variable D : Z.
Hypothesis depth_ok : 0 <= D <= int32_max.

Let V0 := ccm_VertexCount cage.
Let E0 := ccm_EdgeCount cage.
Let H0 := ccm_HalfedgeCount cage.
Let F0 := ccm_FaceCount cage.

Lemma pow2_D_pos : 1 <= 2 ^ D.
Proof. apply pow2_pos. lia. Qed.

Lemma total_H_nonneg :
  0 <= H0 -> 0 <= total_counts lc_H cage (Z.to_nat D).
Proof.
  intros HH. apply total_counts_nonneg. intros j _.
  rewrite counts_at_H. fold H0.
  pose proof (Z.pow_nonneg 4 (Z.of_nat j)). nia.
Qed.

Lemma ccs_CumulativeHalfedgeCountAtDepth_total :
  halfedge_total_fits cage D ->
  ccs_CumulativeHalfedgeCountAtDepth cage D = total_counts lc_H cage (Z.to_nat D).
Proof.
  intros [HH Hfit]. unfold ccs_CumulativeHalfedgeCountAtDepth.
  pose proof (total_H_closed cage (Z.to_nat D)) as Hc. cbn zeta in Hc.
  rewrite Z2Nat.id, <- pow4_pow2 in Hc by lia.
  pose proof (total_H_nonneg HH) as HT.
  set (T := total_counts lc_H cage (Z.to_nat D)) in *.
  assert (E : mul32 (shl32 (ccm_HalfedgeCount cage) 2)
                (wrap32 (notu32 (shlu32 x_FFFFFFFF (shl32 D 1)))) = 3 * T).
  { apply eqm32_int32.
    - apply wrap32_range.
    - unfold is_int32, int32_min, int32_max in *. lia.
    - rewrite mul32_eqm, shl32_eqm, low_mask_double_eqm by lia.
      rewrite Hc. change (2 ^ 2) with 4. eqm32_ring. }
  rewrite E. unfold div32. rewrite (Z.mul_comm 3 T), Z.quot_mul by lia.
  apply wrap32_small. unfold is_int32, int32_min, int32_max in *. lia.
Qed.

(** The halfedge total is four times the face total. *)
Lemma total_H_total_F :
  total_counts lc_H cage (Z.to_nat D) = 4 * total_counts lc_F cage (Z.to_nat D).
Proof.
  pose proof (total_H_closed cage (Z.to_nat D)) as HH.
  pose proof (total_F_closed cage (Z.to_nat D)) as HF.
  cbn zeta in HH, HF. lia.
Qed.

Lemma ccs_CumulativeFaceCountAtDepth_total :
  halfedge_total_fits cage D ->
  ccs_CumulativeFaceCountAtDepth cage D = total_counts lc_F cage (Z.to_nat D).
Proof.
  intros Hfit. unfold ccs_CumulativeFaceCountAtDepth.
  rewrite (ccs_CumulativeHalfedgeCountAtDepth_total Hfit), total_H_total_F.
  rewrite Z.shiftr_div_pow2 by lia. change (2 ^ 2) with 4.
  rewrite Z.mul_comm. apply Z.div_mul. lia.
Qed.

Lemma total_E_nonneg :
  0 <= E0 -> 0 <= H0 -> 0 <= total_counts lc_E cage (Z.to_nat D).
Proof.
  intros HE HH. apply total_counts_nonneg. intros j Hj.
  destruct j as [| j]; [lia|].
  pose proof (counts_at_E cage j) as Hc. cbn zeta in Hc. rewrite Hc.
  fold E0 H0. pose proof (pow2_pos (Z.of_nat j) ltac:(lia)). nia.
Qed.

Lemma ccs_CumulativeEdgeCountAtDepth_total :
  0 <= E0 -> 0 <= H0 ->
  6 * total_counts lc_E cage (Z.to_nat D) <= int32_max ->
  ccs_CumulativeEdgeCountAtDepth cage D = total_counts lc_E cage (Z.to_nat D).
Proof.
  intros HE HH Hfit. unfold ccs_CumulativeEdgeCountAtDepth.
  pose proof (total_E_closed cage (Z.to_nat D)) as Hc. cbn zeta in Hc.
  rewrite Z2Nat.id in Hc by lia.
  pose proof (total_E_nonneg HE HH) as HT.
  set (T := total_counts lc_E cage (Z.to_nat D)) in *.
  set (A := wrap32 (notu32 (shlu32 x_FFFFFFFF D))).
  assert (HA : A ==32 2 ^ D - 1) by (apply low_mask_eqm; lia).
  assert (E : mul32 A
                (sub32 (add32 (mul32 6 (add32 (shl32 (ccm_EdgeCount cage) 1)
                                          (ccm_HalfedgeCount cage)))
                          (mul32 A (shl32 (ccm_HalfedgeCount cage) 2)))
                   (shl32 (ccm_HalfedgeCount cage) 2)) = 6 * T).
  { apply eqm32_int32.
    - apply wrap32_range.
    - unfold is_int32, int32_min, int32_max in *. lia.
    - rewrite mul32_eqm, sub32_eqm, add32_eqm, !mul32_eqm, add32_eqm.
      rewrite !shl32_eqm by lia. rewrite HA, Hc.
      change (2 ^ 1) with 2. change (2 ^ 2) with 4. eqm32_ring. }
  rewrite E. unfold div32. rewrite (Z.mul_comm 6 T), Z.quot_mul by lia.
  apply wrap32_small. unfold is_int32, int32_min, int32_max in *. lia.
Qed.

Lemma total_C_le_total_E :
  0 <= E0 -> 0 <= H0 ->
  0 <= total_counts lc_C cage (Z.to_nat D) <= total_counts lc_E cage (Z.to_nat D).
Proof.
  intros HE HH.
  pose proof (total_E_closed cage (Z.to_nat D)) as HcE.
  pose proof (total_C_closed cage (Z.to_nat D)) as HcC.
  cbn zeta in HcE, HcC. rewrite Z2Nat.id in HcE, HcC by lia.
  pose proof pow2_D_pos as Hp. fold E0 H0 in HcE, HcC.
  set (p := 2 ^ D) in *.
  assert (H1 : 0 <= (p - 1) * E0) by (apply Z.mul_nonneg_nonneg; lia).
  assert (H2 : 0 <= (p - 1) * H0) by (apply Z.mul_nonneg_nonneg; lia).
  assert (H3 : 0 <= (p - 1) * ((p - 1) * H0)) by (apply Z.mul_nonneg_nonneg; lia).
  lia.
Qed.

Lemma ccs_CumulativeCreaseCountAtDepth_total :
  0 <= E0 -> 0 <= H0 ->
  6 * total_counts lc_E cage (Z.to_nat D) <= int32_max ->
  ccs_CumulativeCreaseCountAtDepth cage D = total_counts lc_C cage (Z.to_nat D).
Proof.
  intros HE HH Hfit. unfold ccs_CumulativeCreaseCountAtDepth.
  pose proof (total_C_le_total_E HE HH) as HT.
  pose proof (total_C_closed cage (Z.to_nat D)) as Hc. cbn zeta in Hc.
  rewrite Z2Nat.id in Hc by lia.
  apply eqm32_int32.
  - apply wrap32_range.
  - unfold is_int32, int32_min, int32_max in *. lia.
  - rewrite mul32_eqm, shl32_eqm, low_mask_eqm, Hc by lia.
    unfold ccm_CreaseCount. change (2 ^ 1) with 2. eqm32_ring.
Qed.

Lemma pow4_minus1_div3 : 3 * ((4 ^ D - 1) / 3) = 4 ^ D - 1.
Proof.
  symmetry. apply Z_div_exact_2; [lia|].
  rewrite Zminus_mod, Zpower_mod by lia.
  change (4 mod 3) with 1. rewrite Z.pow_1_l by lia. reflexivity.
Qed.

(** A cage with a halfedge whose hierarchy fits is at most 14 levels deep. *)
Lemma halfedge_total_fits_depth :
  halfedge_total_fits cage D -> 1 <= H0 -> D <= 14.
Proof.
  intros [_ Hfit] HH.
  pose proof (total_H_closed cage (Z.to_nat D)) as Hc. cbn zeta in Hc.
  rewrite Z2Nat.id, <- pow4_pow2 in Hc by lia. fold H0 in Hc.
  destruct (Z_le_gt_dec D 14) as [Hle | Hgt]; [exact Hle|].
  assert (Hp : 4 ^ 15 <= 4 ^ D) by (apply Z.pow_le_mono_r; lia).
  change (4 ^ 15) with 1073741824 in Hp.
  unfold int32_max in Hfit. change (2 ^ 31) with 2147483648 in Hfit.
  assert (1073741823 * 1 <= (4 ^ D - 1) * H0)
    by (apply Z.mul_le_mono_nonneg; lia).
  lia.
Qed.

(** The word [~(0xFFFFFFFF << (D << 1)) / 3] of the vertex formula, at a
    depth whose doubled value is a shift amount. *)
Lemma third_mask_exact :
  D <= 15 ->
  wrap32 (divu32 (notu32 (shlu32 x_FFFFFFFF (shl32 D 1))) 3) = (4 ^ D - 1) / 3.
Proof.
  intros HD.
  destruct (shl32_1_cases D depth_ok) as [[_ E] | [Hl _]];
    [| change (2 ^ 31) with 2147483648 in Hl; lia].
  rewrite E, notu_mask_exact, <- pow4_as_pow2 by lia.
  unfold divu32. pose proof pow4_minus1_div3 as H3.
  assert (Hp : 4 ^ D <= 4 ^ 15) by (apply Z.pow_le_mono_r; lia).
  change (4 ^ 15) with 1073741824 in Hp.
  assert (0 < 4 ^ D) by (apply Z.pow_pos_nonneg; lia).
  apply wrap32_small. unfold is_int32, int32_min, int32_max.
  change (2 ^ 31) with 2147483648. lia.
Qed.

Lemma total_V_nonneg :
  0 <= V0 -> 0 <= E0 -> 0 <= H0 -> 0 <= F0 ->
  0 <= total_counts lc_V cage (Z.to_nat D).
Proof.
  intros HV HE HH HF. apply total_counts_nonneg. intros j _.
  apply (counts_at_nonneg cage j); assumption.
Qed.

Lemma ccs_CumulativeVertexCountAtDepth_total :
  hierarchy_fits cage D ->
  ccs_CumulativeVertexCountAtDepth cage D = total_counts lc_V cage (Z.to_nat D).
Proof.
  intros (HV & HE & HH & HF & FitH & FitE & FitV).
  unfold ccs_CumulativeVertexCountAtDepth.
  pose proof (total_V_closed cage (Z.to_nat D)) as Hc. cbn zeta in Hc.
  rewrite Z2Nat.id, <- pow4_pow2 in Hc by lia.
  pose proof (total_V_nonneg HV HE HH HF) as HT.
  pose proof pow4_minus1_div3 as H3.
  set (T := total_counts lc_V cage (Z.to_nat D)) in *.
  set (B' := (4 ^ D - 1) / 3) in *.
  set (B := wrap32 (divu32 (notu32 (shlu32 x_FFFFFFFF (shl32 D 1))) 3)).
  assert (HB : B * ccm_HalfedgeCount cage ==32 B' * H0).
  { fold H0.
    destruct (Z.eq_dec H0 0) as [-> | Hne]; [now rewrite !Z.mul_0_r|].
    unfold B. rewrite third_mask_exact; [reflexivity|].
    assert (D <= 14); [| lia].
    apply halfedge_total_fits_depth; [split; assumption | lia]. }
  apply eqm32_int32.
  - apply wrap32_range.
  - unfold is_int32, int32_min, int32_max in *. lia.
  - unwrap32. rewrite HB, shl32_eqm, low_mask_eqm by lia.
    change (2 ^ 1) with 2. fold V0 E0 H0 F0. fold V0 E0 H0 F0 in Hc.
    assert (HT3 : T = (2 ^ D - 1) * (2 * E0 + H0 - H0 * 2) + B' * H0
                      + D * (H0 - (2 * E0 + H0) + (V0 + E0 + F0))).
    { apply Z.mul_reg_l with (p := 3); [lia|]. rewrite Hc.
      replace (4 ^ D - 1) with (3 * B') by exact H3. ring. }
    rewrite HT3. reflexivity.
Qed.

End Cumulative.

(** ** Sums of the per-level formulas over the levels 1 .. D *)

Section LevelSums.

Variable cage : cc_Mesh.
Variable D : Z.
Hypothesis counts_ok : mesh_counts_int32 cage.
Hypothesis depth_ok : 0 <= D <= int32_max.

Let V0 := ccm_VertexCount cage.
Let E0 := ccm_EdgeCount cage.
Let H0 := ccm_HalfedgeCount cage.
Let F0 := ccm_FaceCount cage.

Lemma level_H_nonneg (j : nat) : 0 <= H0 -> 0 <= lc_H (counts_at cage j).
Proof.
  intros HH. rewrite counts_at_H. fold H0.
  pose proof (Z.pow_nonneg 4 (Z.of_nat j)). nia.
Qed.

Lemma level_F_nonneg (j : nat) :
  0 <= H0 -> (1 <= j)%nat -> 0 <= lc_F (counts_at cage j).
Proof.
  intros HH Hj. destruct j as [| j]; [lia|].
  cbn [counts_at subdivide_counts lc_F]. now apply level_H_nonneg.
Qed.

Lemma level_C_nonneg (j : nat) : 0 <= E0 -> 0 <= lc_C (counts_at cage j).
Proof.
  intros HE. rewrite counts_at_C. fold E0.
  pose proof (Z.pow_nonneg 2 (Z.of_nat j)). nia.
Qed.

Lemma level_E_nonneg (j : nat) :
  0 <= E0 -> 0 <= H0 -> (1 <= j)%nat -> 0 <= lc_E (counts_at cage j).
Proof.
  intros HE HH Hj. destruct j as [| j]; [lia|].
  pose proof (counts_at_E cage j) as Hc. cbn zeta in Hc. rewrite Hc.
  fold E0 H0. pose proof (pow2_pos (Z.of_nat j) ltac:(lia)). nia.
Qed.

(** A per-level formula that is exact on the levels 1 .. D sums to the
    total of the rules. *)
Lemma sum_over_levels_total (f : Z -> Z) (proj : level_counts -> Z) :
  (forall j, (1 <= j)%nat -> 0 <= proj (counts_at cage j)) ->
  total_counts proj cage (Z.to_nat D) <= int32_max ->
  (forall k, 0 <= k <= int32_max ->
     f k = wrap32 (proj (counts_at cage (Z.to_nat k)))) ->
  sum_over_levels f 1 D = total_counts proj cage (Z.to_nat D).
Proof.
  intros Hpos Hfit Hf. unfold sum_over_levels, total_counts.
  replace (D - 1 + 1) with D by lia.
  apply sum_levels_ext. intros k Hk.
  rewrite Hf by lia. apply wrap32_small.
  pose proof (level_le_total cage proj (Z.to_nat D) (Z.to_nat k) Hpos
                ltac:(lia)) as Hle.
  unfold is_int32, int32_min. lia.
Qed.

Lemma sum_HalfedgeCountAtDepth :
  halfedge_total_fits cage D ->
  sum_over_levels (ccm_HalfedgeCountAtDepth cage) 1 D =
  total_counts lc_H cage (Z.to_nat D).
Proof.
  intros [HH Hfit]. apply sum_over_levels_total.
  - intros j _. now apply level_H_nonneg.
  - pose proof (total_counts_nonneg cage lc_H (Z.to_nat D)
                  (fun j _ => level_H_nonneg j HH)). lia.
  - intros k Hk. now apply ccm_HalfedgeCountAtDepth_wrap.
Qed.

Lemma sum_FaceCountAtDepth :
  halfedge_total_fits cage D ->
  sum_over_levels (ccm_FaceCountAtDepth cage) 1 D =
  total_counts lc_F cage (Z.to_nat D).
Proof.
  intros [HH Hfit]. apply sum_over_levels_total.
  - intros j Hj. now apply level_F_nonneg.
  - pose proof (total_counts_nonneg cage lc_F (Z.to_nat D)
                  (fun j Hj => level_F_nonneg j HH Hj)).
    pose proof (total_H_total_F cage D). lia.
  - intros k Hk. now apply ccm_FaceCountAtDepth_wrap.
Qed.

Lemma sum_EdgeCountAtDepth :
  0 <= E0 -> 0 <= H0 ->
  6 * total_counts lc_E cage (Z.to_nat D) <= int32_max ->
  sum_over_levels (ccm_EdgeCountAtDepth cage) 1 D =
  total_counts lc_E cage (Z.to_nat D).
Proof.
  intros HE HH Hfit. apply sum_over_levels_total.
  - intros j Hj. now apply level_E_nonneg.
  - pose proof (total_E_nonneg cage D HE HH). lia.
  - intros k Hk. now apply ccm_EdgeCountAtDepth_wrap.
Qed.

Lemma sum_CreaseCountAtDepth :
  0 <= E0 -> 0 <= H0 ->
  6 * total_counts lc_E cage (Z.to_nat D) <= int32_max ->
  sum_over_levels (ccm_CreaseCountAtDepth cage) 1 D =
  total_counts lc_C cage (Z.to_nat D).
Proof.
  intros HE HH Hfit. apply sum_over_levels_total.
  - intros j _. now apply level_C_nonneg.
  - pose proof (total_C_le_total_E cage D depth_ok HE HH). lia.
  - intros k Hk. now apply ccm_CreaseCountAtDepth_wrap.
Qed.

Lemma sum_VertexCountAtDepth :
  0 <= V0 -> 0 <= E0 -> 0 <= H0 -> 0 <= F0 ->
  total_counts lc_V cage (Z.to_nat D) <= int32_max ->
  sum_over_levels (ccm_VertexCountAtDepth cage) 1 D =
  total_counts lc_V cage (Z.to_nat D).
Proof.
  intros HV HE HH HF Hfit. apply sum_over_levels_total.
  - intros j _. now apply (counts_at_nonneg cage j).
  - exact Hfit.
  - intros k Hk. now apply ccm_VertexCountAtDepth_wrap.
Qed.

End LevelSums.

(** ** Allocation sizes *)

Lemma malloc_length {A : Type} (junk : A) (count elemSize : Z) :
  0 <= count <= int32_max -> 0 < elemSize < 2 ^ 32 ->
  length (malloc junk elemSize (byte_count count elemSize)) = Z.to_nat count.
Proof.
  unfold int32_max. intros Hc Hs. unfold malloc, byte_count, wrap_size_t.
  rewrite repeat_length.
  assert (Hprod : 0 <= count * elemSize < 2 ^ 64).
  { split; [apply Z.mul_nonneg_nonneg; lia|].
    apply Z.le_lt_trans with (m := 2 ^ 31 * elemSize).
    - apply Z.mul_le_mono_nonneg_r; lia.
    - change (2 ^ 64) with (2 ^ 31 * 2 ^ 33).
      apply Z.mul_lt_mono_pos_l; [lia|].
      change (2 ^ 33) with (2 * 2 ^ 32). lia. }
  rewrite (Z.mod_small count) by (change (2 ^ 64) with (2 ^ 33 * 2 ^ 31); lia).
  rewrite !(Z.mod_small (count * elemSize)) by exact Hprod.
  rewrite Z.div_mul by lia. reflexivity.
Qed.

(** * The counting formulas *)

(** Range conditions on concrete numbers. *)
Ltac int32_by_computation :=
  vm_compute; repeat split; discriminate.

(** The depths at which no shift of a per-level formula has an amount of 32
    or more: up to 16 for the faces, 31 for the edges and the creases, 15
    for the halfedges and 32 for the vertices. *)
Lemma ccm_CountAtDepth_shift_amounts (d : Z) :
  (1 <= d <= 16 -> valid_shift (shl32 (sub32 d 1) 1) = true) /\
  (1 <= d <= 31 -> valid_shift d = true /\ valid_shift (sub32 d 1) = true) /\
  (0 <= d <= 15 -> valid_shift (shl32 d 1) = true) /\
  (0 <= d <= 31 -> valid_shift d = true) /\
  (1 <= d <= 32 -> valid_shift (sub32 d 1) = true).
Proof.
  assert (Hsub : 1 <= d <= 32 -> sub32 d 1 = d - 1).
  { intros Hd. apply sub32_exact.
    unfold is_int32, int32_min, int32_max. lia. }
  assert (Hdbl : forall n, 0 <= n <= 15 -> shl32 n 1 = 2 * n).
  { intros n Hn. unfold shl32. change (valid_shift 1) with true. cbv iota.
    rewrite Z.shiftl_mul_pow2 by lia. change (2 ^ 1) with 2.
    rewrite wrap32_small by (unfold is_int32, int32_min, int32_max; lia).
    lia. }
  split; [| split; [| split; [| split]]]; intros Hd.
  - rewrite Hsub, Hdbl by lia. apply valid_shift_true. lia.
  - rewrite Hsub by lia. split; apply valid_shift_true; lia.
  - rewrite Hdbl by lia. apply valid_shift_true. lia.
  - apply valid_shift_true. lia.
  - rewrite Hsub by lia. apply valid_shift_true. lia.
Qed.

(** C1, as amended.  For every cage and every depth [d >= 0] at which no
    shift amount of the formula reaches the word size (up to depth 16 for
    the faces, 31 for the edges and the creases, 15 for the halfedges, 32
    for the vertices), the per-level counting function returns the value
    obtained by applying the one-step rules [d] times from the cage's base
    counts, reduced to the [int32_t] range; it returns exactly that value
    whenever the value fits in an [int32_t].  At these depths every shift
    the functions perform has an amount in [0, 32). *)
Theorem ccm_CountAtDepth_iterates_rules (cage : cc_Mesh) (d : Z) :
  mesh_counts_int32 cage ->
  0 <= d ->
  let c := counts_at cage (Z.to_nat d) in
  ((d <= 16 -> ccm_FaceCountAtDepth cage d = wrap32 (lc_F c)) /\
   (d <= 31 -> ccm_EdgeCountAtDepth cage d = wrap32 (lc_E c)) /\
   (d <= 15 -> ccm_HalfedgeCountAtDepth cage d = wrap32 (lc_H c)) /\
   (d <= 31 -> ccm_CreaseCountAtDepth cage d = wrap32 (lc_C c)) /\
   (d <= 32 -> ccm_VertexCountAtDepth cage d = wrap32 (lc_V c))) /\
  ((d <= 16 -> is_int32 (lc_F c) -> ccm_FaceCountAtDepth cage d = lc_F c) /\
   (d <= 31 -> is_int32 (lc_E c) -> ccm_EdgeCountAtDepth cage d = lc_E c) /\
   (d <= 15 -> is_int32 (lc_H c) -> ccm_HalfedgeCountAtDepth cage d = lc_H c) /\
   (d <= 31 -> is_int32 (lc_C c) -> ccm_CreaseCountAtDepth cage d = lc_C c) /\
   (d <= 32 -> is_int32 (lc_V c) -> ccm_VertexCountAtDepth cage d = lc_V c)) /\
  ((1 <= d <= 16 -> valid_shift (shl32 (sub32 d 1) 1) = true) /\
   (1 <= d <= 31 -> valid_shift d = true /\ valid_shift (sub32 d 1) = true) /\
   (d <= 15 -> valid_shift (shl32 d 1) = true) /\
   (d <= 31 -> valid_shift d = true) /\
   (1 <= d <= 32 -> valid_shift (sub32 d 1) = true)).
Proof.
  intros Hcage Hd c.
  assert (Hmax : forall n, d <= n -> n <= 32 -> 0 <= d <= int32_max)
    by (unfold int32_max; intros; lia).
  assert (HF : d <= 16 -> ccm_FaceCountAtDepth cage d = wrap32 (lc_F c))
    by (intros H; apply ccm_FaceCountAtDepth_wrap;
        [exact Hcage | apply (Hmax 16); lia]).
  assert (HE : d <= 31 -> ccm_EdgeCountAtDepth cage d = wrap32 (lc_E c))
    by (intros H; apply ccm_EdgeCountAtDepth_wrap;
        [exact Hcage | apply (Hmax 31); lia]).
  assert (HH : d <= 15 -> ccm_HalfedgeCountAtDepth cage d = wrap32 (lc_H c))
    by (intros H; apply ccm_HalfedgeCountAtDepth_wrap; apply (Hmax 15); lia).
  assert (HC : d <= 31 -> ccm_CreaseCountAtDepth cage d = wrap32 (lc_C c))
    by (intros H; apply ccm_CreaseCountAtDepth_wrap; apply (Hmax 31); lia).
  assert (HV : d <= 32 -> ccm_VertexCountAtDepth cage d = wrap32 (lc_V c))
    by (intros H; apply ccm_VertexCountAtDepth_wrap;
        [exact Hcage | apply (Hmax 32); lia]).
  split; [| split].
  - split; [exact HF|]. split; [exact HE|]. split; [exact HH|].
    split; [exact HC | exact HV].
  - split; [| split; [| split; [| split]]]; intros Hle Hfit.
    + rewrite HF by exact Hle. now apply wrap32_small.
    + rewrite HE by exact Hle. now apply wrap32_small.
    + rewrite HH by exact Hle. now apply wrap32_small.
    + rewrite HC by exact Hle. now apply wrap32_small.
    + rewrite HV by exact Hle. now apply wrap32_small.
  - destruct (ccm_CountAtDepth_shift_amounts d) as (SF & SE & SH & SC & SV).
    split; [exact SF|]. split; [exact SE|].
    split; [intros H; apply SH; lia|].
    split; [intros H; apply SC; lia | exact SV].
Qed.

(** C1 on the cube at depth 2, where the five counts fit. *)
Lemma ccm_CountAtDepth_iterates_rules_cube :
  mesh_counts_int32 cube_cage /\ 0 <= 2 /\
  ccm_FaceCountAtDepth cube_cage 2 = lc_F (counts_at cube_cage 2) /\
  ccm_EdgeCountAtDepth cube_cage 2 = lc_E (counts_at cube_cage 2) /\
  ccm_HalfedgeCountAtDepth cube_cage 2 = lc_H (counts_at cube_cage 2) /\
  ccm_CreaseCountAtDepth cube_cage 2 = lc_C (counts_at cube_cage 2) /\
  ccm_VertexCountAtDepth cube_cage 2 = lc_V (counts_at cube_cage 2).
Proof.
  assert (Hcage : mesh_counts_int32 cube_cage) by int32_by_computation.
  assert (Hd : 0 <= 2) by int32_by_computation.
  assert (H15 : 2 <= 15) by int32_by_computation.
  assert (H16 : 2 <= 16) by int32_by_computation.
  assert (H31 : 2 <= 31) by int32_by_computation.
  assert (H32 : 2 <= 32) by int32_by_computation.
  destruct (ccm_CountAtDepth_iterates_rules cube_cage 2 Hcage Hd)
    as (_ & (HF & HE & HH & HC & HV) & _).
  split; [exact Hcage|]. split; [exact Hd|].
  split; [apply (HF H16); int32_by_computation|].
  split; [apply (HE H31); int32_by_computation|].
  split; [apply (HH H15); int32_by_computation|].
  split; [apply (HC H31); int32_by_computation|].
  apply (HV H32); int32_by_computation.
Defined.

(** C1 as stated fails: at depth 14 the cube has 24 * 4^14 = 6442450944
    halfedges by the rules, a number no [int32_t] holds;
    [ccm_HalfedgeCountAtDepth] returns [24 << 28], that is -2147483648. *)
Lemma ccm_HalfedgeCountAtDepth_cube_14 :
  ccm_HalfedgeCountAtDepth cube_cage 14 = -2147483648 /\
  lc_H (counts_at cube_cage 14) = 6442450944 /\
  ccm_HalfedgeCountAtDepth cube_cage 14 <> lc_H (counts_at cube_cage 14).
Proof.
  split; [reflexivity|]. split; [reflexivity|].
  vm_compute. discriminate.
Qed.

(** C2, as amended.  For every cage and every depth [d >= 0] whose hierarchy
    fits (see [hierarchy_fits]), each cumulative counting function, for
    faces, edges, halfedges, creases and vertices alike, equals the sum of
    the corresponding per-level counting function over the levels 1 .. d:
    level 0, the cage, is left out of every sum. *)
Theorem ccs_Cumulative_sums_levels_from_1 (mesh : cc_Mesh) (d : Z) :
  mesh_counts_int32 mesh ->
  0 <= d <= int32_max ->
  hierarchy_fits mesh d ->
  ccs_CumulativeFaceCountAtDepth mesh d =
    sum_over_levels (ccm_FaceCountAtDepth mesh) 1 d /\
  ccs_CumulativeEdgeCountAtDepth mesh d =
    sum_over_levels (ccm_EdgeCountAtDepth mesh) 1 d /\
  ccs_CumulativeHalfedgeCountAtDepth mesh d =
    sum_over_levels (ccm_HalfedgeCountAtDepth mesh) 1 d /\
  ccs_CumulativeCreaseCountAtDepth mesh d =
    sum_over_levels (ccm_CreaseCountAtDepth mesh) 1 d /\
  ccs_CumulativeVertexCountAtDepth mesh d =
    sum_over_levels (ccm_VertexCountAtDepth mesh) 1 d.
Proof.
  intros Hmesh Hd Hfit.
  pose proof Hfit as (HV & HE & HH & HF & FitH & FitE & FitV).
  assert (HfitH : halfedge_total_fits mesh d) by (split; assumption).
  split; [| split; [| split; [| split]]].
  - rewrite sum_FaceCountAtDepth by assumption.
    now apply ccs_CumulativeFaceCountAtDepth_total.
  - rewrite sum_EdgeCountAtDepth by assumption.
    now apply ccs_CumulativeEdgeCountAtDepth_total.
  - rewrite sum_HalfedgeCountAtDepth by assumption.
    now apply ccs_CumulativeHalfedgeCountAtDepth_total.
  - rewrite sum_CreaseCountAtDepth by assumption.
    now apply ccs_CumulativeCreaseCountAtDepth_total.
  - rewrite sum_VertexCountAtDepth by assumption.
    now apply ccs_CumulativeVertexCountAtDepth_total.
Qed.

(** C2 at the cube and depth 3. *)
Lemma ccs_Cumulative_sums_levels_from_1_cube :
  mesh_counts_int32 cube_cage /\ 0 <= 3 <= int32_max /\
  hierarchy_fits cube_cage 3 /\
  ccs_CumulativeFaceCountAtDepth cube_cage 3 =
    sum_over_levels (ccm_FaceCountAtDepth cube_cage) 1 3 /\
  ccs_CumulativeVertexCountAtDepth cube_cage 3 =
    sum_over_levels (ccm_VertexCountAtDepth cube_cage) 1 3.
Proof.
  assert (Hmesh : mesh_counts_int32 cube_cage) by int32_by_computation.
  assert (Hd : 0 <= 3 <= int32_max) by int32_by_computation.
  assert (Hfit : hierarchy_fits cube_cage 3) by int32_by_computation.
  destruct (ccs_Cumulative_sums_levels_from_1 cube_cage 3 Hmesh Hd Hfit)
    as (HF & _ & _ & _ & HV).
  split; [exact Hmesh|]. split; [exact Hd|]. split; [exact Hfit|].
  split; [exact HF | exact HV].
Defined.

(** C2 as stated fails: the cumulative halfedge count of the cube at depth 1
    is 96, the halfedges of level 1; the sum over the levels 0 .. 1 is
    24 + 96 = 120.  Summing from level 1 is not enough either without the
    bound on the hierarchy: a triangle has 536920059 edges on the levels
    1 .. 14, but six times that number does not fit in an [int32_t] and
    [ccs_CumulativeEdgeCountAtDepth] returns -178907823. *)
Lemma ccs_CumulativeHalfedgeCountAtDepth_cube_1 :
  (ccs_CumulativeHalfedgeCountAtDepth cube_cage 1 = 96 /\
   sum_over_levels (ccm_HalfedgeCountAtDepth cube_cage) 0 1 = 120 /\
   ccs_CumulativeHalfedgeCountAtDepth cube_cage 1 <>
     sum_over_levels (ccm_HalfedgeCountAtDepth cube_cage) 0 1) /\
  (ccs_CumulativeEdgeCountAtDepth triangle_cage 14 = -178907823 /\
   sum_over_levels (ccm_EdgeCountAtDepth triangle_cage) 1 14 = 536920059 /\
   sum_over_levels (ccm_EdgeCountAtDepth triangle_cage) 0 14 = 536920062).
Proof.
  split.
  - split; [reflexivity|]. split; [reflexivity|]. vm_compute. discriminate.
  - split; [reflexivity|]. split; reflexivity.
Qed.

(** C3, as amended.  For every cage and every [maxDepth >= 0] whose
    hierarchy fits (see [hierarchy_fits]), the cumulative halfedge, crease,
    edge and vertex counts are the sums of the per-level counts over the
    levels 1 .. maxDepth, and [ccs_Create] allocates its halfedge, crease
    and vertex-point arrays with exactly these element counts, storing
    [maxDepth] and the cage. *)
Theorem ccs_Create_allocates_cumulative_counts
    (sizeof_Halfedge_SemiRegular sizeof_Crease sizeof_VertexPoint : Z)
    (junk_halfedge : cc_Halfedge_SemiRegular) (junk_crease : cc_Crease)
    (junk_point : cc_VertexPoint) (mesh : cc_Mesh) (depth : Z) :
  0 < sizeof_Halfedge_SemiRegular < 2 ^ 32 ->
  0 < sizeof_Crease < 2 ^ 32 ->
  0 < sizeof_VertexPoint < 2 ^ 32 ->
  mesh_counts_int32 mesh ->
  0 <= depth <= int32_max ->
  hierarchy_fits mesh depth ->
  let subd := ccs_Create sizeof_Halfedge_SemiRegular sizeof_Crease
                sizeof_VertexPoint junk_halfedge junk_crease junk_point
                mesh depth in
  ccs_CumulativeHalfedgeCountAtDepth mesh depth =
    sum_over_levels (ccm_HalfedgeCountAtDepth mesh) 1 depth /\
  ccs_CumulativeCreaseCountAtDepth mesh depth =
    sum_over_levels (ccm_CreaseCountAtDepth mesh) 1 depth /\
  ccs_CumulativeEdgeCountAtDepth mesh depth =
    sum_over_levels (ccm_EdgeCountAtDepth mesh) 1 depth /\
  ccs_CumulativeVertexCountAtDepth mesh depth =
    sum_over_levels (ccm_VertexCountAtDepth mesh) 1 depth /\
  Z.of_nat (length (s_halfedges subd)) =
    ccs_CumulativeHalfedgeCountAtDepth mesh depth /\
  Z.of_nat (length (s_creases subd)) =
    ccs_CumulativeCreaseCountAtDepth mesh depth /\
  Z.of_nat (length (s_vertexPoints subd)) =
    ccs_CumulativeVertexCountAtDepth mesh depth /\
  ccs_MaxDepth subd = depth /\
  cage subd = mesh.
Proof.
  intros HsH HsC HsV Hmesh Hd Hfit subd.
  pose proof Hfit as (HV & HE & HH & HF & FitH & FitE & FitV).
  assert (HfitH : halfedge_total_fits mesh depth) by (split; assumption).
  pose proof (ccs_CumulativeHalfedgeCountAtDepth_total mesh depth Hd HfitH) as EH.
  pose proof (ccs_CumulativeCreaseCountAtDepth_total mesh depth Hd HE HH FitE) as EC.
  pose proof (ccs_CumulativeEdgeCountAtDepth_total mesh depth Hd HE HH FitE) as EE.
  pose proof (ccs_CumulativeVertexCountAtDepth_total mesh depth Hd Hfit) as EV.
  pose proof (total_H_nonneg mesh depth HH) as PH.
  pose proof (total_C_le_total_E mesh depth Hd HE HH) as PC.
  pose proof (total_E_nonneg mesh depth HE HH) as PE.
  pose proof (total_V_nonneg mesh depth HV HE HH HF) as PV.
  split; [rewrite sum_HalfedgeCountAtDepth by assumption; exact EH|].
  split; [rewrite sum_CreaseCountAtDepth by assumption; exact EC|].
  split; [rewrite sum_EdgeCountAtDepth by assumption; exact EE|].
  split; [rewrite sum_VertexCountAtDepth by assumption; exact EV|].
  unfold subd, ccs_Create. cbn [s_halfedges s_creases s_vertexPoints].
  rewrite !malloc_length by (try assumption; rewrite ?EH, ?EC, ?EV; lia).
  rewrite !Z2Nat.id by (rewrite ?EH, ?EC, ?EV; lia).
  repeat split.
Qed.

(** C3 at the cube and depth 2: 480 halfedges, 72 creases and 124 vertex
    points are allocated. *)
Lemma ccs_Create_allocates_cumulative_counts_cube :
  mesh_counts_int32 cube_cage /\ 0 <= 2 <= int32_max /\
  hierarchy_fits cube_cage 2 /\
  Z.of_nat (length (s_halfedges (ccs_Create0 cube_cage 2))) =
    ccs_CumulativeHalfedgeCountAtDepth cube_cage 2 /\
  ccs_CumulativeHalfedgeCountAtDepth cube_cage 2 =
    sum_over_levels (ccm_HalfedgeCountAtDepth cube_cage) 1 2.
Proof.
  assert (Hmesh : mesh_counts_int32 cube_cage) by int32_by_computation.
  assert (Hd : 0 <= 2 <= int32_max) by int32_by_computation.
  assert (Hfit : hierarchy_fits cube_cage 2) by int32_by_computation.
  assert (H16 : 0 < 16 < 2 ^ 32) by (split; reflexivity).
  assert (H12 : 0 < 12 < 2 ^ 32) by (split; reflexivity).
  destruct (ccs_Create_allocates_cumulative_counts 16 12 12
              zero_sr_halfedge zero_crease zero_point cube_cage 2
              H16 H12 H12 Hmesh Hd Hfit)
    as (HsumH & _ & _ & _ & HlenH & _).
  split; [exact Hmesh|]. split; [exact Hd|]. split; [exact Hfit|].
  split; [exact HlenH | exact HsumH].
Defined.

(** C3 as stated fails: for a single triangle and [maxDepth = 14] the levels
    1 .. 14 hold 1073741820 halfedges, which an [int32_t] holds, but the
    product [H1 * tmp = 12 * (4^14 - 1)] formed before the division by 3
    does not fit and [ccs_CumulativeHalfedgeCountAtDepth] returns
    -357913945. *)
Lemma ccs_CumulativeHalfedgeCountAtDepth_triangle_14 :
  ccs_CumulativeHalfedgeCountAtDepth triangle_cage 14 = -357913945 /\
  sum_over_levels (ccm_HalfedgeCountAtDepth triangle_cage) 1 14 = 1073741820 /\
  ccs_CumulativeHalfedgeCountAtDepth triangle_cage 14 <>
    sum_over_levels (ccm_HalfedgeCountAtDepth triangle_cage) 1 14.
Proof.
  split; [reflexivity|]. split; [reflexivity|].
  vm_compute. discriminate.
Qed.

(** C10, as amended.  For every cage and every depth [>= 0] whose halfedge
    total fits (see [halfedge_total_fits]), the cumulative halfedge count is
    divisible by 4, the cumulative face count is exactly one quarter of it,
    and it equals the sum of the per-level face counts over the levels
    1 .. depth. *)
Theorem ccs_CumulativeFaceCountAtDepth_quarter (mesh : cc_Mesh) (depth : Z) :
  mesh_counts_int32 mesh ->
  0 <= depth <= int32_max ->
  halfedge_total_fits mesh depth ->
  ccs_CumulativeHalfedgeCountAtDepth mesh depth mod 4 = 0 /\
  4 * ccs_CumulativeFaceCountAtDepth mesh depth =
    ccs_CumulativeHalfedgeCountAtDepth mesh depth /\
  ccs_CumulativeFaceCountAtDepth mesh depth =
    sum_over_levels (ccm_FaceCountAtDepth mesh) 1 depth.
Proof.
  intros Hmesh Hd Hfit.
  rewrite sum_FaceCountAtDepth by assumption.
  rewrite (ccs_CumulativeFaceCountAtDepth_total mesh depth Hd Hfit).
  rewrite (ccs_CumulativeHalfedgeCountAtDepth_total mesh depth Hd Hfit).
  rewrite total_H_total_F.
  split; [| split; reflexivity].
  rewrite Z.mul_comm. apply Z_mod_mult.
Qed.

(** C10 at the cube and depth 3: 2016 halfedges and 504 faces. *)
Lemma ccs_CumulativeFaceCountAtDepth_quarter_cube :
  mesh_counts_int32 cube_cage /\ 0 <= 3 <= int32_max /\
  halfedge_total_fits cube_cage 3 /\
  ccs_CumulativeHalfedgeCountAtDepth cube_cage 3 mod 4 = 0 /\
  4 * ccs_CumulativeFaceCountAtDepth cube_cage 3 =
    ccs_CumulativeHalfedgeCountAtDepth cube_cage 3.
Proof.
  assert (Hmesh : mesh_counts_int32 cube_cage) by int32_by_computation.
  assert (Hd : 0 <= 3 <= int32_max) by int32_by_computation.
  assert (Hfit : halfedge_total_fits cube_cage 3) by int32_by_computation.
  destruct (ccs_CumulativeFaceCountAtDepth_quarter cube_cage 3 Hmesh Hd Hfit)
    as (Hmod & Hquarter & _).
  split; [exact Hmesh|]. split; [exact Hd|]. split; [exact Hfit|].
  split; [exact Hmod | exact Hquarter].
Defined.

(** C10 as stated fails: for a single triangle at depth 14 the product
    [12 * (4^14 - 1)] wraps, [ccs_CumulativeHalfedgeCountAtDepth] returns
    -357913945, which 4 does not divide, and the shift by 2 drops the
    remainder: four times the cumulative face count is -357913948. *)
Lemma ccs_CumulativeFaceCountAtDepth_triangle_14 :
  ccs_CumulativeHalfedgeCountAtDepth triangle_cage 14 mod 4 = 3 /\
  ccs_CumulativeFaceCountAtDepth triangle_cage 14 = -89478487 /\
  4 * ccs_CumulativeFaceCountAtDepth triangle_cage 14 <>
    ccs_CumulativeHalfedgeCountAtDepth triangle_cage 14 /\
  ccs_CumulativeFaceCountAtDepth triangle_cage 14 <>
    sum_over_levels (ccm_FaceCountAtDepth triangle_cage) 1 14.
Proof.
  split; [reflexivity|]. split; [reflexivity|].
  split; vm_compute; discriminate.
Qed.

(** * Crease lookup *)

(** C4.  For every subd, depth and edge id at or above
    [ccm_CreaseCountAtDepth (cage, depth)], however far above,
    [ccs_CreaseSharpness] returns [0.0f] and [ccs_CreaseNextID] and
    [ccs_CreasePrevID] return the edge id; below that bound the three read
    the crease record that [ccs__Crease] addresses. *)
Theorem ccs_Crease_sentinel (subd : cc_Subd) (edgeID depth : Z) :
  (ccm_CreaseCountAtDepth (cage subd) depth <= edgeID ->
   ccs_CreaseSharpness subd edgeID depth = Some f32_zero /\
   ccs_CreaseNextID subd edgeID depth = Some edgeID /\
   ccs_CreasePrevID subd edgeID depth = Some edgeID) /\
  (edgeID < ccm_CreaseCountAtDepth (cage subd) depth ->
   ccs_CreaseSharpness subd edgeID depth =
     option_map cr_sharpness (ccs__Crease subd edgeID depth) /\
   ccs_CreaseNextID subd edgeID depth =
     option_map cr_nextID (ccs__Crease subd edgeID depth) /\
   ccs_CreasePrevID subd edgeID depth =
     option_map cr_prevID (ccs__Crease subd edgeID depth)).
Proof.
  unfold ccs_CreaseSharpness, ccs_CreaseNextID, ccs_CreasePrevID.
  split; intros Hcmp.
  - apply Z.ltb_ge in Hcmp. rewrite Hcmp. repeat split.
  - apply Z.ltb_lt in Hcmp. rewrite Hcmp.
    unfold ccs_CreaseSharpness_Fast, ccs_CreaseNextID_Fast,
      ccs_CreasePrevID_Fast.
    destruct (ccs__Crease subd edgeID depth); repeat split.
Qed.

(** C4 on the quad subdivided once, which has 8 creases and 12 edges at
    depth 1: edge 11 is no crease, edge 3 is the stored crease 3. *)
Lemma ccs_Crease_sentinel_quad :
  ccm_CreaseCountAtDepth (cage quad_subd) 1 = 8 /\
  ccm_EdgeCountAtDepth (cage quad_subd) 1 = 12 /\
  (ccs_CreaseSharpness quad_subd 11 1 = Some f32_zero /\
   ccs_CreaseNextID quad_subd 11 1 = Some 11 /\
   ccs_CreasePrevID quad_subd 11 1 = Some 11) /\
  ccs_CreaseNextID quad_subd 3 1 =
    option_map cr_nextID (ccs__Crease quad_subd 3 1).
Proof.
  split; [reflexivity|]. split; [reflexivity|].
  split.
  - apply (ccs_Crease_sentinel quad_subd 11 1). vm_compute. discriminate.
  - apply (ccs_Crease_sentinel quad_subd 3 1). reflexivity.
Defined.

(** * Quad-derived topology *)

Lemma land_3_mod (h : Z) : Z.land h 3 = h mod 4.
Proof. change 3 with (Z.ones 2). rewrite Z.land_ones by lia. reflexivity. Qed.

Lemma land_lnot_3 (h : Z) : Z.land h (Z.lnot 3) = 4 * (h / 4).
Proof.
  rewrite <- Z.ldiff_land. change 3 with (Z.ones 2).
  rewrite Z.ldiff_ones_r, Z.shiftr_div_pow2, Z.shiftl_mul_pow2 by lia.
  change (2 ^ 2) with 4. ring.
Qed.

(** Or-ing [n] low bits into a multiple of [2^n] adds them. *)
Lemma lor_low_bits (n q r : Z) :
  0 <= n -> 0 <= r < 2 ^ n -> Z.lor (Z.shiftl q n) r = q * 2 ^ n + r.
Proof.
  intros Hn Hr.
  assert (Hdisj : Z.land (Z.shiftl q n) r = 0).
  { apply Z.bits_inj'. intros k Hk. rewrite Z.land_spec, Z.bits_0.
    destruct (Z_lt_le_dec k n) as [Hlow | Hhigh].
    - rewrite Z.shiftl_spec_low by lia. reflexivity.
    - replace r with (r mod 2 ^ n) by (apply Z.mod_small; lia).
      rewrite Z.mod_pow2_bits_high by lia. apply andb_false_r. }
  rewrite <- Z.lxor_lor by exact Hdisj.
  rewrite <- Z.add_nocarry_lxor by exact Hdisj.
  rewrite Z.shiftl_mul_pow2 by lia. reflexivity.
Qed.

(** Or-ing two low bits into a multiple of 4 adds them. *)
Lemma lor_quad_local (q r : Z) : 0 <= r < 4 -> Z.lor (4 * q) r = 4 * q + r.
Proof.
  intros Hr.
  replace (4 * q) with (Z.shiftl q 2)
    by (rewrite Z.shiftl_mul_pow2 by lia; change (2 ^ 2) with 4; ring).
  rewrite lor_low_bits by (change (2 ^ 2) with 4; lia).
  rewrite Z.shiftl_mul_pow2 by lia. reflexivity.
Qed.

(** The scroll keeps the face, [halfedgeID / 4], and moves the position in
    the face, [halfedgeID mod 4], by [direction] modulo 4. *)
Lemma ccm__ScrollFaceHalfedgeID_Quad_spec (h direction : Z) :
  -4 <= direction <= 4 ->
  ccm__ScrollFaceHalfedgeID_Quad h direction =
  4 * (h / 4) + (h mod 4 + direction) mod 4.
Proof.
  intros Hdir. unfold ccm__ScrollFaceHalfedgeID_Quad. cbn zeta.
  rewrite land_lnot_3, !land_3_mod.
  pose proof (Z.mod_pos_bound h 4 ltac:(lia)) as Hr.
  unfold add32. rewrite wrap32_small
    by (unfold is_int32, int32_min, int32_max; lia).
  apply lor_quad_local. apply Z.mod_pos_bound. lia.
Qed.

Lemma ccm_HalfedgeNextID_Quad_spec (h : Z) :
  ccm_HalfedgeNextID_Quad h = 4 * (h / 4) + (h mod 4 + 1) mod 4.
Proof. apply ccm__ScrollFaceHalfedgeID_Quad_spec. lia. Qed.

Lemma ccm_HalfedgePrevID_Quad_spec (h : Z) :
  ccm_HalfedgePrevID_Quad h = 4 * (h / 4) + (h mod 4 - 1) mod 4.
Proof.
  unfold ccm_HalfedgePrevID_Quad.
  rewrite ccm__ScrollFaceHalfedgeID_Quad_spec by lia. reflexivity.
Qed.

(** C6.  For every subd, depth and halfedge id [h]: the face id is
    [h >> 2]; next and prev keep the high bits of [h] and add 1 to, or
    subtract 1 from, its low two bits modulo 4; so the ids 4f, 4f + 1,
    4f + 2, 4f + 3 of face [f] form a cycle under next, and prev is the
    inverse of next. *)
Theorem ccs_Halfedge_quad_topology (subd : cc_Subd) (h f depth : Z) :
  ccs_HalfedgeFaceID subd h depth = Z.shiftr h 2 /\
  ccs_HalfedgeFaceID subd h depth = h / 4 /\
  ccs_HalfedgeNextID subd h depth = 4 * (h / 4) + (h mod 4 + 1) mod 4 /\
  ccs_HalfedgePrevID subd h depth = 4 * (h / 4) + (h mod 4 - 1) mod 4 /\
  ccs_HalfedgeFaceID subd (ccs_HalfedgeNextID subd h depth) depth =
    ccs_HalfedgeFaceID subd h depth /\
  ccs_HalfedgeFaceID subd (ccs_HalfedgePrevID subd h depth) depth =
    ccs_HalfedgeFaceID subd h depth /\
  ccs_HalfedgePrevID subd (ccs_HalfedgeNextID subd h depth) depth = h /\
  ccs_HalfedgeNextID subd (ccs_HalfedgePrevID subd h depth) depth = h /\
  (ccs_HalfedgeNextID subd (4 * f) depth = 4 * f + 1 /\
   ccs_HalfedgeNextID subd (4 * f + 1) depth = 4 * f + 2 /\
   ccs_HalfedgeNextID subd (4 * f + 2) depth = 4 * f + 3 /\
   ccs_HalfedgeNextID subd (4 * f + 3) depth = 4 * f) /\
  (ccs_HalfedgeFaceID subd (4 * f) depth = f /\
   ccs_HalfedgeFaceID subd (4 * f + 1) depth = f /\
   ccs_HalfedgeFaceID subd (4 * f + 2) depth = f /\
   ccs_HalfedgeFaceID subd (4 * f + 3) depth = f).
Proof.
  unfold ccs_HalfedgeFaceID, ccs_HalfedgeNextID, ccs_HalfedgePrevID,
    ccm_HalfedgeFaceID_Quad.
  rewrite !ccm_HalfedgeNextID_Quad_spec, !ccm_HalfedgePrevID_Quad_spec.
  rewrite ?ccm_HalfedgeNextID_Quad_spec, ?ccm_HalfedgePrevID_Quad_spec.
  rewrite !Z.shiftr_div_pow2 by lia. change (2 ^ 2) with 4.
  repeat split; Z.div_mod_to_equations; lia.
Qed.

(** * Vertex-halfedge rotation *)

(** On the cage, the forward rotation stops at -1 on a boundary halfedge
    and continues with the twin's next otherwise. *)
Lemma ccm_NextVertexHalfedgeID_spec (mesh : cc_Mesh) (h twinID : Z) :
  ccm_HalfedgeTwinID mesh h = Some twinID ->
  -1 <= twinID ->
  ccm_NextVertexHalfedgeID mesh h =
  if twinID =? -1 then Some (-1) else ccm_HalfedgeNextID mesh twinID.
Proof.
  intros Htwin Hge. unfold ccm_NextVertexHalfedgeID. rewrite Htwin. cbn [obind].
  destruct (Z.eqb_spec twinID (-1)) as [-> | Hne].
  - reflexivity.
  - replace (0 <=? twinID) with true by (symmetry; apply Z.leb_le; lia).
    reflexivity.
Qed.

(** On the cage, the backward rotation is the twin of prev. *)
Lemma ccm_PrevVertexHalfedgeID_spec (mesh : cc_Mesh) (h prevID : Z) :
  ccm_HalfedgePrevID mesh h = Some prevID ->
  ccm_PrevVertexHalfedgeID mesh h = ccm_HalfedgeTwinID mesh prevID.
Proof.
  intros Hprev. unfold ccm_PrevVertexHalfedgeID. now rewrite Hprev.
Qed.

(** On the subd, the backward rotation is the twin of prev. *)
Lemma ccs_PrevVertexHalfedgeID_spec (subd : cc_Subd) (h depth : Z) :
  ccs_PrevVertexHalfedgeID subd h depth =
  ccs_HalfedgeTwinID subd (ccs_HalfedgePrevID subd h depth) depth.
Proof. reflexivity. Qed.

(** On the subd, the forward rotation takes the next of the twin whatever
    the twin is: on a boundary halfedge, whose twin is -1, it returns -4. *)
Lemma ccs_NextVertexHalfedgeID_boundary (subd : cc_Subd) (h depth : Z) :
  ccs_HalfedgeTwinID subd h depth = Some (-1) ->
  ccs_NextVertexHalfedgeID subd h depth = Some (-4).
Proof.
  intros Htwin. unfold ccs_NextVertexHalfedgeID. rewrite Htwin. reflexivity.
Qed.

(** C7, where the code departs from it.  Halfedge 0 of the quad lies on the
    boundary, on the cage and at depth 1 alike: its twin is -1.  On the cage
    [ccm_NextVertexHalfedgeID] returns -1; at depth 1
    [ccs_NextVertexHalfedgeID] returns -4, the next of -1 in quad
    arithmetic. *)
Theorem ccs_NextVertexHalfedgeID_quad_boundary :
  ccm_HalfedgeTwinID quad_cage 0 = Some (-1) /\
  ccm_NextVertexHalfedgeID quad_cage 0 = Some (-1) /\
  ccs_HalfedgeTwinID quad_subd 0 1 = Some (-1) /\
  ccs_NextVertexHalfedgeID quad_subd 0 1 = Some (-4).
Proof. repeat split. Qed.

(** * The edge-to-halfedge resolver *)

(** ** The heap word *)

Lemma heap_of_path_bounds (path : list bool) :
  2 ^ Z.of_nat (length path) <= heap_of_path path
  < 2 ^ (Z.of_nat (length path) + 1).
Proof.
  induction path as [| b path IH].
  - cbn. lia.
  - cbn [heap_of_path length]. rewrite Nat2Z.inj_succ, <- Z.add_1_r.
    rewrite !Z.pow_add_r in * by lia. change (2 ^ 1) with 2 in *.
    destruct b; cbn [Z.b2z]; lia.
Qed.

Lemma heap_of_path_lt (path : list bool) (n : Z) :
  Z.of_nat (length path) < n -> heap_of_path path < 2 ^ n.
Proof.
  intros Hlen. pose proof (heap_of_path_bounds path) as [_ Hlt].
  apply Z.lt_le_trans with (m := 2 ^ (Z.of_nat (length path) + 1));
    [exact Hlt|].
  apply Z.pow_le_mono_r; lia.
Qed.

Lemma heap_of_path_pos (path : list bool) : 1 <= heap_of_path path.
Proof.
  pose proof (heap_of_path_bounds path) as [Hle _].
  pose proof (pow2_pos (Z.of_nat (length path)) ltac:(lia)). lia.
Qed.

Lemma low_bit_b2z (e : Z) : Z.b2z (Z.land e 1 =? 1) = Z.land e 1.
Proof.
  change 1 with (Z.ones 1) at 1 3. rewrite Z.land_ones by lia.
  change (2 ^ 1) with 2. pose proof (Z.mod_pos_bound e 2 ltac:(lia)).
  destruct (Z.eqb_spec (e mod 2) 1) as [-> | Hne]; cbn [Z.b2z]; lia.
Qed.

(** The word [(heap << 1) | (edgeID & 1)], before its reduction to 32 bits. *)
Lemma heap_push (path : list bool) (e : Z) :
  Z.lor (Z.shiftl (heap_of_path path) 1) (Z.land e 1) =
  heap_of_path ((Z.land e 1 =? 1) :: path).
Proof.
  cbn [heap_of_path]. rewrite low_bit_b2z.
  assert (Hbit : 0 <= Z.land e 1 < 2 ^ 1).
  { change 1 with (Z.ones 1) at 1 2. rewrite Z.land_ones by lia.
    apply Z.mod_pos_bound. reflexivity. }
  rewrite lor_low_bits by (lia || exact Hbit).
  change (2 ^ 1) with 2. ring.
Qed.

(** While at most 31 bits are recorded, the 32-bit push loses nothing. *)
Lemma heap_push_fits (path : list bool) (e : Z) :
  (length path <= 30)%nat ->
  wrapu32 (Z.lor (shlu32 (heap_of_path path) 1) (Z.land e 1)) =
  heap_of_path ((Z.land e 1 =? 1) :: path).
Proof.
  intros Hlen. unfold shlu32. change (valid_shift 1) with true. cbv iota.
  pose proof (heap_of_path_pos path) as Hpos.
  pose proof (heap_of_path_lt path 31 ltac:(lia)) as Hlt.
  unfold wrapu32 at 2. rewrite Z.shiftl_mul_pow2 by lia.
  change (2 ^ 1) with 2. change (2 ^ 31) with 2147483648 in Hlt.
  rewrite (Z.mod_small (heap_of_path path * 2))
    by (change (2 ^ 32) with 4294967296; lia).
  replace (heap_of_path path * 2) with (Z.shiftl (heap_of_path path) 1)
    by (rewrite Z.shiftl_mul_pow2 by lia; reflexivity).
  rewrite heap_push. unfold wrapu32. apply Z.mod_small.
  pose proof (heap_of_path_pos ((Z.land e 1 =? 1) :: path)).
  pose proof (heap_of_path_lt ((Z.land e 1 =? 1) :: path) 32
                ltac:(cbn [length]; lia)). lia.
Qed.

(** A word that holds 32 recorded bits does not fit in 32 bits. *)
Lemma heap_of_path_overflow (path : list bool) :
  (32 <= length path)%nat -> wrapu32 (heap_of_path path) <> heap_of_path path.
Proof.
  intros Hlen Heq. pose proof (heap_of_path_bounds path) as [Hle _].
  assert (2 ^ 32 <= 2 ^ Z.of_nat (length path))
    by (apply Z.pow_le_mono_r; lia).
  unfold wrapu32 in Heq.
  pose proof (Z.mod_pos_bound (heap_of_path path) (2 ^ 32) ltac:(lia)). lia.
Qed.

(** The "read heap" loop replays the recorded bits, the most recent first. *)
Lemma read_heap_replays (trips : nat) (path : list bool) (h : Z) :
  (length path <= trips)%nat ->
  read_heap trips (heap_of_path path) h = replay_path path h.
Proof.
  revert path h. induction trips as [| trips IH]; intros path h Hlen.
  - destruct path; [reflexivity | cbn in Hlen; lia].
  - destruct path as [| b path]; [reflexivity|].
    cbn [read_heap replay_path]. cbn [length] in Hlen.
    pose proof (heap_of_path_pos path) as Hpos.
    assert (Hgt : (1 <? heap_of_path (b :: path)) = true).
    { apply Z.ltb_lt. cbn [heap_of_path]. destruct b; cbn [Z.b2z]; lia. }
    rewrite Hgt.
    assert (Hbit : (Z.land (heap_of_path (b :: path)) 1 =? 1) = b).
    { change 1 with (Z.ones 1) at 1. rewrite Z.land_ones by lia.
      change (2 ^ 1) with 2. cbn [heap_of_path].
      rewrite Z.add_comm, Z.mul_comm, Z_mod_plus_full.
      destruct b; reflexivity. }
    assert (Hshift : Z.shiftr (heap_of_path (b :: path)) 1 = heap_of_path path).
    { rewrite Z.shiftr_div_pow2 by lia. change (2 ^ 1) with 2.
      cbn [heap_of_path]. destruct b; cbn [Z.b2z]; Z.div_mod_to_equations; lia. }
    rewrite Hbit, Hshift. apply IH. lia.
Qed.

(** ** The descent *)

Lemma heapDepth_pred (trips : nat) :
  (trips <= 31)%nat -> sub32 (Z.of_nat (S trips) + 1) 1 = Z.of_nat trips + 1.
Proof.
  intros Hn. rewrite sub32_exact; [lia|].
  unfold is_int32, int32_min, int32_max. lia.
Qed.

(** The loop builds the word of the bits it records, as long as 31 bits
    hold them. *)
Lemma build_heap_descent (cage : cc_Mesh) (trips : nat) :
  forall (path : list bool) (edgeID h0 : Z),
  (length path + trips <= 31)%nat ->
  let heapDepth := Z.of_nat trips + 1 in
  let st := build_heap cage trips
              (mk_resolver_state (heap_of_path path) edgeID heapDepth h0) in
  let path' := descent_path cage trips edgeID heapDepth path in
  rs_heap st = heap_of_path path' /\
  (length path' <= length path + trips)%nat.
Proof.
  induction trips as [| trips IH]; intros path edgeID h0 Hlen; cbn zeta.
  - cbn [build_heap descent_path rs_heap]. split; [reflexivity | lia].
  - cbn [build_heap descent_path rs_heap rs_edgeID rs_heapDepth
         rs_edgeHalfedgeID].
    replace (1 <? Z.of_nat (S trips) + 1) with true
      by (symmetry; apply Z.ltb_lt; lia).
    rewrite heapDepth_pred by lia.
    destruct (mul32 2 (ccm_EdgeCountAtDepth_Fast cage (Z.of_nat trips + 1))
              <=? edgeID).
    + cbn [rs_heap]. split; [reflexivity | lia].
    + rewrite heap_push_fits by lia.
      specialize (IH ((Z.land edgeID 1 =? 1) :: path) (Z.shiftr edgeID 1) h0).
      cbn zeta in IH. cbn [length] in IH.
      destruct IH as [IHheap IHlen]; [lia|].
      split; [exact IHheap | lia].
Qed.

(** ** The loops run to their end *)

Lemma obind_ext {A B : Type} (m : option A) (f g : A -> option B) :
  (forall a, f a = g a) -> obind m f = obind m g.
Proof. intros Hfg. destruct m as [a |]; [apply Hfg | reflexivity]. Qed.


(** Unrolling the "build heap" loop more than [heapDepth - 1] times changes
    nothing: by then the loop has left through its [break] or its guard. *)
Lemma build_heap_trips_enough (cage : cc_Mesh) (trips extra : nat) :
  forall st : resolver_state,
  rs_heapDepth st <= Z.of_nat trips + 1 ->
  rs_heapDepth st <= int32_max ->
  build_heap cage (trips + extra) st = build_heap cage trips st.
Proof.
  induction trips as [| trips IH]; intros st Hdepth Hmax.
  - cbn [Nat.add build_heap]. destruct extra as [| extra]; [reflexivity|].
    cbn [build_heap].
    replace (1 <? rs_heapDepth st) with false
      by (symmetry; apply Z.ltb_ge; lia).
    reflexivity.
  - cbn [Nat.add build_heap].
    destruct (Z.ltb_spec 1 (rs_heapDepth st)) as [Hgt | Hle]; [| reflexivity].
    destruct (mul32 2 _ <=? rs_edgeID st); [reflexivity|].
    assert (Hpred : sub32 (rs_heapDepth st) 1 = rs_heapDepth st - 1).
    { apply sub32_exact. unfold is_int32, int32_min, int32_max in *. lia. }
    apply IH; cbn [rs_heapDepth]; rewrite Hpred; lia.
Qed.

(** Unrolling the "read heap" loop more than 32 times changes nothing for a
    32-bit heap: each trip drops one bit. *)
Lemma read_heap_trips_enough (trips extra : nat) :
  forall heap h : Z,
  0 <= heap < 2 ^ Z.of_nat trips ->
  read_heap (trips + extra) heap h = read_heap trips heap h.
Proof.
  induction trips as [| trips IH]; intros heap h Hheap.
  - cbn [Nat.add read_heap]. destruct extra as [| extra]; [reflexivity|].
    cbn [read_heap]. change (2 ^ Z.of_nat 0) with 1 in Hheap.
    replace (1 <? heap) with false by (symmetry; apply Z.ltb_ge; lia).
    reflexivity.
  - cbn [Nat.add read_heap].
    destruct (Z.ltb_spec 1 heap) as [Hgt | Hle]; [| reflexivity].
    apply IH. rewrite pow2_S in Hheap.
    rewrite Z.shiftr_div_pow2 by lia. change (2 ^ 1) with 2.
    Z.div_mod_to_equations. lia.
Qed.

(** The heap stays a [uint32_t] throughout the descent. *)
Lemma build_heap_word (cage : cc_Mesh) (trips : nat) :
  forall st : resolver_state,
  0 <= rs_heap st < 2 ^ 32 ->
  0 <= rs_heap (build_heap cage trips st) < 2 ^ 32.
Proof.
  induction trips as [| trips IH]; intros st Hheap; [exact Hheap|].
  cbn [build_heap].
  destruct (1 <? rs_heapDepth st); [| exact Hheap].
  destruct (mul32 2 _ <=? rs_edgeID st); [exact Hheap|].
  apply IH. cbn [rs_heap]. unfold wrapu32. apply Z.mod_pos_bound. reflexivity.
Qed.

Section ResolverProofs.

Variable First : cc_Mesh -> Z -> option Z.

(** The compiled version, started in the middle of a descent with [path]
    already recorded, is the parity recursion followed by the replay of
    [path]. *)
Lemma resolve_from (subd : cc_Subd) (trips : nat) :
  forall (path : list bool) (edgeID h0 : Z),
  (length path + trips <= 31)%nat ->
  (let st := build_heap (cage subd) trips
               (mk_resolver_state (heap_of_path path) edgeID
                  (Z.of_nat trips + 1) h0) in
   root <- (if rs_heapDepth st =? 1 then First (cage subd) (rs_edgeID st)
            else Some (rs_edgeHalfedgeID st)) ;;
   Some (read_heap 32 (rs_heap st) root))
  = (r <- EdgeToHalfedgeID_parity First trips subd edgeID (Z.of_nat trips + 1) ;;
     Some (replay_path path r)).
Proof.
  induction trips as [| trips IH]; intros path edgeID h0 Hlen; cbn zeta.
  - cbn [build_heap EdgeToHalfedgeID_parity rs_heap rs_edgeID rs_heapDepth].
    change (Z.of_nat 0 + 1) with 1. cbn [Z.eqb Z.ltb Z.compare Pos.eqb Pos.compare].
    destruct (First (cage subd) edgeID) as [root |]; [| reflexivity].
    cbn [obind]. rewrite read_heap_replays by lia. reflexivity.
  - cbn [build_heap EdgeToHalfedgeID_parity rs_heap rs_edgeID rs_heapDepth
         rs_edgeHalfedgeID].
    replace (1 <? Z.of_nat (S trips) + 1) with true
      by (symmetry; apply Z.ltb_lt; lia).
    rewrite heapDepth_pred by lia.
    destruct (mul32 2 (ccm_EdgeCountAtDepth_Fast (cage subd) (Z.of_nat trips + 1))
              <=? edgeID).
    + cbn [rs_heap rs_edgeID rs_heapDepth rs_edgeHalfedgeID].
      replace (Z.of_nat (S trips) + 1 =? 1) with false
        by (symmetry; apply Z.eqb_neq; lia).
      cbn [obind]. rewrite read_heap_replays by lia. reflexivity.
    + rewrite heap_push_fits by lia.
      specialize (IH ((Z.land edgeID 1 =? 1) :: path) (Z.shiftr edgeID 1) h0).
      cbn zeta in IH. rewrite IH by (cbn [length]; lia).
      destruct (EdgeToHalfedgeID_parity First trips subd (Z.shiftr edgeID 1)
                  (Z.of_nat trips + 1)) as [r |]; reflexivity.
Qed.

(** For depths 1 .. 32 and any edge id the compiled version is the parity
    recursion. *)
Lemma ccs_EdgeToHalfedgeID_parity_upto_32 (subd : cc_Subd) (edgeID depth : Z) :
  1 <= depth <= 32 ->
  ccs_EdgeToHalfedgeID First subd edgeID depth =
  ccs_EdgeToHalfedgeID_parity First subd edgeID depth.
Proof.
  intros Hd. unfold ccs_EdgeToHalfedgeID, ccs_EdgeToHalfedgeID_parity.
  pose proof (resolve_from subd (Z.to_nat (depth - 1)) [] edgeID 0) as H.
  cbn zeta in H. cbn [heap_of_path length] in H.
  replace (Z.of_nat (Z.to_nat (depth - 1)) + 1) with depth in H by lia.
  rewrite H by lia.
  destruct (EdgeToHalfedgeID_parity First (Z.to_nat (depth - 1)) subd edgeID depth);
    reflexivity.
Qed.

(** Beyond depth 32 no edge id is in range: the edge count, shifted by
    [depth - 1 >= 32], is 0. *)
Lemma ccm_EdgeCountAtDepth_beyond_32 (mesh : cc_Mesh) (depth : Z) :
  32 < depth <= int32_max -> ccm_EdgeCountAtDepth mesh depth = 0.
Proof.
  intros Hd. unfold ccm_EdgeCountAtDepth.
  replace (depth =? 0) with false by (symmetry; apply Z.eqb_neq; lia).
  unfold ccm_EdgeCountAtDepth_Fast.
  rewrite sub32_exact by (unfold is_int32, int32_min, int32_max in *; lia).
  unfold shl32 at 1.
  replace (valid_shift (depth - 1)) with false
    by (symmetry; apply valid_shift_false; lia).
  reflexivity.
Qed.

(** One step of the parity recursion above depth 1. *)
Lemma ccs_EdgeToHalfedgeID_parity_step (subd : cc_Subd) (edgeID depth : Z) :
  1 < depth <= int32_max ->
  let edgeCount := ccm_EdgeCountAtDepth_Fast (cage subd) (depth - 1) in
  ccs_EdgeToHalfedgeID_parity First subd edgeID depth =
  if mul32 2 edgeCount <=? edgeID then
    Some (spoke_halfedge (sub32 edgeID (mul32 2 edgeCount)))
  else
    r <- ccs_EdgeToHalfedgeID_parity First subd (Z.shiftr edgeID 1) (depth - 1) ;;
    Some (replay_step (Z.land edgeID 1 =? 1) r).
Proof.
  intros Hd. unfold ccs_EdgeToHalfedgeID_parity.
  replace (Z.to_nat (depth - 1)) with (S (Z.to_nat (depth - 1 - 1))) by lia.
  cbn [EdgeToHalfedgeID_parity].
  replace (1 <? depth) with true by (symmetry; apply Z.ltb_lt; lia).
  rewrite sub32_exact by (unfold is_int32, int32_min, int32_max in *; lia).
  reflexivity.
Qed.

Lemma ccs_EdgeToHalfedgeID_parity_1 (subd : cc_Subd) (edgeID : Z) :
  ccs_EdgeToHalfedgeID_parity First subd edgeID 1 = First (cage subd) edgeID.
Proof. reflexivity. Qed.

(** The two bounded unrollings in [ccs_EdgeToHalfedgeID] are the loops
    themselves: unrolling either one further gives the same result. *)
Lemma ccs_EdgeToHalfedgeID_loops_complete (subd : cc_Subd) (edgeID depth : Z)
    (extra1 extra2 : nat) :
  depth <= int32_max ->
  (let st := build_heap (cage subd) (Z.to_nat (depth - 1) + extra1)
               (mk_resolver_state 1 edgeID depth 0) in
   root <- (if rs_heapDepth st =? 1 then First (cage subd) (rs_edgeID st)
            else Some (rs_edgeHalfedgeID st)) ;;
   Some (read_heap (32 + extra2) (rs_heap st) root))
  = ccs_EdgeToHalfedgeID First subd edgeID depth.
Proof.
  intros Hmax. cbn zeta. unfold ccs_EdgeToHalfedgeID.
  rewrite build_heap_trips_enough by (cbn [rs_heapDepth]; lia).
  set (st := build_heap (cage subd) (Z.to_nat (depth - 1))
               (mk_resolver_state 1 edgeID depth 0)).
  assert (Hword : 0 <= rs_heap st < 2 ^ 32).
  { apply build_heap_word. cbn [rs_heap]. split; [discriminate | reflexivity]. }
  apply obind_ext. intros root.
  rewrite read_heap_trips_enough; [reflexivity | exact Hword].
Qed.

End ResolverProofs.

(** C5, as amended.  For every subd, every depth [>= 1] and every edge id in
    range, the compiled, heap-based [ccs_EdgeToHalfedgeID] equals the
    recursive descend/replay definition in which the radial case is decided
    by the low bit of [edgeID]: at depth 1 it returns
    [ccs__EdgeToHalfedgeID_First (cage, edgeID)]; above depth 1, with [E]
    the edge count of the parent level, an edge id at or above [2E] gives
    [max (4h + 1, 4 next (h) + 2)] for [h = edgeID - 2E], and below [2E] an
    odd edge id gives [4 next (r) + 3] and an even one [4 r], where [r] is
    the result for [(edgeID >> 1, depth - 1)]. *)
Theorem ccs_EdgeToHalfedgeID_parity_recursion
    (First : cc_Mesh -> Z -> option Z) (subd : cc_Subd) (edgeID depth : Z) :
  1 <= depth <= int32_max ->
  0 <= edgeID < ccm_EdgeCountAtDepth (cage subd) depth ->
  let edgeCount := ccm_EdgeCountAtDepth_Fast (cage subd) (depth - 1) in
  ccs_EdgeToHalfedgeID First subd edgeID depth =
    ccs_EdgeToHalfedgeID_parity First subd edgeID depth /\
  (depth = 1 ->
   ccs_EdgeToHalfedgeID First subd edgeID depth = First (cage subd) edgeID) /\
  (1 < depth -> mul32 2 edgeCount <= edgeID ->
   ccs_EdgeToHalfedgeID First subd edgeID depth =
     Some (spoke_halfedge (sub32 edgeID (mul32 2 edgeCount)))) /\
  (1 < depth -> edgeID < mul32 2 edgeCount ->
   ccs_EdgeToHalfedgeID First subd edgeID depth =
     (r <- ccs_EdgeToHalfedgeID First subd (Z.shiftr edgeID 1) (depth - 1) ;;
      Some (replay_step (Z.land edgeID 1 =? 1) r))).
Proof.
  intros Hd Hrange edgeCount.
  assert (H32 : depth <= 32).
  { destruct (Z_le_gt_dec depth 32) as [Hle | Hgt]; [exact Hle|].
    rewrite ccm_EdgeCountAtDepth_beyond_32 in Hrange by lia. lia. }
  assert (Heq : ccs_EdgeToHalfedgeID First subd edgeID depth =
                ccs_EdgeToHalfedgeID_parity First subd edgeID depth)
    by (apply ccs_EdgeToHalfedgeID_parity_upto_32; lia).
  split; [exact Heq|]. rewrite Heq.
  split; [| split].
  - intros ->. apply ccs_EdgeToHalfedgeID_parity_1.
  - intros Hdeep Hspoke.
    rewrite ccs_EdgeToHalfedgeID_parity_step by lia. cbn zeta. fold edgeCount.
    apply Z.leb_le in Hspoke. now rewrite Hspoke.
  - intros Hdeep Hradial.
    rewrite ccs_EdgeToHalfedgeID_parity_step by lia. cbn zeta. fold edgeCount.
    apply Z.leb_gt in Hradial. rewrite Hradial.
    rewrite (ccs_EdgeToHalfedgeID_parity_upto_32 First subd (Z.shiftr edgeID 1)
               (depth - 1)) by lia.
    reflexivity.
Qed.

(** C5 on the quad: edge 1 of the 40 edges of depth 2 resolves to
    halfedge 7. *)
Lemma ccs_EdgeToHalfedgeID_parity_recursion_quad :
  1 <= 2 <= int32_max /\
  0 <= 1 < ccm_EdgeCountAtDepth (cage quad_subd2) 2 /\
  ccs_EdgeToHalfedgeID ccs__EdgeToHalfedgeID_First quad_subd2 1 2 =
    ccs_EdgeToHalfedgeID_parity ccs__EdgeToHalfedgeID_First quad_subd2 1 2.
Proof.
  assert (Hd : 1 <= 2 <= int32_max) by int32_by_computation.
  assert (Hrange : 0 <= 1 < ccm_EdgeCountAtDepth (cage quad_subd2) 2)
    by (split; [discriminate | reflexivity]).
  split; [exact Hd|]. split; [exact Hrange|].
  exact (proj1 (ccs_EdgeToHalfedgeID_parity_recursion
                  ccs__EdgeToHalfedgeID_First quad_subd2 1 2 Hd Hrange)).
Defined.

(** C5 as stated fails.  Edge 1 of the quad at depth 2 lies in the first
    radial band, [0, 12), and is odd: the compiled version records bit 1
    and returns [4 * next (0) + 3 = 7], while the recursion by bands, the
    one kept under [#if 0], returns [4 * 0 = 0]. *)
Lemma ccs_EdgeToHalfedgeID_band_mismatch :
  ccm_EdgeCountAtDepth_Fast (cage quad_subd2) 1 = 12 /\
  ccm_EdgeCountAtDepth (cage quad_subd2) 2 = 40 /\
  ccs_EdgeToHalfedgeID ccs__EdgeToHalfedgeID_First quad_subd2 1 2 = Some 7 /\
  ccs_EdgeToHalfedgeID_recursive ccs__EdgeToHalfedgeID_First quad_subd2 1 2 =
    Some 0 /\
  ccs_EdgeToHalfedgeID ccs__EdgeToHalfedgeID_First quad_subd2 1 2 <>
    ccs_EdgeToHalfedgeID_recursive ccs__EdgeToHalfedgeID_First quad_subd2 1 2.
Proof.
  split; [reflexivity|]. split; [reflexivity|].
  split; [reflexivity|]. split; [reflexivity|].
  vm_compute. discriminate.
Qed.

(** ** The width of the heap word *)

Lemma path_word_suffices_upto_32 (mesh : cc_Mesh) (edgeID depth : Z) :
  1 <= depth <= 32 -> path_word_suffices mesh edgeID depth.
Proof.
  intros Hd. unfold path_word_suffices. cbn zeta.
  pose proof (build_heap_descent mesh (Z.to_nat (depth - 1)) [] edgeID 0) as H.
  cbn zeta in H. cbn [heap_of_path length] in H.
  replace (Z.of_nat (Z.to_nat (depth - 1)) + 1) with depth in H by lia.
  destruct H as [Hheap Hlen]; [lia|]. cbn [Nat.add] in Hlen.
  split; [exact Hlen|]. split; [exact Hheap|]. rewrite Hheap.
  split.
  - apply heap_of_path_lt. lia.
  - intros root. apply read_heap_replays. lia.
Qed.

(** C8, as amended.  For every depth in [1, 32] and every edge id, in range
    or not, the 32-bit path word suffices: the descent loop records at most
    [depth - 1] bits above the sentinel, no bit is shifted out of the word,
    and the replay applies exactly the recorded transforms.  Depth 31 is
    thus not the largest depth with this guarantee, which depth 32 has as
    well: 31 recorded bits and the sentinel fill the word, which cannot
    hold 32 recorded bits above the sentinel.  From these depths the loop
    asks [ccm_EdgeCountAtDepth_Fast] for the levels [heapDepth - 1] of 1 to
    31 only, whose shift amounts, [heapDepth - 1] and [heapDepth - 2], are
    below 32. *)
Theorem resolver_path_word_bound :
  (forall (mesh : cc_Mesh) (edgeID depth : Z),
     1 <= depth <= 32 -> path_word_suffices mesh edgeID depth) /\
  (forall path : list bool,
     (length path <= 31)%nat -> wrapu32 (heap_of_path path) = heap_of_path path) /\
  (forall path : list bool,
     (32 <= length path)%nat -> wrapu32 (heap_of_path path) <> heap_of_path path) /\
  (forall heapDepth : Z,
     1 < heapDepth <= 32 ->
     valid_shift (sub32 heapDepth 1) = true /\
     valid_shift (sub32 (sub32 heapDepth 1) 1) = true).
Proof.
  split; [exact path_word_suffices_upto_32|].
  split; [| split; [exact heap_of_path_overflow|]].
  - intros path Hlen. unfold wrapu32. apply Z.mod_small.
    split; [pose proof (heap_of_path_pos path); lia|].
    apply heap_of_path_lt. lia.
  - intros heapDepth Hh.
    assert (H1 : sub32 heapDepth 1 = heapDepth - 1)
      by (apply sub32_exact; unfold is_int32, int32_min, int32_max; lia).
    assert (H2 : sub32 (heapDepth - 1) 1 = heapDepth - 1 - 1)
      by (apply sub32_exact; unfold is_int32, int32_min, int32_max; lia).
    rewrite H1, H2. split; apply valid_shift_true; lia.
Qed.

(** C8 on the quad: the descent of edge 1 from depth 2 records one bit. *)
Lemma resolver_path_word_bound_quad :
  1 <= 2 <= 32 /\ path_word_suffices quad_cage 1 2.
Proof.
  assert (Hd : 1 <= 2 <= 32) by (split; discriminate).
  split; [exact Hd|].
  exact (proj1 resolver_path_word_bound quad_cage 1 2 Hd).
Defined.

(** C8 as stated fails in its last part: depth 31 is not the largest depth
    with the guarantee, which depth 32 has as well. *)
Lemma resolver_path_word_depth_32 :
  ~ (forall depth : Z,
       (forall (mesh : cc_Mesh) (edgeID : Z),
          path_word_suffices mesh edgeID depth) ->
       depth <= 31).
Proof.
  intros H. specialize (H 32).
  assert (Habs : 32 <= 31); [| lia].
  apply H. intros mesh edgeID.
  apply path_word_suffices_upto_32. lia.
Qed.

(** * Further properties *)

(** ** Levels inside the cumulative arrays *)

Lemma total_counts_mono (cage : cc_Mesh) (proj : level_counts -> Z) (n m : nat) :
  (forall j, (1 <= j)%nat -> 0 <= proj (counts_at cage j)) ->
  (n <= m)%nat ->
  total_counts proj cage n <= total_counts proj cage m.
Proof.
  intros Hpos Hnm. induction m as [| m IH].
  - replace n with 0%nat by lia. lia.
  - destruct (Nat.eq_dec n (S m)) as [-> | Hne]; [lia|].
    rewrite total_counts_S. specialize (Hpos (S m) ltac:(lia)).
    specialize (IH ltac:(lia)). lia.
Qed.

Section FittingHierarchy.

Variable cage : cc_Mesh.
Variable D : Z.
Hypothesis counts_ok : mesh_counts_int32 cage.
Hypothesis depth_ok : 0 <= D <= int32_max.
Hypothesis fits : hierarchy_fits cage D.

Lemma fitting_levels_nonneg (j : nat) :
  0 <= lc_V (counts_at cage j) /\ 0 <= lc_E (counts_at cage j) /\
  0 <= lc_H (counts_at cage j) /\ 0 <= lc_F (counts_at cage j) /\
  0 <= lc_C (counts_at cage j).
Proof.
  destruct fits as (HV & HE & HH & HF & _).
  exact (counts_at_nonneg cage j HV HE HH HF).
Qed.

(** A hierarchy that fits does so at every smaller depth. *)
Lemma hierarchy_fits_le (d : Z) : 0 <= d <= D -> hierarchy_fits cage d.
Proof.
  intros Hd. pose proof fitting_levels_nonneg as Hpos.
  destruct fits as (HV & HE & HH & HF & FitH & FitE & FitV).
  assert (Hn : (Z.to_nat d <= Z.to_nat D)%nat) by lia.
  assert (MH := total_counts_mono cage lc_H _ _
                  (fun j _ => proj1 (proj2 (proj2 (Hpos j)))) Hn).
  assert (ME := total_counts_mono cage lc_E _ _
                  (fun j _ => proj1 (proj2 (Hpos j))) Hn).
  assert (MV := total_counts_mono cage lc_V _ _
                  (fun j _ => proj1 (Hpos j)) Hn).
  unfold hierarchy_fits.
  split; [exact HV|]. split; [exact HE|]. split; [exact HH|].
  split; [exact HF|]. split; [lia|]. split; lia.
Qed.

(** The totals over the levels 1 .. D are within [0, INT32_MAX]. *)
Lemma fitting_totals :
  0 <= total_counts lc_V cage (Z.to_nat D) <= int32_max /\
  0 <= total_counts lc_E cage (Z.to_nat D) <= int32_max /\
  0 <= total_counts lc_H cage (Z.to_nat D) <= int32_max /\
  0 <= total_counts lc_F cage (Z.to_nat D) <= int32_max /\
  0 <= total_counts lc_C cage (Z.to_nat D) <= int32_max.
Proof.
  destruct fits as (HV & HE & HH & HF & FitH & FitE & FitV).
  pose proof (total_V_nonneg cage D HV HE HH HF) as PV.
  pose proof (total_E_nonneg cage D HE HH) as PE.
  pose proof (total_H_nonneg cage D HH) as PH.
  pose proof (total_H_total_F cage D) as HF4.
  pose proof (total_C_le_total_E cage D depth_ok HE HH) as PC.
  lia.
Qed.

(** At the depths 0 .. D the per-level formulas return the counts the
    subdivision rules give, none of them wrapped. *)
Lemma fitting_level_exact (d : Z) :
  0 <= d <= D ->
  let c := counts_at cage (Z.to_nat d) in
  ccm_VertexCountAtDepth cage d = lc_V c /\
  ccm_EdgeCountAtDepth cage d = lc_E c /\
  ccm_HalfedgeCountAtDepth cage d = lc_H c /\
  ccm_FaceCountAtDepth cage d = lc_F c /\
  ccm_CreaseCountAtDepth cage d = lc_C c.
Proof.
  intros Hd c.
  assert (Hd' : 0 <= d <= int32_max) by lia.
  rewrite ccm_VertexCountAtDepth_wrap, ccm_EdgeCountAtDepth_wrap,
    ccm_HalfedgeCountAtDepth_wrap, ccm_FaceCountAtDepth_wrap,
    ccm_CreaseCountAtDepth_wrap by assumption.
  fold c.
  assert (Hc : is_int32 (lc_V c) /\ is_int32 (lc_E c) /\ is_int32 (lc_H c) /\
               is_int32 (lc_F c) /\ is_int32 (lc_C c)).
  { destruct (Z.eq_dec d 0) as [-> | Hne].
    - destruct counts_ok as (IV & _ & IH & IE & IF).
      subst c. cbn [Z.to_nat counts_at cage_counts lc_V lc_E lc_H lc_F lc_C].
      unfold ccm_VertexCount, ccm_CreaseCount, ccm_EdgeCount, ccm_HalfedgeCount,
        ccm_FaceCount.
      split; [exact IV|]. split; [exact IE|]. split; [exact IH|].
      split; [exact IF | exact IE].
    - pose proof fitting_levels_nonneg as Hpos.
      pose proof fitting_totals as (TV & TE & TH & TF & TC).
      assert (Hk : (1 <= Z.to_nat d <= Z.to_nat D)%nat) by lia.
      pose proof (level_le_total cage lc_V _ _
                    (fun j _ => proj1 (Hpos j)) Hk) as LV.
      pose proof (level_le_total cage lc_E _ _
                    (fun j _ => proj1 (proj2 (Hpos j))) Hk) as LE.
      pose proof (level_le_total cage lc_H _ _
                    (fun j _ => proj1 (proj2 (proj2 (Hpos j)))) Hk) as LH.
      pose proof (level_le_total cage lc_F _ _
                    (fun j _ => proj1 (proj2 (proj2 (proj2 (Hpos j))))) Hk) as LF.
      pose proof (level_le_total cage lc_C _ _
                    (fun j _ => proj2 (proj2 (proj2 (proj2 (Hpos j))))) Hk) as LC.
      fold c in LV, LE, LH, LF, LC.
      unfold is_int32, int32_min, int32_max in *. lia. }
  destruct Hc as (IV & IE & IH & IF & IC).
  rewrite !wrap32_small by assumption. tauto.
Qed.

(** At the depth D the cumulative formulas return the totals of the
    subdivision rules over the levels 1 .. D. *)
Lemma fitting_cumulative_exact :
  ccs_CumulativeVertexCountAtDepth cage D = total_counts lc_V cage (Z.to_nat D) /\
  ccs_CumulativeEdgeCountAtDepth cage D = total_counts lc_E cage (Z.to_nat D) /\
  ccs_CumulativeHalfedgeCountAtDepth cage D = total_counts lc_H cage (Z.to_nat D) /\
  ccs_CumulativeFaceCountAtDepth cage D = total_counts lc_F cage (Z.to_nat D) /\
  ccs_CumulativeCreaseCountAtDepth cage D = total_counts lc_C cage (Z.to_nat D).
Proof.
  pose proof fits as (HV & HE & HH & HF & FitH & FitE & FitV).
  assert (HHfit : halfedge_total_fits cage D) by (split; assumption).
  split; [now apply ccs_CumulativeVertexCountAtDepth_total|].
  split; [now apply ccs_CumulativeEdgeCountAtDepth_total|].
  split; [now apply ccs_CumulativeHalfedgeCountAtDepth_total|].
  split; [now apply ccs_CumulativeFaceCountAtDepth_total|].
  now apply ccs_CumulativeCreaseCountAtDepth_total.
Qed.

(** The total over the levels 1 .. d is the total over 1 .. d - 1 plus
    level d. *)
Lemma total_counts_pred (proj : level_counts -> Z) (d : Z) :
  1 <= d ->
  total_counts proj cage (Z.to_nat d) =
  total_counts proj cage (Z.to_nat (d - 1)) + proj (counts_at cage (Z.to_nat d)).
Proof.
  intros Hd. replace (Z.to_nat d) with (S (Z.to_nat (d - 1))) by lia.
  apply total_counts_S.
Qed.

(** Cell [i] of the level-[d] block lies within the block, and the block
    within the totals of the levels 1 .. D. *)
Lemma block_address (proj : level_counts -> Z) (d i : Z) :
  (forall j, (1 <= j)%nat -> 0 <= proj (counts_at cage j)) ->
  1 <= d <= D ->
  0 <= i < proj (counts_at cage (Z.to_nat d)) ->
  0 <= total_counts proj cage (Z.to_nat (d - 1)) /\
  total_counts proj cage (Z.to_nat (d - 1)) + i <
    total_counts proj cage (Z.to_nat d) /\
  total_counts proj cage (Z.to_nat d) <= total_counts proj cage (Z.to_nat D).
Proof.
  intros Hpos Hd Hi.
  pose proof (total_counts_nonneg cage proj (Z.to_nat (d - 1)) Hpos).
  pose proof (total_counts_pred proj d ltac:(lia)).
  pose proof (total_counts_mono cage proj (Z.to_nat d) (Z.to_nat D) Hpos
                ltac:(lia)).
  lia.
Qed.

(** Two cells of level blocks that lie at the same place are the same cell
    of the same level. *)
Lemma block_address_injective (proj : level_counts -> Z) (d1 d2 i1 i2 : Z) :
  (forall j, (1 <= j)%nat -> 0 <= proj (counts_at cage j)) ->
  1 <= d1 -> 1 <= d2 ->
  0 <= i1 < proj (counts_at cage (Z.to_nat d1)) ->
  0 <= i2 < proj (counts_at cage (Z.to_nat d2)) ->
  total_counts proj cage (Z.to_nat (d1 - 1)) + i1 =
  total_counts proj cage (Z.to_nat (d2 - 1)) + i2 ->
  d1 = d2 /\ i1 = i2.
Proof.
  intros Hpos H1 H2 Hi1 Hi2 Heq.
  pose proof (total_counts_pred proj d1 H1) as P1.
  pose proof (total_counts_pred proj d2 H2) as P2.
  destruct (Z.lt_trichotomy d1 d2) as [Hlt | [-> | Hgt]].
  - pose proof (total_counts_mono cage proj (Z.to_nat d1) (Z.to_nat (d2 - 1))
                  Hpos ltac:(lia)). lia.
  - split; [reflexivity | lia].
  - pose proof (total_counts_mono cage proj (Z.to_nat d2) (Z.to_nat (d1 - 1))
                  Hpos ltac:(lia)). lia.
Qed.

(** The strides of the levels 1 .. D: the cumulative counts at the depth
    below, none of them wrapped. *)
Lemma fitting_stride_exact (d : Z) :
  1 <= d <= D ->
  ccs_CumulativeVertexCountAtDepth cage (sub32 d 1) =
    total_counts lc_V cage (Z.to_nat (d - 1)) /\
  ccs_CumulativeHalfedgeCountAtDepth cage (sub32 d 1) =
    total_counts lc_H cage (Z.to_nat (d - 1)) /\
  ccs_CumulativeCreaseCountAtDepth cage (sub32 d 1) =
    total_counts lc_C cage (Z.to_nat (d - 1)).
Proof.
  intros Hd.
  rewrite sub32_exact by (unfold is_int32, int32_min, int32_max in *; lia).
  assert (Hd' : 0 <= d - 1 <= D) by lia.
  pose proof (hierarchy_fits_le (d - 1) Hd') as Hfit.
  assert (Hmax : 0 <= d - 1 <= int32_max) by lia.
  pose proof fits as (HV & HE & HH & HF & _).
  destruct Hfit as (_ & _ & _ & _ & FitH & FitE & FitV).
  split; [| split].
  - apply ccs_CumulativeVertexCountAtDepth_total; [exact Hmax|].
    unfold hierarchy_fits. tauto.
  - apply ccs_CumulativeHalfedgeCountAtDepth_total; [exact Hmax|].
    split; assumption.
  - now apply ccs_CumulativeCreaseCountAtDepth_total.
Qed.

End FittingHierarchy.

(** Addresses formed as [stride + id] with a stride function [cum] and a
    level size [count] that agree with the totals and the levels of one
    count of the subdivision rules. *)
Lemma level_address_generic (cage : cc_Mesh) (proj : level_counts -> Z)
    (cum count : Z -> Z) (D d1 d2 i1 i2 : Z) :
  (forall j, (1 <= j)%nat -> 0 <= proj (counts_at cage j)) ->
  total_counts proj cage (Z.to_nat D) <= int32_max ->
  cum D = total_counts proj cage (Z.to_nat D) ->
  (forall d, 1 <= d <= D ->
     cum (sub32 d 1) = total_counts proj cage (Z.to_nat (d - 1)) /\
     count d = proj (counts_at cage (Z.to_nat d))) ->
  1 <= d1 <= D -> 1 <= d2 <= D ->
  0 <= i1 < count d1 -> 0 <= i2 < count d2 ->
  let a1 := add32 (cum (sub32 d1 1)) i1 in
  let a2 := add32 (cum (sub32 d2 1)) i2 in
  0 <= a1 < cum D /\ (a1 = a2 -> d1 = d2 /\ i1 = i2).
Proof.
  intros Hpos Hfit HD Hcum Hd1 Hd2 Hi1 Hi2.
  destruct (Hcum d1 Hd1) as [S1 C1]. destruct (Hcum d2 Hd2) as [S2 C2].
  rewrite C1 in Hi1. rewrite C2 in Hi2.
  pose proof (block_address cage D proj d1 i1 Hpos Hd1 Hi1) as (A1 & B1 & T1).
  pose proof (block_address cage D proj d2 i2 Hpos Hd2 Hi2) as (A2 & B2 & T2).
  cbn zeta. rewrite S1, S2, HD.
  unfold add32.
  rewrite !wrap32_small
    by (unfold is_int32, int32_min, int32_max in *; lia).
  split; [lia|]. intros Heq.
  apply (block_address_injective cage proj d1 d2 i1 i2 Hpos); try lia.
Qed.

(** X1.  The per-level blocks of the vertex, halfedge and crease arrays do not
    overlap.  Within a hierarchy of depth [D] that fits, the address
    [stride + id] of an element of a level 1 .. [D], with the stride the
    accessors use, lies inside the array of the cumulative size at [D], and
    two addresses are equal only for the same element of the same level. *)
Theorem ccs_level_addresses_injective (cage : cc_Mesh) (D d1 d2 i1 i2 : Z) :
  mesh_counts_int32 cage ->
  0 <= D <= int32_max ->
  hierarchy_fits cage D ->
  1 <= d1 <= D -> 1 <= d2 <= D ->
  (0 <= i1 < ccm_VertexCountAtDepth cage d1 ->
   0 <= i2 < ccm_VertexCountAtDepth cage d2 ->
   let a1 := add32 (ccs_CumulativeVertexCountAtDepth cage (sub32 d1 1)) i1 in
   let a2 := add32 (ccs_CumulativeVertexCountAtDepth cage (sub32 d2 1)) i2 in
   0 <= a1 < ccs_CumulativeVertexCountAtDepth cage D /\
   (a1 = a2 -> d1 = d2 /\ i1 = i2)) /\
  (0 <= i1 < ccm_HalfedgeCountAtDepth cage d1 ->
   0 <= i2 < ccm_HalfedgeCountAtDepth cage d2 ->
   let a1 := add32 (ccs_CumulativeHalfedgeCountAtDepth cage (sub32 d1 1)) i1 in
   let a2 := add32 (ccs_CumulativeHalfedgeCountAtDepth cage (sub32 d2 1)) i2 in
   0 <= a1 < ccs_CumulativeHalfedgeCountAtDepth cage D /\
   (a1 = a2 -> d1 = d2 /\ i1 = i2)) /\
  (0 <= i1 < ccm_CreaseCountAtDepth cage d1 ->
   0 <= i2 < ccm_CreaseCountAtDepth cage d2 ->
   let a1 := add32 (ccs_CumulativeCreaseCountAtDepth cage (sub32 d1 1)) i1 in
   let a2 := add32 (ccs_CumulativeCreaseCountAtDepth cage (sub32 d2 1)) i2 in
   0 <= a1 < ccs_CumulativeCreaseCountAtDepth cage D /\
   (a1 = a2 -> d1 = d2 /\ i1 = i2)).
Proof.
  intros Hmesh HD Hfit Hd1 Hd2.
  pose proof (fitting_levels_nonneg cage D Hfit) as Hpos.
  pose proof (fitting_totals cage D HD Hfit) as (TV & _ & TH & _ & TC).
  pose proof (fitting_cumulative_exact cage D HD Hfit) as (CV & _ & CH & _ & CC).
  assert (Hstride := fitting_stride_exact cage D HD Hfit).
  assert (Hlevel := fitting_level_exact cage D Hmesh HD Hfit).
  split; [| split]; intros Hi1 Hi2.
  - apply (level_address_generic cage lc_V
             (ccs_CumulativeVertexCountAtDepth cage)
             (ccm_VertexCountAtDepth cage) D); try assumption; try lia.
    + intros j _. apply Hpos.
    + intros d Hd. split; [apply (Hstride d Hd)|].
      apply (Hlevel d). lia.
  - apply (level_address_generic cage lc_H
             (ccs_CumulativeHalfedgeCountAtDepth cage)
             (ccm_HalfedgeCountAtDepth cage) D); try assumption; try lia.
    + intros j _. apply Hpos.
    + intros d Hd. split; [apply (Hstride d Hd)|].
      apply (Hlevel d). lia.
  - apply (level_address_generic cage lc_C
             (ccs_CumulativeCreaseCountAtDepth cage)
             (ccm_CreaseCountAtDepth cage) D); try assumption; try lia.
    + intros j _. apply Hpos.
    + intros d Hd. split; [apply (Hstride d Hd)|].
      apply (Hlevel d). lia.
Qed.

(** ** Reading a freshly created hierarchy *)

(** A fresh block of [count] elements: the cells 0 .. [count - 1] exist and
    hold what the block was left with, no other cell exists. *)
Lemma array_get_malloc {A : Type} (junk : A) (count elemSize i : Z) :
  0 <= count <= int32_max -> 0 < elemSize < 2 ^ 32 ->
  array_get (malloc junk elemSize (byte_count count elemSize)) i =
  if (0 <=? i) && (i <? count) then Some junk else None.
Proof.
  intros Hc Hs.
  assert (Hblock : malloc junk elemSize (byte_count count elemSize) =
                   repeat junk (Z.to_nat count)).
  { pose proof (malloc_length junk count elemSize Hc Hs) as Hlen.
    unfold malloc in *. rewrite repeat_length in Hlen. now rewrite Hlen. }
  rewrite Hblock. unfold array_get.
  destruct (Z.ltb_spec i 0) as [Hneg | Hnonneg].
  - replace (0 <=? i) with false by (symmetry; apply Z.leb_gt; lia).
    reflexivity.
  - replace (0 <=? i) with true by (symmetry; apply Z.leb_le; lia).
    cbn [andb]. destruct (Z.ltb_spec i count) as [Hin | Hout].
    + apply nth_error_repeat. lia.
    + apply nth_error_None. rewrite repeat_length. lia.
Qed.

(** X2.  Every vertex of every level of a freshly created hierarchy can be
    read.  In a hierarchy created with [ccs_Create] at a depth that fits,
    [ccs_VertexPoint] finds a cell of the allocated block for every vertex
    id of every level 1 .. [maxDepth], and the block has no cell to spare:
    the id one past the last vertex of the last level is outside of it. *)
Theorem ccs_VertexPoint_in_bounds
    (sizeof_Halfedge_SemiRegular sizeof_Crease sizeof_VertexPoint : Z)
    (junk_halfedge : cc_Halfedge_SemiRegular) (junk_crease : cc_Crease)
    (junk_point : cc_VertexPoint) (mesh : cc_Mesh)
    (maxDepth depth vertexID : Z) :
  0 < sizeof_VertexPoint < 2 ^ 32 ->
  mesh_counts_int32 mesh ->
  0 <= maxDepth <= int32_max ->
  hierarchy_fits mesh maxDepth ->
  1 <= depth <= maxDepth ->
  let subd := ccs_Create sizeof_Halfedge_SemiRegular sizeof_Crease
                sizeof_VertexPoint junk_halfedge junk_crease junk_point
                mesh maxDepth in
  (0 <= vertexID < ccm_VertexCountAtDepth mesh depth ->
   ccs_VertexPoint subd vertexID depth = Some junk_point) /\
  ccs_VertexPoint subd (ccm_VertexCountAtDepth mesh maxDepth) maxDepth = None.
Proof.
  intros HsV Hmesh HD Hfit Hd subd.
  pose proof (fitting_levels_nonneg mesh maxDepth Hfit) as Hpos.
  pose proof (fitting_totals mesh maxDepth HD Hfit) as (TV & _).
  pose proof (fitting_cumulative_exact mesh maxDepth HD Hfit) as (CV & _).
  assert (Hstride := fitting_stride_exact mesh maxDepth HD Hfit).
  assert (Hlevel := fitting_level_exact mesh maxDepth Hmesh HD Hfit).
  assert (HposV : forall j, (1 <= j)%nat -> 0 <= lc_V (counts_at mesh j))
    by (intros j _; apply Hpos).
  unfold ccs_VertexPoint, subd, ccs_Create. cbn [cage s_vertexPoints].
  split.
  - intros Hv.
    destruct (Hstride depth Hd) as (SV & _).
    destruct (Hlevel depth ltac:(lia)) as (LV & _).
    rewrite LV in Hv.
    pose proof (block_address mesh maxDepth lc_V depth vertexID HposV Hd Hv)
      as (A & B & T).
    rewrite SV, array_get_malloc by (rewrite ?CV; lia). rewrite CV.
    unfold add32.
    rewrite wrap32_small by (unfold is_int32, int32_min, int32_max in *; lia).
    replace (0 <=? _) with true by (symmetry; apply Z.leb_le; lia).
    replace (_ <? _) with true by (symmetry; apply Z.ltb_lt; lia).
    reflexivity.
  - assert (HdD : 1 <= maxDepth <= maxDepth) by lia.
    destruct (Hstride maxDepth HdD) as (SV & _).
    destruct (Hlevel maxDepth ltac:(lia)) as (LV & _).
    pose proof (total_counts_pred mesh lc_V maxDepth ltac:(lia)) as P.
    pose proof (total_counts_nonneg mesh lc_V (Z.to_nat (maxDepth - 1)) HposV).
    rewrite SV, LV, array_get_malloc by (rewrite ?CV; lia). rewrite CV.
    unfold add32. rewrite <- P.
    rewrite wrap32_small by (unfold is_int32, int32_min, int32_max in *; lia).
    replace (_ <? _) with false by (symmetry; apply Z.ltb_ge; lia).
    now rewrite andb_false_r.
Qed.

(** X2 on the cube at depth 2: vertex 97, the last
    one of level 2, is read; vertex 98 is not. *)
Lemma ccs_VertexPoint_in_bounds_cube :
  ccm_VertexCountAtDepth cube_cage 2 = 98 /\
  ccs_VertexPoint (ccs_Create0 cube_cage 2) 97 2 = Some zero_point /\
  ccs_VertexPoint (ccs_Create0 cube_cage 2) 98 2 = None.
Proof.
  assert (Hs : 0 < 12 < 2 ^ 32) by int32_by_computation.
  assert (Hmesh : mesh_counts_int32 cube_cage) by int32_by_computation.
  assert (HD : 0 <= 2 <= int32_max) by int32_by_computation.
  assert (Hfit : hierarchy_fits cube_cage 2) by int32_by_computation.
  assert (Hd : 1 <= 2 <= 2) by int32_by_computation.
  assert (Hv : 0 <= 97 < ccm_VertexCountAtDepth cube_cage 2)
    by int32_by_computation.
  destruct (ccs_VertexPoint_in_bounds 16 12 12 zero_sr_halfedge zero_crease
              zero_point cube_cage 2 2 97 Hs Hmesh HD Hfit Hd) as [Hin Hout].
  split; [reflexivity|]. split; [exact (Hin Hv) | exact Hout].
Defined.

(** X1 on the cube at depth 2: the first
    vertex of level 2 lies right after the 26 vertices of level 1. *)
Lemma ccs_level_addresses_injective_cube :
  let a1 := add32 (ccs_CumulativeVertexCountAtDepth cube_cage (sub32 1 1)) 25 in
  let a2 := add32 (ccs_CumulativeVertexCountAtDepth cube_cage (sub32 2 1)) 0 in
  a1 = 25 /\ a2 = 26 /\
  0 <= a1 < ccs_CumulativeVertexCountAtDepth cube_cage 2 /\
  (a1 = a2 -> 1 = 2 /\ 25 = 0).
Proof.
  assert (Hmesh : mesh_counts_int32 cube_cage) by int32_by_computation.
  assert (HD : 0 <= 2 <= int32_max) by int32_by_computation.
  assert (Hfit : hierarchy_fits cube_cage 2) by int32_by_computation.
  assert (Hd1 : 1 <= 1 <= 2) by int32_by_computation.
  assert (Hd2 : 1 <= 2 <= 2) by int32_by_computation.
  assert (Hi1 : 0 <= 25 < ccm_VertexCountAtDepth cube_cage 1)
    by int32_by_computation.
  assert (Hi2 : 0 <= 0 < ccm_VertexCountAtDepth cube_cage 2)
    by int32_by_computation.
  destruct (ccs_level_addresses_injective cube_cage 2 1 2 25 0 Hmesh HD Hfit
              Hd1 Hd2) as (HV & _).
  split; [reflexivity|]. split; [reflexivity|]. exact (HV Hi1 Hi2).
Defined.

(** X3.  [ccs_VertexPoint] does not compare the vertex id with the size of
    the level: below the last level, an id past the last vertex of level
    [depth] reads a vertex of level [depth + 1], whatever the hierarchy
    holds. *)
Theorem ccs_VertexPoint_past_level (subd : cc_Subd) (depth j : Z) :
  mesh_counts_int32 (cage subd) ->
  1 <= depth -> depth + 1 <= ccs_MaxDepth subd ->
  ccs_MaxDepth subd <= int32_max ->
  hierarchy_fits (cage subd) (depth + 1) ->
  0 <= j < ccm_VertexCountAtDepth (cage subd) (depth + 1) ->
  ccs_VertexPoint subd (ccm_VertexCountAtDepth (cage subd) depth + j) depth =
  ccs_VertexPoint subd j (depth + 1).
Proof.
  intros Hmesh Hd Hlast Hmax Hfit Hj.
  assert (HD : 0 <= depth + 1 <= int32_max) by lia.
  pose proof (fitting_levels_nonneg (cage subd) (depth + 1) Hfit) as Hpos.
  pose proof (fitting_totals (cage subd) (depth + 1) HD Hfit) as (TV & _).
  assert (Hstride := fitting_stride_exact (cage subd) (depth + 1) HD Hfit).
  assert (Hlevel := fitting_level_exact (cage subd) (depth + 1) Hmesh HD Hfit).
  assert (HposV : forall k, (1 <= k)%nat -> 0 <= lc_V (counts_at (cage subd) k))
    by (intros k _; apply Hpos).
  destruct (Hstride depth ltac:(lia)) as (S1 & _).
  destruct (Hstride (depth + 1) ltac:(lia)) as (S2 & _).
  destruct (Hlevel depth ltac:(lia)) as (L1 & _).
  destruct (Hlevel (depth + 1) ltac:(lia)) as (L2 & _).
  rewrite L2 in Hj.
  pose proof (block_address (cage subd) (depth + 1) lc_V (depth + 1) j HposV
                ltac:(lia) Hj) as (A & B & T).
  pose proof (total_counts_pred (cage subd) lc_V depth ltac:(lia)) as P.
  pose proof (total_counts_nonneg (cage subd) lc_V (Z.to_nat (depth - 1)) HposV).
  replace (depth + 1 - 1) with depth in * by lia.
  unfold ccs_VertexPoint. cbn zeta. rewrite S1, S2, L1. f_equal.
  unfold add32.
  rewrite !wrap32_small by (unfold is_int32, int32_min, int32_max in *; lia).
  lia.
Qed.

(** X3 on the quad subdivided twice: id 9, one
    past the 9 vertices of level 1, reads vertex 0 of level 2. *)
Lemma ccs_VertexPoint_past_level_quad :
  ccm_VertexCountAtDepth (cage quad_subd2) 1 = 9 /\
  ccs_VertexPoint quad_subd2 (9 + 0) 1 = ccs_VertexPoint quad_subd2 0 2.
Proof.
  assert (Hmesh : mesh_counts_int32 (cage quad_subd2)) by int32_by_computation.
  assert (Hd : 1 <= 1) by int32_by_computation.
  assert (Hlast : 1 + 1 <= ccs_MaxDepth quad_subd2) by int32_by_computation.
  assert (Hmax : ccs_MaxDepth quad_subd2 <= int32_max) by int32_by_computation.
  assert (Hfit : hierarchy_fits (cage quad_subd2) (1 + 1))
    by int32_by_computation.
  assert (Hj : 0 <= 0 < ccm_VertexCountAtDepth (cage quad_subd2) (1 + 1))
    by int32_by_computation.
  split; [reflexivity|].
  exact (ccs_VertexPoint_past_level quad_subd2 1 0 Hmesh Hd Hlast Hmax Hfit Hj).
Defined.

(** X4.  A hierarchy of depth 0 stores nothing: for every cage the five
    cumulative counts are 0 at depth 0, [ccs_Create] allocates three empty
    blocks, whatever the structure sizes, and no vertex can be read. *)
Theorem ccs_Create_depth_0
    (sizeof_Halfedge_SemiRegular sizeof_Crease sizeof_VertexPoint : Z)
    (junk_halfedge : cc_Halfedge_SemiRegular) (junk_crease : cc_Crease)
    (junk_point : cc_VertexPoint) (mesh : cc_Mesh) :
  let subd := ccs_Create sizeof_Halfedge_SemiRegular sizeof_Crease
                sizeof_VertexPoint junk_halfedge junk_crease junk_point
                mesh 0 in
  (ccs_CumulativeHalfedgeCountAtDepth mesh 0 = 0 /\
   ccs_CumulativeFaceCountAtDepth mesh 0 = 0 /\
   ccs_CumulativeEdgeCountAtDepth mesh 0 = 0 /\
   ccs_CumulativeCreaseCountAtDepth mesh 0 = 0 /\
   ccs_CumulativeVertexCountAtDepth mesh 0 = 0) /\
  (s_halfedges subd = [] /\ s_creases subd = [] /\ s_vertexPoints subd = []) /\
  forall vertexID depth, ccs_VertexPoint subd vertexID depth = None.
Proof.
  intros subd.
  assert (Hmask : wrap32 (notu32 (shlu32 x_FFFFFFFF 0)) = 0) by reflexivity.
  assert (Hmask2 : wrap32 (notu32 (shlu32 x_FFFFFFFF (shl32 0 1))) = 0)
    by reflexivity.
  assert (Hthird :
            wrap32 (divu32 (notu32 (shlu32 x_FFFFFFFF (shl32 0 1))) 3) = 0)
    by reflexivity.
  assert (HH : ccs_CumulativeHalfedgeCountAtDepth mesh 0 = 0).
  { unfold ccs_CumulativeHalfedgeCountAtDepth. cbn zeta. rewrite Hmask2.
    unfold mul32. rewrite Z.mul_0_r. reflexivity. }
  assert (HC : ccs_CumulativeCreaseCountAtDepth mesh 0 = 0).
  { unfold ccs_CumulativeCreaseCountAtDepth. cbn zeta. rewrite Hmask.
    unfold mul32. rewrite Z.mul_0_r. reflexivity. }
  assert (HV : ccs_CumulativeVertexCountAtDepth mesh 0 = 0).
  { unfold ccs_CumulativeVertexCountAtDepth. cbn zeta.
    rewrite Hmask, Hthird. unfold mul32. rewrite !Z.mul_0_l. reflexivity. }
  assert (Hempty : forall (A : Type) (junk : A) (s : Z),
                     malloc junk s (byte_count 0 s) = []).
  { intros A junk s. unfold malloc, byte_count.
    change (wrap_size_t 0) with 0. rewrite Z.mul_0_l.
    change (wrap_size_t 0) with 0. rewrite Zdiv_0_l. reflexivity. }
  split; [| split].
  - split; [exact HH|]. split; [| split; [| split; [exact HC | exact HV]]].
    + unfold ccs_CumulativeFaceCountAtDepth. rewrite HH. reflexivity.
    + unfold ccs_CumulativeEdgeCountAtDepth. cbn zeta. rewrite Hmask.
      unfold mul32 at 1. rewrite Z.mul_0_l. reflexivity.
  - unfold subd, ccs_Create. cbn [s_halfedges s_creases s_vertexPoints].
    rewrite HH, HC, HV, !Hempty. repeat split.
  - intros vertexID depth. unfold ccs_VertexPoint, subd, ccs_Create.
    cbn [s_vertexPoints]. rewrite HV, Hempty. unfold array_get.
    destruct (_ <? 0); [reflexivity|]. now destruct (Z.to_nat _).
Qed.

(** ** Relations between the counts of one level *)

(** What the subdivision rules keep: the Euler characteristic, the doubling
    of the boundary, and four halfedges per face. *)
Lemma counts_at_invariants (cage : cc_Mesh) (n : nat) :
  let c := counts_at cage n in
  lc_V c - lc_E c + lc_F c =
    ccm_VertexCount cage - ccm_EdgeCount cage + ccm_FaceCount cage /\
  2 * lc_E c - lc_H c =
    2 ^ Z.of_nat n * (2 * ccm_EdgeCount cage - ccm_HalfedgeCount cage) /\
  lc_H (counts_at cage (S n)) = 4 * lc_F (counts_at cage (S n)).
Proof.
  cbn zeta. split; [| split].
  - induction n as [| n IH]; [reflexivity|].
    cbn [counts_at subdivide_counts lc_V lc_E lc_F]. lia.
  - induction n as [| n IH].
    + cbn [counts_at cage_counts lc_E lc_H]. change (2 ^ Z.of_nat 0) with 1. lia.
    + rewrite pow2_S. cbn [counts_at subdivide_counts lc_E lc_H]. lia.
  - cbn [counts_at subdivide_counts lc_H lc_F]. reflexivity.
Qed.

(** A level has at most as many creases as edges. *)
Lemma counts_at_C_le_E (cage : cc_Mesh) (n : nat) :
  0 <= ccm_HalfedgeCount cage ->
  lc_C (counts_at cage n) <= lc_E (counts_at cage n).
Proof.
  intros HH.
  pose proof (counts_at_HCE cage n) as (_ & HC & HE). cbn zeta in HC, HE.
  pose proof (pow2_pos (Z.of_nat n) ltac:(lia)) as Hp.
  set (p := 2 ^ Z.of_nat n) in *.
  assert (Hnn : 0 <= p * ((p - 1) * ccm_HalfedgeCount cage))
    by (repeat apply Z.mul_nonneg_nonneg; lia).
  replace (p * (2 * ccm_EdgeCount cage + (p - 1) * ccm_HalfedgeCount cage))
    with (2 * (ccm_EdgeCount cage * p) + p * ((p - 1) * ccm_HalfedgeCount cage))
    in HE by ring.
  lia.
Qed.

(** X5.  The counting formulas keep the topology of the cage.  At every depth at
    which the hierarchy fits, the per-level formulas give the Euler
    characteristic [V - E + F] of the cage, [2 ^ d] times its number
    [2 E - H] of boundary edges, and, from depth 1 on, four halfedges per
    face. *)
Theorem ccm_CountAtDepth_invariants (cage : cc_Mesh) (d : Z) :
  mesh_counts_int32 cage ->
  0 <= d <= int32_max ->
  hierarchy_fits cage d ->
  ccm_VertexCountAtDepth cage d - ccm_EdgeCountAtDepth cage d
    + ccm_FaceCountAtDepth cage d =
    ccm_VertexCount cage - ccm_EdgeCount cage + ccm_FaceCount cage /\
  2 * ccm_EdgeCountAtDepth cage d - ccm_HalfedgeCountAtDepth cage d =
    2 ^ d * (2 * ccm_EdgeCount cage - ccm_HalfedgeCount cage) /\
  (1 <= d -> ccm_HalfedgeCountAtDepth cage d = 4 * ccm_FaceCountAtDepth cage d).
Proof.
  intros Hmesh Hd Hfit.
  destruct (fitting_level_exact cage d Hmesh Hd Hfit d ltac:(lia))
    as (LV & LE & LH & LF & _).
  rewrite LV, LE, LH, LF.
  pose proof (counts_at_invariants cage (Z.to_nat d)) as (Euler & Boundary & _).
  rewrite Z2Nat.id in Boundary by lia.
  split; [exact Euler|]. split; [exact Boundary|].
  intros Hpos. replace (Z.to_nat d) with (S (Z.to_nat (d - 1))) by lia.
  apply counts_at_invariants.
Qed.

(** X5 on the cube at depth 3: a closed surface
    of Euler characteristic 2. *)
Lemma ccm_CountAtDepth_invariants_cube :
  ccm_VertexCountAtDepth cube_cage 3 - ccm_EdgeCountAtDepth cube_cage 3
    + ccm_FaceCountAtDepth cube_cage 3 = 2 /\
  2 * ccm_EdgeCountAtDepth cube_cage 3 - ccm_HalfedgeCountAtDepth cube_cage 3 = 0 /\
  ccm_HalfedgeCountAtDepth cube_cage 3 = 4 * ccm_FaceCountAtDepth cube_cage 3.
Proof.
  assert (Hmesh : mesh_counts_int32 cube_cage) by int32_by_computation.
  assert (Hd : 0 <= 3 <= int32_max) by int32_by_computation.
  assert (Hfit : hierarchy_fits cube_cage 3) by int32_by_computation.
  destruct (ccm_CountAtDepth_invariants cube_cage 3 Hmesh Hd Hfit)
    as (Euler & Boundary & Quads).
  split; [exact Euler|]. split; [exact Boundary|].
  apply Quads. int32_by_computation.
Defined.

(** X6.  The edges that subdivision adds inside the faces are never creases.
    The edges of a level [depth >= 1] are the [2 E] halves of the [E] edges
    of the level below, followed by one edge per halfedge of that level;
    the crease records of the level cover at most the first [2 E] ids, so
    that for every edge id from [2 E] on the sharpness is 0 and the crease
    neighbours are the edge itself, without any record being read. *)
Theorem ccs_Crease_spoke_edges (subd : cc_Subd) (edgeID depth : Z) :
  mesh_counts_int32 (cage subd) ->
  1 <= depth <= int32_max ->
  hierarchy_fits (cage subd) depth ->
  let E := ccm_EdgeCountAtDepth (cage subd) (depth - 1) in
  ccm_EdgeCountAtDepth (cage subd) depth =
    2 * E + ccm_HalfedgeCountAtDepth (cage subd) (depth - 1) /\
  ccm_CreaseCountAtDepth (cage subd) depth <= 2 * E /\
  (2 * E <= edgeID ->
   ccs_CreaseSharpness subd edgeID depth = Some f32_zero /\
   ccs_CreaseNextID subd edgeID depth = Some edgeID /\
   ccs_CreasePrevID subd edgeID depth = Some edgeID).
Proof.
  intros Hmesh Hd Hfit E.
  assert (Hd0 : 0 <= depth <= int32_max) by lia.
  pose proof Hfit as (_ & _ & HH & _).
  assert (Hlevel := fitting_level_exact (cage subd) depth Hmesh Hd0 Hfit).
  destruct (Hlevel depth ltac:(lia)) as (_ & LE & _ & _ & LC).
  destruct (Hlevel (depth - 1) ltac:(lia)) as (_ & LE' & LH' & _ & _).
  pose proof (counts_at_C_le_E (cage subd) (Z.to_nat (depth - 1)) HH) as HCE.
  assert (HC : ccm_CreaseCountAtDepth (cage subd) depth <= 2 * E).
  { subst E. rewrite LC, LE'.
    replace (Z.to_nat depth) with (S (Z.to_nat (depth - 1))) by lia.
    cbn [counts_at subdivide_counts lc_C]. lia. }
  split; [| split; [exact HC|]].
  - subst E. rewrite LE, LE', LH'.
    replace (Z.to_nat depth) with (S (Z.to_nat (depth - 1))) by lia.
    reflexivity.
  - intros Hspoke.
    unfold ccs_CreaseSharpness, ccs_CreaseNextID, ccs_CreasePrevID. cbn zeta.
    replace (edgeID <? ccm_CreaseCountAtDepth (cage subd) depth) with false
      by (symmetry; apply Z.ltb_ge; lia).
    repeat split.
Qed.

(** X6 on the quad subdivided once: the 12 edges of
    level 1 are 8 halves of cage edges and 4 spokes, and edge 8, the first
    spoke, is smooth. *)
Lemma ccs_Crease_spoke_edges_quad :
  ccm_EdgeCountAtDepth (cage quad_subd) 1 = 2 * 4 + 4 /\
  ccs_CreaseSharpness quad_subd 8 1 = Some f32_zero /\
  ccs_CreaseNextID quad_subd 8 1 = Some 8 /\
  ccs_CreasePrevID quad_subd 8 1 = Some 8.
Proof.
  assert (Hmesh : mesh_counts_int32 (cage quad_subd)) by int32_by_computation.
  assert (Hd : 1 <= 1 <= int32_max) by int32_by_computation.
  assert (Hfit : hierarchy_fits (cage quad_subd) 1) by int32_by_computation.
  destruct (ccs_Crease_spoke_edges quad_subd 8 1 Hmesh Hd Hfit)
    as (Hbands & _ & Hsmooth).
  split; [exact Hbands|]. apply Hsmooth. int32_by_computation.
Defined.

(** ** Faces and halfedges of a subdivided level *)

(** From depth 1 on a level that fits has four halfedges per face, and
    their number is an [int32_t]. *)
Lemma ccm_CountAtDepth_quads (cage : cc_Mesh) (d : Z) :
  mesh_counts_int32 cage ->
  1 <= d <= int32_max ->
  hierarchy_fits cage d ->
  ccm_HalfedgeCountAtDepth cage d = 4 * ccm_FaceCountAtDepth cage d /\
  ccm_HalfedgeCountAtDepth cage d <= int32_max.
Proof.
  intros Hmesh Hd Hfit.
  assert (Hd0 : 0 <= d <= int32_max) by lia.
  destruct (fitting_level_exact cage d Hmesh Hd0 Hfit d ltac:(lia))
    as (_ & _ & LH & LF & _).
  pose proof (ccm_HalfedgeCountAtDepth_wrap cage d) as HW.
  pose proof (wrap32_range (lc_H (counts_at cage (Z.to_nat d)))) as HR.
  rewrite LH, LF. split.
  - replace (Z.to_nat d) with (S (Z.to_nat (d - 1))) by lia.
    apply counts_at_invariants.
  - rewrite <- LH. rewrite HW by assumption.
    unfold is_int32 in HR. lia.
Qed.

(** X7.  Faces and halfedges of a level [depth >= 1] that fits index each other
    without a table.  [ccs_HalfedgeFaceID] sends a halfedge id of the level
    to a face id of the level, the face whose four halfedges, starting at
    [ccs_FaceToHalfedgeID], contain it; [ccs_FaceToHalfedgeID] sends a face
    id of the level to a halfedge id of the level, and
    [ccs_HalfedgeFaceID] sends that halfedge back to the face. *)
Theorem ccs_Face_Halfedge_ids (subd : cc_Subd) (depth halfedgeID faceID : Z) :
  mesh_counts_int32 (cage subd) ->
  1 <= depth <= int32_max ->
  hierarchy_fits (cage subd) depth ->
  (0 <= halfedgeID < ccm_HalfedgeCountAtDepth (cage subd) depth ->
   let f := ccs_HalfedgeFaceID subd halfedgeID depth in
   0 <= f < ccm_FaceCountAtDepth (cage subd) depth /\
   ccs_FaceToHalfedgeID subd f depth <= halfedgeID
     < ccs_FaceToHalfedgeID subd f depth + 4) /\
  (0 <= faceID < ccm_FaceCountAtDepth (cage subd) depth ->
   let h := ccs_FaceToHalfedgeID subd faceID depth in
   0 <= h /\ h + 3 < ccm_HalfedgeCountAtDepth (cage subd) depth /\
   ccs_HalfedgeFaceID subd h depth = faceID).
Proof.
  intros Hmesh Hd Hfit.
  assert (Hd0 : 0 <= depth <= int32_max) by lia.
  destruct (ccm_CountAtDepth_quads (cage subd) depth Hmesh Hd Hfit)
    as (HF & Hmax).
  unfold ccs_HalfedgeFaceID, ccs_FaceToHalfedgeID, ccm_HalfedgeFaceID_Quad,
    ccm_FaceToHalfedgeID_Quad.
  assert (Hshl : forall f, 0 <= f < ccm_FaceCountAtDepth (cage subd) depth ->
                   shl32 f 2 = 4 * f).
  { intros f Hf. unfold shl32. change (valid_shift 2) with true. cbv iota.
    rewrite Z.shiftl_mul_pow2 by lia. change (2 ^ 2) with 4.
    rewrite wrap32_small by (unfold is_int32, int32_min, int32_max in *; lia).
    lia. }
  split.
  - intros Hh. cbn zeta.
    rewrite Z.shiftr_div_pow2 by lia. change (2 ^ 2) with 4.
    pose proof (Z.div_mod halfedgeID 4 ltac:(lia)) as Hdm.
    pose proof (Z.mod_pos_bound halfedgeID 4 ltac:(lia)) as Hm.
    assert (Hq : 0 <= halfedgeID / 4 < ccm_FaceCountAtDepth (cage subd) depth)
      by lia.
    rewrite (Hshl _ Hq). lia.
  - intros Hf. cbn zeta. rewrite (Hshl _ Hf).
    split; [lia|]. split; [lia|].
    rewrite Z.shiftr_div_pow2 by lia. change (2 ^ 2) with 4.
    rewrite Z.mul_comm. apply Z.div_mul. lia.
Qed.

(** X7 on the quad subdivided once, with its 16
    halfedges and 4 faces: halfedge 7 lies in face 1, which starts at
    halfedge 4, and face 3 starts at halfedge 12. *)
Lemma ccs_Face_Halfedge_ids_quad :
  (ccs_HalfedgeFaceID quad_subd 7 1 = 1 /\
   0 <= ccs_HalfedgeFaceID quad_subd 7 1 < ccm_FaceCountAtDepth (cage quad_subd) 1) /\
  (ccs_FaceToHalfedgeID quad_subd 3 1 = 12 /\
   ccs_HalfedgeFaceID quad_subd (ccs_FaceToHalfedgeID quad_subd 3 1) 1 = 3).
Proof.
  assert (Hmesh : mesh_counts_int32 (cage quad_subd)) by int32_by_computation.
  assert (Hd : 1 <= 1 <= int32_max) by int32_by_computation.
  assert (Hfit : hierarchy_fits (cage quad_subd) 1) by int32_by_computation.
  assert (Hh : 0 <= 7 < ccm_HalfedgeCountAtDepth (cage quad_subd) 1)
    by int32_by_computation.
  assert (Hf : 0 <= 3 < ccm_FaceCountAtDepth (cage quad_subd) 1)
    by int32_by_computation.
  destruct (ccs_Face_Halfedge_ids quad_subd 1 7 3 Hmesh Hd Hfit)
    as (Hface & Hfirst).
  destruct (Hface Hh) as (Hrange & _).
  destruct (Hfirst Hf) as (_ & _ & Hback).
  split; [split; [reflexivity | exact Hrange]|].
  split; [reflexivity | exact Hback].
Defined.

(** ** Creating a cage *)

Lemma array_get_repeat {A : Type} (junk : A) (count i : Z) :
  array_get (repeat junk (Z.to_nat count)) i =
  if (0 <=? i) && (i <? count) then Some junk else None.
Proof.
  unfold array_get.
  destruct (Z.ltb_spec i 0) as [Hneg | Hnonneg].
  - replace (0 <=? i) with false by (symmetry; apply Z.leb_gt; lia).
    reflexivity.
  - replace (0 <=? i) with true by (symmetry; apply Z.leb_le; lia).
    cbn [andb]. destruct (Z.ltb_spec i count) as [Hin | Hout].
    + apply nth_error_repeat. lia.
    + apply nth_error_None. rewrite repeat_length. lia.
Qed.

(** A block whose byte count went through an [int32_t] holds [count]
    elements as long as the byte count fits. *)
Lemma malloc_int32 {A : Type} (junk : A) (count elemSize : Z) :
  0 <= count -> 0 < elemSize -> count * elemSize <= int32_max ->
  malloc junk elemSize (wrap32 (byte_count count elemSize)) =
  repeat junk (Z.to_nat count).
Proof.
  unfold int32_max. intros Hc Hs Hfit.
  assert (Hprod : 0 <= count * elemSize) by (apply Z.mul_nonneg_nonneg; lia).
  assert (Hcount : count <= count * elemSize) by nia.
  unfold malloc, byte_count, wrap_size_t.
  rewrite (Z.mod_small count) by lia.
  rewrite (Z.mod_small (count * elemSize)) by lia.
  rewrite wrap32_small by (unfold is_int32, int32_min, int32_max; lia).
  rewrite (Z.mod_small (count * elemSize)) by lia.
  rewrite Z.div_mul by lia. reflexivity.
Qed.

(** X8.  [ccm_Create] gives a cage whose arrays match its counts, as long as the
    byte counts it forms in [int32_t] fit.  The five counts are stored as
    given, every id below its count can be read from its array, and no id at
    or above the count or below 0 can. *)
Theorem ccm_Create_allocates_counts
    (sizeof_Halfedge sizeof_Crease sizeof_VertexPoint sizeof_VertexUv : Z)
    (junk_id : Z) (junk_halfedge : cc_Halfedge) (junk_crease : cc_Crease)
    (junk_point : cc_VertexPoint) (junk_uv : cc_VertexUv)
    (vertexCount uvCount halfedgeCount edgeCount faceCount : Z) :
  0 < sizeof_Halfedge -> 0 < sizeof_Crease ->
  0 < sizeof_VertexPoint -> 0 < sizeof_VertexUv ->
  0 <= vertexCount -> vertexCount * sizeof_VertexPoint <= int32_max ->
  0 <= uvCount -> uvCount * sizeof_VertexUv <= int32_max ->
  0 <= halfedgeCount -> halfedgeCount * sizeof_Halfedge <= int32_max ->
  0 <= edgeCount -> edgeCount * sizeof_Crease <= int32_max ->
  0 <= faceCount <= int32_max ->
  let mesh := ccm_Create sizeof_Halfedge sizeof_Crease sizeof_VertexPoint
                sizeof_VertexUv junk_id junk_halfedge junk_crease junk_point
                junk_uv vertexCount uvCount halfedgeCount edgeCount faceCount in
  let below (i count : Z) := (0 <=? i) && (i <? count) in
  (ccm_VertexCount mesh = vertexCount /\ ccm_UvCount mesh = uvCount /\
   ccm_HalfedgeCount mesh = halfedgeCount /\ ccm_EdgeCount mesh = edgeCount /\
   ccm_FaceCount mesh = faceCount) /\
  (Z.of_nat (length (halfedges mesh)) = halfedgeCount /\
   Z.of_nat (length (creases mesh)) = edgeCount) /\
  forall i,
    ccm_VertexPoint mesh i =
      (if below i vertexCount then Some junk_point else None) /\
    ccm_Uv mesh i = (if below i uvCount then Some junk_uv else None) /\
    ccm_VertexToHalfedgeID mesh i =
      (if below i vertexCount then Some junk_id else None) /\
    ccm_EdgeToHalfedgeID mesh i =
      (if below i edgeCount then Some junk_id else None) /\
    ccm_FaceToHalfedgeID mesh i =
      (if below i faceCount then Some junk_id else None).
Proof.
  intros HsH HsC HsV HsU HV FV HU FU HH FH HE FE HF mesh below.
  assert (HV' : 0 <= vertexCount <= int32_max) by nia.
  assert (HE' : 0 <= edgeCount <= int32_max) by nia.
  assert (H4 : 0 < 4 < 2 ^ 32) by (split; reflexivity).
  split; [repeat split|]. split.
  - unfold mesh, ccm_Create. cbn [halfedges creases].
    rewrite !malloc_int32 by assumption. rewrite !repeat_length. lia.
  - intros i. unfold ccm_VertexPoint, ccm_Uv, ccm_VertexToHalfedgeID,
      ccm_EdgeToHalfedgeID, ccm_FaceToHalfedgeID, mesh, ccm_Create, below.
    cbn [vertexPoints uvs vertexToHalfedgeIDs edgeToHalfedgeIDs
         faceToHalfedgeIDs].
    rewrite !malloc_int32 by assumption.
    rewrite !array_get_malloc by assumption.
    rewrite !array_get_repeat. repeat split.
Qed.

(** X8 on the cube: 24 halfedges of 28 bytes. *)
Lemma ccm_Create_allocates_counts_cube :
  ccm_HalfedgeCount cube_cage = 24 /\
  Z.of_nat (length (halfedges cube_cage)) = 24 /\
  ccm_VertexPoint cube_cage 7 = Some zero_point /\
  ccm_VertexPoint cube_cage 8 = None.
Proof.
  assert (Hsizes : 0 < 28 /\ 0 < 12 /\ 0 < 8) by int32_by_computation.
  assert (Hcounts : 0 <= 8 /\ 0 <= 0 /\ 0 <= 24 /\ 0 <= 12 /\ 0 <= 6 <= int32_max)
    by int32_by_computation.
  assert (Hbytes : 8 * 12 <= int32_max /\ 0 * 8 <= int32_max /\
                   24 * 28 <= int32_max /\ 12 * 12 <= int32_max)
    by int32_by_computation.
  destruct Hsizes as (S28 & S12 & S8).
  destruct Hcounts as (CV & CU & CH & CE & CF).
  destruct Hbytes as (BV & BU & BH & BE).
  destruct (ccm_Create_allocates_counts 28 12 12 8 0 zero_halfedge zero_crease
              zero_point zero_uv 8 0 24 12 6
              S28 S12 S12 S8 CV BV CU BU CH BH CE BE CF)
    as ((_ & _ & Hcount & _) & (Hlen & _) & Hread).
  split; [exact Hcount|]. split; [exact Hlen|].
  split; [exact (proj1 (Hread 7)) | exact (proj1 (Hread 8))].
Defined.

(** ** The resolver at the edge of its domain, and the place of its result *)

(** X9.  Below depth 1 the compiled resolver does not look at the cage: it
    returns halfedge 0 for every edge id, where the recursive version kept
    under [#if 0] asks [ccs__EdgeToHalfedgeID_First]. *)
Theorem ccs_EdgeToHalfedgeID_below_depth_1
    (First : cc_Mesh -> Z -> option Z) (subd : cc_Subd) (edgeID depth : Z) :
  depth <= 0 ->
  ccs_EdgeToHalfedgeID First subd edgeID depth = Some 0 /\
  ccs_EdgeToHalfedgeID_recursive First subd edgeID depth =
    First (cage subd) edgeID.
Proof.
  intros Hd.
  unfold ccs_EdgeToHalfedgeID, ccs_EdgeToHalfedgeID_recursive.
  replace (Z.to_nat (depth - 1)) with 0%nat by lia.
  cbn [build_heap rs_heapDepth rs_edgeID rs_edgeHalfedgeID rs_heap
       EdgeToHalfedgeID_recursive].
  replace (depth =? 1) with false by (symmetry; apply Z.eqb_neq; lia).
  replace (1 <? depth) with false by (symmetry; apply Z.ltb_ge; lia).
  split; reflexivity.
Qed.

(** X9 at depth 0, with a cage lookup that
    always fails: the compiled resolver still answers. *)
Lemma ccs_EdgeToHalfedgeID_below_depth_1_quad :
  ccs_EdgeToHalfedgeID (fun _ _ => None) quad_subd 3 0 = Some 0 /\
  ccs_EdgeToHalfedgeID_recursive (fun _ _ => None) quad_subd 3 0 = None.
Proof.
  assert (Hd : 0 <= 0) by int32_by_computation.
  exact (ccs_EdgeToHalfedgeID_below_depth_1 (fun _ _ => None) quad_subd 3 0 Hd).
Defined.

Lemma wrap32_mod4 (z : Z) : wrap32 z mod 4 = z mod 4.
Proof.
  unfold wrap32.
  pose proof (Z.div_mod (z + 2 ^ 31) (2 ^ 32) ltac:(lia)) as Hdm.
  set (q := (z + 2 ^ 31) / 2 ^ 32) in *.
  set (r := (z + 2 ^ 31) mod 2 ^ 32) in *.
  replace (r - 2 ^ 31) with (z + (- q * 1073741824) * 4) by lia.
  apply Z.mod_add. lia.
Qed.

(** The place inside its face of the halfedge a replayed transform gives. *)
Lemma replay_step_mod4 (bit : bool) (h : Z) :
  replay_step bit h mod 4 = if bit then 3 else 0.
Proof.
  unfold replay_step, add32, mul32.
  destruct bit; rewrite wrap32_mod4, <- Zplus_mod_idemp_l, wrap32_mod4,
    Zplus_mod_idemp_l, Z.add_comm, Z.mul_comm, Z.mod_add by lia; reflexivity.
Qed.

(** The place inside its face of the halfedge of a spoke edge. *)
Lemma spoke_halfedge_mod4 (h : Z) :
  spoke_halfedge h mod 4 = 1 \/ spoke_halfedge h mod 4 = 2.
Proof.
  unfold spoke_halfedge, cc__Max, add32, mul32. cbn zeta.
  destruct (_ >? _); [left | right];
    rewrite wrap32_mod4, <- Zplus_mod_idemp_l, wrap32_mod4,
      Zplus_mod_idemp_l, Z.add_comm, Z.mul_comm, Z.mod_add by lia;
    reflexivity.
Qed.

(** X10.  The band and the parity of an edge id decide the place of its halfedge
    inside the face.  From depth 2 to depth 32, whatever halfedge
    [ccs__EdgeToHalfedgeID_First] starts from, the halfedge the compiled
    resolver returns is the second or third of its face (local id 1 or 2)
    for an edge id in the band of the spokes, from [2 E] on, and below [2 E]
    it is the fourth (local id 3) for an odd edge id and the first (local id
    0) for an even one. *)
Theorem ccs_EdgeToHalfedgeID_local_id
    (First : cc_Mesh -> Z -> option Z) (subd : cc_Subd)
    (edgeID depth halfedgeID : Z) :
  2 <= depth <= 32 ->
  ccs_EdgeToHalfedgeID First subd edgeID depth = Some halfedgeID ->
  let edgeCount := ccm_EdgeCountAtDepth_Fast (cage subd) (depth - 1) in
  (mul32 2 edgeCount <= edgeID ->
   halfedgeID mod 4 = 1 \/ halfedgeID mod 4 = 2) /\
  (edgeID < mul32 2 edgeCount ->
   halfedgeID mod 4 = if Z.odd edgeID then 3 else 0).
Proof.
  intros Hd Hres edgeCount.
  rewrite ccs_EdgeToHalfedgeID_parity_upto_32 in Hres by lia.
  rewrite ccs_EdgeToHalfedgeID_parity_step in Hres by (unfold int32_max; lia).
  cbn zeta in Hres. fold edgeCount in Hres.
  split; intros Hband.
  - apply Z.leb_le in Hband. rewrite Hband in Hres.
    injection Hres as <-. apply spoke_halfedge_mod4.
  - apply Z.leb_gt in Hband. rewrite Hband in Hres.
    destruct (ccs_EdgeToHalfedgeID_parity First subd (Z.shiftr edgeID 1)
                (depth - 1)) as [r |]; cbn [obind] in Hres; [| discriminate].
    injection Hres as <-. rewrite replay_step_mod4.
    change 1 with (Z.ones 1) at 1. rewrite Z.land_ones by lia.
    change (2 ^ 1) with 2. now rewrite Zodd_mod.
Qed.

(** X10 on the quad at depth 2: the odd edge 1
    resolves to halfedge 7, the fourth of face 1. *)
Lemma ccs_EdgeToHalfedgeID_local_id_quad :
  ccs_EdgeToHalfedgeID ccs__EdgeToHalfedgeID_First quad_subd2 1 2 = Some 7 /\
  7 mod 4 = (if Z.odd 1 then 3 else 0).
Proof.
  assert (Hd : 2 <= 2 <= 32) by int32_by_computation.
  assert (Hres : ccs_EdgeToHalfedgeID ccs__EdgeToHalfedgeID_First quad_subd2 1 2
                 = Some 7) by reflexivity.
  assert (Hband : 1 < mul32 2 (ccm_EdgeCountAtDepth_Fast (cage quad_subd2) (2 - 1)))
    by int32_by_computation.
  split; [exact Hres|].
  exact (proj2 (ccs_EdgeToHalfedgeID_local_id ccs__EdgeToHalfedgeID_First
                  quad_subd2 1 2 7 Hd Hres) Hband).
Defined.

(** ** When the cumulative counts are exact *)

(** A quotient formed in [int32_t] is small: multiplied back by the
    divisor it is within the range of [int32_t]. *)
Lemma div32_ceiling (a b : Z) :
  is_int32 a -> 1 <= b ->
  int32_min <= b * div32 a b <= int32_max.
Proof.
  unfold is_int32, int32_min, int32_max, div32. intros Ha Hb.
  assert (Hq : - 2 ^ 31 <= b * Z.quot a b <= 2 ^ 31 - 1 /\
               - 2 ^ 31 <= Z.quot a b <= 2 ^ 31 - 1).
  { assert (Hpos : forall c, 0 <= c ->
              0 <= b * Z.quot c b <= c /\ 0 <= Z.quot c b <= c).
    { intros c Hc. pose proof (Z.mul_quot_le c b Hc ltac:(lia)).
      pose proof (Z.quot_pos c b Hc ltac:(lia)). nia. }
    destruct (Z_le_gt_dec 0 a) as [Hnn | Hneg].
    - destruct (Hpos a Hnn). lia.
    - destruct (Hpos (- a) ltac:(lia)) as [H1 H2].
      rewrite Z.quot_opp_l in H1, H2 by lia. lia. }
  rewrite wrap32_small by (unfold is_int32, int32_min, int32_max; lia).
  lia.
Qed.

(** X11.  The cumulative halfedge and edge counts are exact exactly when the
    hierarchy fits.  Being quotients by 3 and by 6 of an [int32_t], they
    never exceed a third and a sixth of [INT32_MAX]; for a cage with
    non-negative counts each equals the total of the subdivision rules over
    the levels 1 .. [D] if and only if 3 times, respectively 6 times, that
    total is at most [INT32_MAX].  For a cage with at least 3 halfedges the
    halfedge count is therefore wrong at every depth from 14 on. *)
Theorem ccs_Cumulative_exact_iff_fits (cage : cc_Mesh) (D : Z) :
  0 <= D <= int32_max ->
  0 <= ccm_EdgeCount cage -> 0 <= ccm_HalfedgeCount cage ->
  (3 * ccs_CumulativeHalfedgeCountAtDepth cage D <= int32_max /\
   6 * ccs_CumulativeEdgeCountAtDepth cage D <= int32_max) /\
  (ccs_CumulativeHalfedgeCountAtDepth cage D =
     total_counts lc_H cage (Z.to_nat D) <->
   3 * total_counts lc_H cage (Z.to_nat D) <= int32_max) /\
  (ccs_CumulativeEdgeCountAtDepth cage D =
     total_counts lc_E cage (Z.to_nat D) <->
   6 * total_counts lc_E cage (Z.to_nat D) <= int32_max) /\
  (3 <= ccm_HalfedgeCount cage -> 14 <= D ->
   ccs_CumulativeHalfedgeCountAtDepth cage D <>
     total_counts lc_H cage (Z.to_nat D)).
Proof.
  intros HD HE HH.
  assert (CH : 3 * ccs_CumulativeHalfedgeCountAtDepth cage D <= int32_max).
  { unfold ccs_CumulativeHalfedgeCountAtDepth. cbn zeta.
    apply div32_ceiling; [apply wrap32_range | lia]. }
  assert (CE : 6 * ccs_CumulativeEdgeCountAtDepth cage D <= int32_max).
  { unfold ccs_CumulativeEdgeCountAtDepth. cbn zeta.
    apply div32_ceiling; [apply wrap32_range | lia]. }
  split; [split; assumption|]. split; [split | split; [split|]].
  - intros <-. exact CH.
  - intros Hfit. apply ccs_CumulativeHalfedgeCountAtDepth_total; [exact HD|].
    split; assumption.
  - intros <-. exact CE.
  - intros Hfit. now apply ccs_CumulativeEdgeCountAtDepth_total.
  - intros H3 H14 Heq. rewrite Heq in CH.
    pose proof (total_H_closed cage (Z.to_nat D)) as Hc. cbn zeta in Hc.
    rewrite Z2Nat.id in Hc by lia.
    assert (Hp : 2 ^ 14 <= 2 ^ D) by (apply Z.pow_le_mono_r; lia).
    change (2 ^ 14) with 16384 in Hp. set (p := 2 ^ D) in *.
    assert (Hpp : 16384 * 16384 <= p * p) by nia.
    assert (Hprod : 3 * (p * p - 1) <= ccm_HalfedgeCount cage * (p * p - 1))
      by (apply Z.mul_le_mono_nonneg_r; lia).
    unfold int32_max in CH. lia.
Qed.

(** X11 on the triangle: exact at depth 13, not
    at depth 14. *)
Lemma ccs_Cumulative_exact_iff_fits_triangle :
  ccs_CumulativeHalfedgeCountAtDepth triangle_cage 13 =
    total_counts lc_H triangle_cage (Z.to_nat 13) /\
  ccs_CumulativeHalfedgeCountAtDepth triangle_cage 14 <>
    total_counts lc_H triangle_cage (Z.to_nat 14).
Proof.
  assert (HE : 0 <= ccm_EdgeCount triangle_cage) by int32_by_computation.
  assert (HH : 0 <= ccm_HalfedgeCount triangle_cage) by int32_by_computation.
  assert (H13 : 0 <= 13 <= int32_max) by int32_by_computation.
  assert (H14 : 0 <= 14 <= int32_max) by int32_by_computation.
  assert (Hfit : 3 * total_counts lc_H triangle_cage (Z.to_nat 13) <= int32_max)
    by int32_by_computation.
  assert (H3 : 3 <= ccm_HalfedgeCount triangle_cage) by int32_by_computation.
  assert (Hdeep : 14 <= 14) by int32_by_computation.
  destruct (ccs_Cumulative_exact_iff_fits triangle_cage 13 H13 HE HH)
    as (_ & Hiff & _).
  destruct (ccs_Cumulative_exact_iff_fits triangle_cage 14 H14 HE HH)
    as (_ & _ & _ & Hwrong).
  split; [exact (proj2 Hiff Hfit) | exact (Hwrong H3 Hdeep)].
Defined.

(** * The numeric helpers of [Utilities.h] *)

(** ** Clamping and sign *)

(** X12.  [cc__Satf] clamps every [float] into [0, 1].  The result is never
    a NaN and lies between [0.0f] and [1.0f]; a value of that range is returned
    as it is, a smaller one gives [0.0f], a larger one [1.0f], and a NaN
    gives [1.0f]. *)
Theorem cc__Satf_clamps (x : float32) :
  f32_le f32_zero (cc__Satf x) = true /\
  f32_le (cc__Satf x) f32_one = true /\
  (f32_le f32_zero x = true -> f32_le x f32_one = true -> cc__Satf x = x) /\
  (f32_lt x f32_zero = true -> cc__Satf x = f32_zero) /\
  (f32_gt x f32_one = true -> cc__Satf x = f32_one) /\
  (x = S754_nan -> cc__Satf x = f32_one).
Proof.
  unfold cc__Satf, cc__Maxf, cc__Minf, f32_gt, f32_lt, f32_le, SFleb.
  destruct x as [s | s | | s m e].
  - destruct s; repeat split; intros; (reflexivity || discriminate).
  - destruct s; repeat split; intros; (reflexivity || discriminate).
  - repeat split; intros; (reflexivity || discriminate).
  - destruct s.
    + repeat split; intros; (reflexivity || discriminate).
    + cbn [SFcompare f32_one].
      destruct (e ?= -23) eqn:He;
        [destruct (Pos.compare_cont Eq m 8388608) eqn:Hm | |];
        cbn [SFcompare f32_zero f32_one]; rewrite ?He, ?Hm;
        repeat split; intros; try (reflexivity || discriminate).
      apply Z.compare_eq in He. apply Pos.compare_eq in Hm. now subst.
Qed.

(** X12 on [0.5f], which is kept, and on [-1.0f] and [65535.0f],
    which are clamped. *)
Lemma cc__Satf_clamps_half :
  cc__Satf (S754_finite false 8388608 (-24)) = S754_finite false 8388608 (-24) /\
  cc__Satf f32_minus_one = f32_zero /\
  cc__Satf f32_65535 = f32_one.
Proof.
  destruct (cc__Satf_clamps (S754_finite false 8388608 (-24)))
    as (_ & _ & Hkeep & _).
  destruct (cc__Satf_clamps f32_minus_one) as (_ & _ & _ & Hlow & _).
  destruct (cc__Satf_clamps f32_65535) as (_ & _ & _ & _ & Hhigh & _).
  split; [apply Hkeep; reflexivity|].
  split; [apply Hlow; reflexivity | apply Hhigh; reflexivity].
Defined.

(** X13.  [cc__Signf] reads the class and the sign bit only: it is [0.0f]
    for both zeros and for a NaN, [-1.0f] for every negative number and [+1.0f] for
    every positive number, the infinities included; applying it twice
    changes nothing. *)
Theorem cc__Signf_of_class (x : float32) :
  cc__Signf x =
    match x with
    | S754_zero _ | S754_nan => f32_zero
    | S754_infinity s | S754_finite s _ _ =>
      if s then f32_minus_one else f32_one
    end /\
  cc__Signf (cc__Signf x) = cc__Signf x.
Proof.
  destruct x as [s | s | | s m e]; try destruct s; split; reflexivity.
Qed.

(** ** The UV codec *)

Lemma all_upfrom_spec (p : Z -> bool) (n : nat) (first k : Z) :
  all_upfrom p first n = true ->
  first <= k < first + Z.of_nat n -> p k = true.
Proof.
  revert first. induction n as [| n IH]; intros first Hall Hk; [lia|].
  cbn [all_upfrom] in Hall. apply andb_prop in Hall as [Hfirst Hrest].
  destruct (Z.eq_dec k first) as [-> | Hne]; [exact Hfirst|].
  apply (IH (first + 1)); [exact Hrest | lia].
Qed.

Lemma all_below_spec (n : Z) (p : Z -> bool) (k : Z) :
  all_below n p = true -> 0 <= k < n -> p k = true.
Proof.
  unfold all_below. intros Hall Hk.
  apply (all_upfrom_spec p (Z.to_nat n) 0 k Hall). lia.
Qed.

(** Every 16-bit field decodes into [0, 1] and is encoded back to itself:
    checked on each of the 65536 fields. *)
Lemma uv_fields_checked : all_below 65536 uv_field_ok = true.
Proof. vm_compute. reflexivity. Qed.

Lemma uv_field_ok_spec (k : Z) :
  0 <= k < 65536 ->
  let x := f32_div (f32_of_u32 k) f32_65535 in
  f32_le f32_zero x = true /\ f32_le x f32_one = true /\
  f32_to_u32 (f32_mul x f32_65535) = Some k.
Proof.
  intros Hk x.
  pose proof (all_below_spec 65536 uv_field_ok k uv_fields_checked Hk) as Hok.
  unfold uv_field_ok in Hok. cbn zeta in Hok. fold x in Hok.
  apply andb_prop in Hok as [Hrange Hback].
  apply andb_prop in Hrange as [Hlow Hhigh].
  split; [exact Hlow|]. split; [exact Hhigh|].
  destruct (f32_to_u32 (f32_mul x f32_65535)) as [k' |]; [| discriminate].
  apply Z.eqb_eq in Hback. now subst.
Qed.

(** The two 16-bit fields of a 32-bit word, and the word put together from
    them. *)
Lemma uv_word_fields (w : Z) :
  let tmp := wrapu32 w in
  let lo := Z.land (Z.shiftr tmp 0) 65535 in
  let hi := Z.land (Z.shiftr tmp 16) 65535 in
  0 <= lo < 65536 /\ 0 <= hi < 65536 /\
  wrapu32 (Z.lor (Z.land lo 65535) (shlu32 (Z.land hi 65535) 16)) = tmp.
Proof.
  cbn zeta. unfold wrapu32.
  pose proof (Z.mod_pos_bound w (2 ^ 32) ltac:(lia)) as Hw.
  set (tmp := w mod 2 ^ 32) in *.
  change 65535 with (Z.ones 16). rewrite !Z.land_ones by lia.
  rewrite Z.shiftr_0_r, Z.shiftr_div_pow2 by lia.
  rewrite !Z.mod_mod by lia.
  pose proof (Z.mod_pos_bound tmp (2 ^ 16) ltac:(lia)) as Hlo.
  assert (Hhi : 0 <= tmp / 2 ^ 16 < 2 ^ 16).
  { split; [apply Z.div_pos; lia|].
    apply Z.div_lt_upper_bound; [lia|]. change (2 ^ 16 * 2 ^ 16) with (2 ^ 32).
    lia. }
  rewrite (Z.mod_small (tmp / 2 ^ 16)) by exact Hhi.
  change (2 ^ 16) with 65536 in *.
  split; [exact Hlo|]. split; [exact Hhi|].
  unfold shlu32. change (valid_shift 16) with true. cbv iota.
  unfold wrapu32. rewrite Z.shiftl_mul_pow2 by lia.
  change (2 ^ 16) with 65536.
  rewrite (Z.mod_small (tmp / 65536 * 65536))
    by (change (2 ^ 32) with 4294967296; lia).
  rewrite Z.lor_comm, <- (Z.shiftl_mul_pow2 _ 16) by lia.
  rewrite lor_low_bits by (change (2 ^ 16) with 65536; lia).
  change (2 ^ 16) with 65536.
  pose proof (Z.div_mod tmp 65536 ltac:(lia)) as Hdm.
  rewrite Z.mod_small by (change (2 ^ 32) with 4294967296 in *; lia).
  lia.
Qed.

(** X14.  Decoding followed by encoding is the identity.  For every [int32_t]
    word, [cc__EncodeUv] applied to the pair [cc__DecodeUv] makes of it is
    defined and gives the word back: the division by [65535.0f], the
    multiplication by it and the truncation lose none of the 65536 values
    of either field. *)
Theorem cc__EncodeUv_DecodeUv (uvEncoded : Z) :
  is_int32 uvEncoded ->
  cc__EncodeUv (cc__DecodeUv uvEncoded) = Some uvEncoded.
Proof.
  intros Hw.
  pose proof (uv_word_fields uvEncoded) as (Hlo & Hhi & Hword).
  cbn zeta in Hlo, Hhi, Hword.
  unfold cc__EncodeUv, cc__DecodeUv. cbn [uv_u uv_v].
  destruct (uv_field_ok_spec _ Hlo) as (_ & _ & ->).
  destruct (uv_field_ok_spec _ Hhi) as (_ & _ & ->).
  cbn [obind]. rewrite Hword. f_equal.
  rewrite (wrap32_congr _ _ (wrapu32_eqm uvEncoded)).
  now apply wrap32_small.
Qed.

(** X14 on the word [0x8000FFFF], the [int32_t]
    -2147418113: [u] is [1.0f], and [v] is 32768 / 65535. *)
Lemma cc__EncodeUv_DecodeUv_word :
  uv_u (cc__DecodeUv (-2147418113)) = f32_one /\
  cc__EncodeUv (cc__DecodeUv (-2147418113)) = Some (-2147418113).
Proof.
  assert (Hw : is_int32 (-2147418113)) by int32_by_computation.
  split; [reflexivity|].
  exact (cc__EncodeUv_DecodeUv (-2147418113) Hw).
Defined.

(** X15.  Decoded coordinates lie in the unit square.  Whatever the word, in
    range of [int32_t] or not, both components of [cc__DecodeUv] are numbers
    between [0.0f] and [1.0f], never a NaN; the word 0 decodes to the corner
    (0, 0) and the word of all ones to the corner (1, 1). *)
Theorem cc__DecodeUv_unit_square :
  (forall uvEncoded : Z,
     let uv := cc__DecodeUv uvEncoded in
     f32_le f32_zero (uv_u uv) = true /\ f32_le (uv_u uv) f32_one = true /\
     f32_le f32_zero (uv_v uv) = true /\ f32_le (uv_v uv) f32_one = true) /\
  cc__DecodeUv 0 = mk_VertexUv f32_zero f32_zero /\
  cc__DecodeUv (-1) = mk_VertexUv f32_one f32_one.
Proof.
  split; [| split; reflexivity].
  intros uvEncoded.
  pose proof (uv_word_fields uvEncoded) as (Hlo & Hhi & _).
  cbn zeta in Hlo, Hhi. unfold cc__DecodeUv. cbn [uv_u uv_v].
  destruct (uv_field_ok_spec _ Hlo) as (L0 & L1 & _).
  destruct (uv_field_ok_spec _ Hhi) as (H0 & H1 & _).
  repeat split; assumption.
Qed.

(** ** Rounding to binary32 *)

(** The number of binary digits of a mantissa. *)
Lemma digits2_pos_bounds (p : positive) :
  2 ^ (Zpos (digits2_pos p) - 1) <= Zpos p < 2 ^ Zpos (digits2_pos p).
Proof.
  induction p as [p IH | p IH |]; cbn [digits2_pos].
  - rewrite Pos2Z.inj_succ.
    replace (Z.succ (Zpos (digits2_pos p)) - 1)
      with (Z.succ (Zpos (digits2_pos p) - 1)) by lia.
    rewrite !Z.pow_succ_r by lia. lia.
  - rewrite Pos2Z.inj_succ.
    replace (Z.succ (Zpos (digits2_pos p)) - 1)
      with (Z.succ (Zpos (digits2_pos p) - 1)) by lia.
    rewrite !Z.pow_succ_r by lia. lia.
  - cbn. lia.
Qed.

Lemma shr_rel_0 (M : Z) : shr_rel M 0 (Build_shr_record M false false).
Proof.
  unfold shr_rel. cbn [shr_m loc_of_shr_record]. change (2 ^ 0) with 1.
  rewrite Z.div_1_r, Z.mod_1_r. split; reflexivity.
Qed.

Lemma shr_1_step (q : Z) (r s : bool) :
  0 <= q ->
  shr_1 (Build_shr_record q r s) =
  Build_shr_record (q / 2) (q mod 2 =? 1) (orb r s).
Proof.
  intros Hq. unfold shr_1. destruct q as [| [p | p |] | p]; try lia;
    try reflexivity.
  - rewrite Pos2Z.inj_xI.
    replace ((2 * Zpos p + 1) / 2) with (Zpos p)
      by (apply Z.div_unique with (r := 1); lia).
    replace ((2 * Zpos p + 1) mod 2) with 1
      by (apply Z.mod_unique with (q := Zpos p); lia).
    reflexivity.
  - rewrite Pos2Z.inj_xO.
    replace ((2 * Zpos p) / 2) with (Zpos p)
      by (apply Z.div_unique with (r := 0); lia).
    replace ((2 * Zpos p) mod 2) with 0
      by (apply Z.mod_unique with (q := Zpos p); lia).
    reflexivity.
Qed.

Lemma shr_1_rel (M n : Z) (st : shr_record) :
  0 <= M -> 0 <= n -> shr_rel M n st -> shr_rel M (n + 1) (shr_1 st).
Proof.
  intros HM Hn [Hq Hloc].
  assert (Hp : 0 < 2 ^ n) by (apply Z.pow_pos_nonneg; lia).
  pose proof (Z.mod_pos_bound M (2 ^ n) Hp) as Hrho.
  assert (Hdiv : M / 2 ^ (n + 1) = (M / 2 ^ n) / 2)
    by (rewrite Z.pow_add_r, Z.div_div by lia; reflexivity).
  assert (Hmod : M mod 2 ^ (n + 1) = M mod 2 ^ n + 2 ^ n * ((M / 2 ^ n) mod 2))
    by (rewrite Z.pow_add_r by lia; apply Z.rem_mul_r; lia).
  assert (Hpow : 2 ^ (n + 1) = 2 * 2 ^ n)
    by (rewrite Z.pow_add_r by lia; change (2 ^ 1) with 2; lia).
  assert (Hqpos : 0 <= M / 2 ^ n) by (apply Z.div_pos; lia).
  set (rho := M mod 2 ^ n) in *. set (q := M / 2 ^ n) in *.
  unfold shr_rel. rewrite Hdiv, Hmod, Hpow.
  destruct st as [m r s]. cbn [shr_m] in Hq. subst m.
  assert (Hsticky : orb r s = negb (rho =? 0)).
  { cbn [loc_of_shr_record] in Hloc.
    destruct (rho =? 0); destruct r, s; cbn; try reflexivity; discriminate. }
  clear Hloc.
  assert (Hcases : (q mod 2 = 0 \/ q mod 2 = 1))
    by (pose proof (Z.mod_pos_bound q 2 ltac:(lia)); lia).
  rewrite (shr_1_step q r s Hqpos).
 cbn [shr_m loc_of_shr_record]. split; [reflexivity|].
  rewrite Hsticky.
  destruct Hcases as [-> | ->]; cbn [Z.eqb Pos.eqb]; rewrite ?Z.mul_0_r, ?Z.mul_1_r, ?Z.add_0_r.
  - destruct (Z.eqb_spec rho 0) as [-> | Hne]; cbn [negb]; [reflexivity|].
    f_equal. symmetry. apply Z.compare_lt_iff. lia.
  - replace (rho + 2 ^ n =? 0) with false by (symmetry; apply Z.eqb_neq; lia).
    destruct (Z.eqb_spec rho 0) as [-> | Hne]; cbn [negb]; f_equal; symmetry.
    + apply Z.compare_eq_iff. lia.
    + apply Z.compare_gt_iff. lia.
Qed.

Lemma iter_pos_shr_rel (p : positive) :
  forall (M n : Z) (st : shr_record),
    0 <= M -> 0 <= n -> shr_rel M n st ->
    shr_rel M (n + Zpos p) (iter_pos shr_1 p st).
Proof.
  induction p as [p IH | p IH |]; intros M n st HM Hn Hrel; cbn [iter_pos].
  - replace (n + Zpos p~1) with (n + 1 + Zpos p + Zpos p) by lia.
    apply IH; [lia | lia |]. apply IH; [lia | lia |]. now apply shr_1_rel.
  - replace (n + Zpos p~0) with (n + Zpos p + Zpos p) by lia.
    apply IH; [lia | lia |]. now apply IH.
  - now apply shr_1_rel.
Qed.

(** Rounding to nearest the state the shifter has left. *)
Lemma round_nearest_even_near (M n : Z) (st : shr_record) :
  0 <= M -> 0 <= n -> shr_rel M n st ->
  let m1 := round_nearest_even (shr_m st) (loc_of_shr_record st) in
  (m1 = M / 2 ^ n \/ m1 = M / 2 ^ n + 1 /\ M mod 2 ^ n <> 0) /\
  2 * Z.abs (m1 * 2 ^ n - M) <= 2 ^ n.
Proof.
  intros HM Hn [Hq Hloc]. cbn zeta. rewrite Hq, Hloc.
  assert (Hp : 0 < 2 ^ n) by (apply Z.pow_pos_nonneg; lia).
  pose proof (Z.mod_pos_bound M (2 ^ n) Hp) as Hrho.
  pose proof (Z.div_mod M (2 ^ n) ltac:(lia)) as Hdm.
  set (rho := M mod 2 ^ n) in *. set (q := M / 2 ^ n) in *.
  destruct (Z.eqb_spec rho 0) as [Hz | Hnz].
  - cbn [round_nearest_even]. split; [now left | lia].
  - destruct (Z.compare_spec (2 * rho) (2 ^ n)) as [Heq | Hlt | Hgt];
      cbn [round_nearest_even].
    + destruct (Z.even q); (split; [(now left) || (right; now split) | lia]).
    + split; [now left | lia].
    + split; [right; now split | lia].
Qed.

Lemma shr_spec (M E z : Z) :
  0 <= M ->
  exists st,
    shr (Build_shr_record M false false) E z = (st, E + Z.max 0 z) /\
    shr_rel M (Z.max 0 z) st.
Proof.
  intros HM. destruct z as [| p | p]; cbn [shr].
  - exists (Build_shr_record M false false). rewrite Z.add_0_r.
    split; [reflexivity | apply shr_rel_0].
  - exists (iter_pos shr_1 p (Build_shr_record M false false)).
    replace (Z.max 0 (Zpos p)) with (Zpos p) by lia.
    split; [reflexivity|].
    apply (iter_pos_shr_rel p M 0); [lia | lia | apply shr_rel_0].
  - exists (Build_shr_record M false false).
    replace (Z.max 0 (Zneg p)) with 0 by lia. rewrite Z.add_0_r.
    split; [reflexivity | apply shr_rel_0].
Qed.

Lemma Zdigits2_le_24 (m1 : Z) : 0 <= m1 < 2 ^ 24 -> Zdigits2 m1 <= 24.
Proof.
  intros Hm. destruct m1 as [| m | m]; cbn [Zdigits2]; try lia.
  pose proof (digits2_pos_bounds m) as [Hlow _].
  assert (Hlt : 2 ^ (Zpos (digits2_pos m) - 1) < 2 ^ 24) by lia.
  apply Z.pow_lt_mono_r_iff in Hlt; lia.
Qed.

(** Normalising a rounded mantissa: nothing to do below [2^24], one more
    shift at [2^24]. *)
Lemma shr_fexp_rounded (m1 e : Z) :
  0 <= m1 <= 2 ^ 24 -> -149 <= e ->
  shr_fexp 24 128 m1 e loc_Exact =
  if m1 <? 2 ^ 24 then (Build_shr_record m1 false false, e)
  else (Build_shr_record 8388608 false false, e + 1).
Proof.
  intros Hm He. unfold shr_fexp, fexp. change (emin 24 128) with (-149).
  cbn [shr_record_of_loc].
  destruct (Z.ltb_spec m1 (2 ^ 24)) as [Hlt | Hge].
  - pose proof (Zdigits2_le_24 m1 ltac:(lia)) as Hd.
    set (z := Z.max (Zdigits2 m1 + e - 24) (-149) - e).
    assert (Hz : z <= 0) by (unfold z; lia).
    destruct z as [| p | p]; cbn [shr]; try reflexivity. lia.
  - assert (m1 = 2 ^ 24) by lia. subst m1.
    change (Zdigits2 (2 ^ 24)) with 25.
    replace (Z.max (25 + e - 24) (-149) - e) with 1 by lia.
    reflexivity.
Qed.

(** The first shift of [binary_round_aux]. *)
Lemma shr_fexp_first (M : positive) (E : Z) :
  let n := Z.max 0 (Z.max (Zpos (digits2_pos M) - 24) (-149 - E)) in
  exists st,
    shr_fexp 24 128 (Zpos M) E loc_Exact = (st, E + n) /\
    shr_rel (Zpos M) n st.
Proof.
  intros n. unfold shr_fexp, fexp.
  change (emin 24 128) with (-149). cbn [Zdigits2 shr_record_of_loc].
  change (IntDef.Z.max) with Z.max.
  replace (Z.max (Zpos (digits2_pos M) + E - 24) (-149) - E)
    with (Z.max (Zpos (digits2_pos M) - 24) (-149 - E)) by lia.
  destruct (shr_spec (Zpos M) E
              (Z.max (Zpos (digits2_pos M) - 24) (-149 - E)) ltac:(lia))
    as (st & Hshr & Hrel).
  exists st. split; [exact Hshr | exact Hrel].
Qed.

(** What [binary_round_aux] returns on a positive mantissa that does not
    overflow: the mantissa shifted right by [n] and rounded to nearest, at
    most half a unit of the kept precision away. *)
Lemma binary_round_aux_spec (M : positive) (E : Z) :
  let n := Z.max 0 (Z.max (Zpos (digits2_pos M) - 24) (-149 - E)) in
  E + n < 104 ->
  exists m1,
    (m1 = Zpos M / 2 ^ n \/
     m1 = Zpos M / 2 ^ n + 1 /\ Zpos M mod 2 ^ n <> 0) /\
    2 * Z.abs (m1 * 2 ^ n - Zpos M) <= 2 ^ n /\
    0 <= Zpos M / 2 ^ n < 2 ^ 24 /\
    binary_round_aux 24 128 false (Zpos M) E loc_Exact =
      f32_of_mantissa m1 (E + n).
Proof.
  intros n Hfit.
  assert (Hn : 0 <= n) by (unfold n; lia).
  destruct (shr_fexp_first M E) as (st & Hshr & Hrel). fold n in Hshr, Hrel.
  unfold binary_round_aux. rewrite Hshr.
  destruct (round_nearest_even_near (Zpos M) n st ltac:(lia) Hn Hrel)
    as (Hm1 & Herr).
  set (m1 := round_nearest_even (shr_m st) (loc_of_shr_record st)) in *.
  assert (Hq : 0 <= Zpos M / 2 ^ n < 2 ^ 24).
  { split; [apply Z.div_pos; [lia | apply Z.pow_pos_nonneg; lia]|].
    apply Z.div_lt_upper_bound; [apply Z.pow_pos_nonneg; lia|].
    rewrite <- Z.pow_add_r by lia.
    pose proof (digits2_pos_bounds M) as [_ Hup].
    apply Z.lt_le_trans with (m := 2 ^ Zpos (digits2_pos M)); [exact Hup|].
    apply Z.pow_le_mono_r; unfold n; lia. }
  exists m1. split; [exact Hm1|]. split; [exact Herr|]. split; [exact Hq|].
  assert (Hm1r : 0 <= m1 <= 2 ^ 24) by lia.
  rewrite (shr_fexp_rounded m1 (E + n) Hm1r) by (unfold n; lia).
  unfold f32_of_mantissa.
  destruct (Z.ltb_spec m1 (2 ^ 24)) as [Hlt | Hge]; cbn [shr_m].
  - destruct m1 as [| m | m]; try reflexivity; [| lia].
    replace (E + n <=? 128 - 24) with true by (symmetry; apply Z.leb_le; lia).
    reflexivity.
  - replace (E + n + 1 <=? 128 - 24) with true
      by (symmetry; apply Z.leb_le; lia).
    destruct m1 as [| m | m]; try lia. reflexivity.
Qed.

Lemma f32_valid_finite (s : bool) (m : positive) (e : Z) :
  f32_valid (S754_finite s m e) = true ->
  Zpos (digits2_pos m) <= 24 /\ -149 <= e <= 104.
Proof.
  unfold f32_valid, valid_binary, bounded, canonical_mantissa, fexp.
  change (emin 24 128) with (-149). change (128 - 24) with 104.
  intros H. apply andb_prop in H as [Hc Hb].
  apply Z.eqb_eq in Hc. apply Z.leb_le in Hb. lia.
Qed.

Lemma pos_compare_le (p q : positive) :
  match Pos.compare p q with Eq | Lt => true | Gt => false end = true ->
  Zpos p <= Zpos q.
Proof.
  destruct (Pos.compare_spec p q) as [-> | Hlt | Hgt]; intros H;
    try discriminate; lia.
Qed.

(** A binary32 number of [0, 1]: its mantissa is at most [2^-e]. *)
Lemma f32_le_one_mantissa (m : positive) (e : Z) :
  f32_valid (S754_finite false m e) = true ->
  f32_le (S754_finite false m e) f32_one = true ->
  e <= -23 /\ Zpos m <= 2 ^ (- e).
Proof.
  intros Hv Hle. apply f32_valid_finite in Hv as [Hd He].
  pose proof (digits2_pos_bounds m) as [_ Hm].
  assert (Hm24 : Zpos m < 2 ^ 24).
  { apply Z.lt_le_trans with (1 := Hm). apply Z.pow_le_mono_r; lia. }
  unfold f32_le, SFleb, f32_one, SFcompare in Hle.
  destruct (Z.compare_spec e (-23)) as [-> | Hlt | Hgt].
  - split; [lia|]. apply (pos_compare_le m 8388608).
    revert Hle. unfold Pos.compare.
    destruct (PosDef.Pos.compare_cont Eq m 8388608); intros Hle;
      (reflexivity || discriminate).
  - split; [lia|].
    apply Z.le_trans with (m := 2 ^ 24); [lia|].
    apply Z.pow_le_mono_r; lia.
  - discriminate.
Qed.

(** Truncating a rounded mantissa at a negative exponent. *)
Lemma f32_to_u32_of_mantissa (m1 e : Z) :
  0 <= m1 <= 2 ^ 24 -> e <= -1 ->
  f32_to_u32 (f32_of_mantissa m1 e) = Some (m1 / 2 ^ (- e)).
Proof.
  intros Hm He. unfold f32_of_mantissa.
  assert (Hp : 0 < 2 ^ (- e)) by (apply Z.pow_pos_nonneg; lia).
  destruct m1 as [| m | m]; [reflexivity | | lia].
  destruct (Z.ltb_spec (Zpos m) (2 ^ 24)) as [Hlt | Hge]; cbn [f32_to_u32].
  - rewrite Z.shiftl_div_pow2 by lia.
    assert (Hq : Zpos m / 2 ^ (- e) < 2 ^ 32).
    { apply Z.le_lt_trans with (m := Zpos m); [| lia].
      apply Z.div_le_upper_bound; [lia|]. nia. }
    apply Z.ltb_lt in Hq. rewrite Hq. reflexivity.
  - assert (Hm' : Zpos m = 2 * 8388608) by lia. rewrite Hm'.
    rewrite Z.shiftl_div_pow2 by lia.
    replace (- e) with (1 + (- (e + 1))) by lia.
    rewrite Z.pow_add_r by lia. change (2 ^ 1) with 2.
    rewrite Z.div_mul_cancel_l
      by (try lia; apply Z.neq_sym, Z.lt_neq, Z.pow_pos_nonneg; lia).
    assert (Hq : 8388608 / 2 ^ (- (e + 1)) < 2 ^ 32).
    { apply Z.le_lt_trans with (m := 8388608); [| lia].
      apply Z.div_le_upper_bound; [apply Z.pow_pos_nonneg; lia|].
      assert (0 < 2 ^ (- (e + 1))) by (apply Z.pow_pos_nonneg; lia). nia. }
    apply Z.ltb_lt in Hq. rewrite Hq. reflexivity.
Qed.

(** The integer arithmetic of rounding then truncating.  [A], [C] and [S]
    stand for the powers of two [2^n], [2^(t-n)] and [2^s]. *)
Lemma trunc_of_rounded (M m1 A C S k h : Z) :
  0 < A -> 0 < C -> 0 < S ->
  2 * Z.abs (m1 * A - M) <= A ->
  k * S <= m1 < (k + 1) * S ->
  2 * h <= A * C ->
  2 * k * (S * (A * C)) - S * (A * C) <= 2 * (M * C) /\
  M * C + h <= (k + 1) * (S * (A * C)).
Proof.
  intros HA HC HS Hr Hk Hh.
  assert (HAC : 0 < A * C) by nia.
  assert (H1 : 2 * (m1 * A) * C - A * C <= 2 * (M * C)) by nia.
  assert (H2 : 2 * (M * C) <= 2 * (m1 * A) * C + A * C) by nia.
  assert (H3 : k * S * (A * C) <= m1 * (A * C)) by nia.
  assert (H4 : (m1 + 1) * (A * C) <= (k + 1) * S * (A * C)) by nia.
  assert (H5 : A * C <= S * (A * C)) by nia.
  split; nia.
Qed.

Lemma pow2_gt_0 (a : Z) : 0 <= a -> 0 < 2 ^ a.
Proof. intros Ha. apply Z.pow_pos_nonneg; lia. Qed.

Lemma pow2_lt_inv (a b : Z) : 0 <= b -> 2 ^ a < 2 ^ b -> a < b.
Proof. intros Hb H. apply (Z.pow_lt_mono_r_iff 2 a b); lia. Qed.

(** One coordinate through the first half of [cc__EncodeUv]: the product
    with [65535.0f] truncates to a 16-bit integer [k], and the exact product
    lies between [k - 1/2] and [k + 1] less half a unit in the last place of
    [k].  Products are in units of [2^-157]. *)
Lemma cc__EncodeUv_field (x : float32) :
  f32_valid x = true -> f32_le f32_zero x = true -> f32_le x f32_one = true ->
  exists k,
    0 <= k < 65536 /\
    f32_to_u32 (f32_mul x f32_65535) = Some k /\
    2 * k * 2 ^ 157 - 2 ^ 157 <= 2 * (16776960 * f32_units x) /\
    16776960 * f32_units x + half_ulp k <= (k + 1) * 2 ^ 157.
Proof.
  intros Hv H0 H1.
  destruct x as [s | s | | s m e].
  - exists 0. cbn [f32_units]. change (half_ulp 0) with 0.
    split; [lia|]. split; [reflexivity|]. lia.
  - destruct s; discriminate.
  - discriminate.
  - destruct s; [discriminate|].
    pose proof (f32_valid_finite _ _ _ Hv) as [Hd He].
    pose proof (f32_le_one_mantissa _ _ Hv H1) as [He23 Hm].
    pose proof (binary_round_aux_spec (m * 16776960) (e + -8)) as Hspec.
    pose proof (digits2_pos_bounds (m * 16776960)) as [HdM _].
    set (M := (m * 16776960)%positive) in *.
    assert (HMm : Zpos M = Zpos m * 16776960) by reflexivity.
    set (d := Zpos (digits2_pos M)) in *.
    assert (HM : Zpos M <= 65535 * 2 ^ (8 - e)).
    { replace (8 - e) with (8 + - e) by lia. rewrite Z.pow_add_r by lia.
      change (2 ^ 8) with 256. lia. }
    assert (Hde : d + e <= 24).
    { assert (Hlt : 2 ^ (d - 1) < 2 ^ (24 - e)).
      { apply Z.le_lt_trans with (1 := HdM).
        apply Z.le_lt_trans with (1 := HM).
        replace (24 - e) with (16 + (8 - e)) by lia.
        rewrite Z.pow_add_r by lia. change (2 ^ 16) with 65536.
        pose proof (pow2_gt_0 (8 - e) ltac:(lia)). lia. }
      apply pow2_lt_inv in Hlt; lia. }
    set (n := Z.max 0 (Z.max (d - 24) (-149 - (e + -8)))) in *.
    assert (Hn : 0 <= n) by (unfold n; lia).
    assert (Hexp : -149 <= e + -8 + n <= -8) by (unfold n; lia).
    destruct Hspec as (m1 & Hm1 & Herr & Hq & Hres); [lia|].
    unfold f32_mul, SFmul, f32_65535. cbn [xorb]. fold M. rewrite Hres.
    assert (Hm1r : 0 <= m1 <= 2 ^ 24) by lia.
    rewrite (f32_to_u32_of_mantissa m1 (e + -8 + n) Hm1r) by lia.
    set (s := - (e + -8 + n)) in *.
    assert (Hs : 8 <= s <= 149) by (unfold s; lia).
    pose proof (pow2_gt_0 n Hn) as HA.
    pose proof (pow2_gt_0 s ltac:(lia)) as HS.
    pose proof (pow2_gt_0 (e + 149) ltac:(lia)) as HC.
    assert (HP : 2 ^ s * (2 ^ n * 2 ^ (e + 149)) = 2 ^ 157).
    { rewrite <- !Z.pow_add_r by lia. f_equal. unfold s. lia. }
    assert (HW : 16776960 * f32_units (S754_finite false m e) =
                 Zpos M * 2 ^ (e + 149)).
    { cbn [f32_units cond_Zopp]. rewrite HMm. ring. }
    assert (Hk : m1 / 2 ^ s * 2 ^ s <= m1 < (m1 / 2 ^ s + 1) * 2 ^ s).
    { pose proof (Z.mul_div_le m1 (2 ^ s) HS).
      pose proof (Z.mul_succ_div_gt m1 (2 ^ s) HS). lia. }
    set (k := m1 / 2 ^ s) in *.
    assert (Hk0 : 0 <= k) by (apply Z.div_pos; lia).
    assert (Hk16 : k < 65536).
    { apply Z.div_lt_upper_bound; [exact HS|].
      assert (Hq' : Zpos M / 2 ^ n <= 65535 * 2 ^ s).
      { apply Z.div_le_upper_bound; [exact HA|].
        replace (2 ^ n * (65535 * 2 ^ s)) with (65535 * 2 ^ (8 - e));
          [exact HM|].
        replace (8 - e) with (n + s) by (unfold s; lia).
        rewrite Z.pow_add_r by lia. ring. }
      assert (2 <= 2 ^ s).
      { change 2 with (2 ^ 1) at 1. apply Z.pow_le_mono_r; lia. }
      lia. }
    exists k. split; [lia|]. split; [reflexivity|].
    rewrite HW, <- HP.
    destruct (Z.eq_dec k 0) as [Hkz | Hkz].
    { replace (half_ulp k) with 0 by (rewrite Hkz; reflexivity).
      apply (trunc_of_rounded (Zpos M) m1 (2 ^ n) (2 ^ (e + 149)) (2 ^ s) k 0);
        try assumption; lia. }
    assert (Hkpos : 0 < k) by lia.
    pose proof (Z.log2_spec k Hkpos) as [Hlog _].
    pose proof (Z.log2_nonneg k) as Hlog0.
    unfold half_ulp. replace (k =? 0) with false
      by (symmetry; apply Z.eqb_neq; exact Hkz).
    destruct (Z.eq_dec m1 (2 ^ 24)) as [Htop | Hlow].
    + (* the rounded mantissa reached [2^24]: rounding went up *)
      assert (Hs24 : s <= 24).
      { destruct (Z.le_gt_cases s 24) as [Hle | Hgt]; [exact Hle|].
        exfalso. apply Hkz. unfold k. apply Z.div_small. split; [lia|].
        rewrite Htop. apply Z.pow_lt_mono_r; lia. }
      assert (Hkpow : k = 2 ^ (24 - s)).
      { unfold k. rewrite Htop. symmetry. apply Z.pow_sub_r; lia. }
      assert (Hlogk : Z.log2 k = 24 - s).
      { rewrite Hkpow. apply Z.log2_pow2. lia. }
      assert (Hup : Zpos M < m1 * 2 ^ n).
      { destruct Hm1 as [Heq | [Heq Hrem]]; [lia|].
        pose proof (Z.div_mod (Zpos M) (2 ^ n) ltac:(lia)) as Hdm.
        pose proof (Z.mod_pos_bound (Zpos M) (2 ^ n) HA) as Hmb.
        rewrite Heq. nia. }
      split.
      * apply (trunc_of_rounded (Zpos M) m1 (2 ^ n) (2 ^ (e + 149)) (2 ^ s)
                 k 0); try assumption. nia.
      * rewrite Hlogk.
        assert (Hks : k * 2 ^ s = m1).
        { rewrite Hkpow, <- Z.pow_add_r by lia. rewrite Htop. f_equal. lia. }
        assert (Hh : 2 ^ (24 - s + 133) = 2 ^ n * 2 ^ (e + 149)).
        { rewrite <- Z.pow_add_r by lia. f_equal. unfold s. lia. }
        rewrite Hh.
        assert (Zpos M * 2 ^ (e + 149) < m1 * 2 ^ n * 2 ^ (e + 149)) by nia.
        rewrite <- Hks in H. nia.
    + (* below [2^24]: [k] has at most [24 - s] bits *)
      assert (Hbits : Z.log2 k + s <= 23).
      { assert (Hlt : 2 ^ (Z.log2 k + s) < 2 ^ 24).
        { rewrite Z.pow_add_r by lia. nia. }
        apply pow2_lt_inv in Hlt; lia. }
      apply (trunc_of_rounded (Zpos M) m1 (2 ^ n) (2 ^ (e + 149)) (2 ^ s)
               k (2 ^ (Z.log2 k + 133))); try assumption.
      rewrite <- Z.pow_add_r by lia.
      replace (2 * 2 ^ (Z.log2 k + 133)) with (2 ^ (Z.log2 k + 134))
        by (replace (Z.log2 k + 134) with (1 + (Z.log2 k + 133)) by lia;
            rewrite Z.pow_add_r by lia; reflexivity).
      apply Z.pow_le_mono_r; [lia|]. unfold s in Hbits. lia.
Qed.

Lemma uv_decode_checked : all_below 65536 uv_decode_near = true.
Proof. vm_compute. reflexivity. Qed.

Lemma uv_decode_near_spec (k : Z) :
  0 <= k < 65536 ->
  let x := f32_div (f32_of_u32 k) f32_65535 in
  f32_valid x = true /\ f32_is_finite x = true /\
  k * 2 ^ 157 - half_ulp k <= 16776960 * f32_units x <= k * 2 ^ 157 + 2 ^ 156.
Proof.
  intros Hk x.
  pose proof (all_below_spec 65536 uv_decode_near k uv_decode_checked Hk)
    as Hok.
  unfold uv_decode_near in Hok. cbn zeta in Hok. fold x in Hok.
  apply andb_prop in Hok as [Hok Hup].
  apply andb_prop in Hok as [Hok Hlow].
  apply andb_prop in Hok as [Hvalid Hfin].
  apply Z.leb_le in Hup, Hlow.
  rewrite Z.shiftl_mul_pow2 in Hup, Hlow by lia.
  rewrite Z.shiftl_1_l in Hup.
  split; [exact Hvalid|]. split; [exact Hfin|]. lia.
Qed.

(** The word [cc__EncodeUv] packs from two 16-bit integers, and its two
    fields. *)
Lemma uv_fields_of_word (ku kv : Z) :
  0 <= ku < 65536 -> 0 <= kv < 65536 ->
  let w :=
    wrap32 (wrapu32 (Z.lor (Z.land ku 65535) (shlu32 (Z.land kv 65535) 16))) in
  Z.land (Z.shiftr (wrapu32 w) 0) 65535 = ku /\
  Z.land (Z.shiftr (wrapu32 w) 16) 65535 = kv.
Proof.
  intros Hu Hv. cbn zeta.
  change 65535 with (Z.ones 16). rewrite !Z.land_ones by lia.
  change (2 ^ 16) with 65536.
  rewrite (Z.mod_small ku), (Z.mod_small kv) by lia.
  unfold shlu32. change (valid_shift 16) with true. cbv iota.
  assert (Hword : wrapu32 (Z.lor ku (wrapu32 (Z.shiftl kv 16)))
                  = kv * 65536 + ku).
  { assert (Hsh : Z.shiftl kv 16 = kv * 65536)
      by (rewrite Z.shiftl_mul_pow2 by lia; reflexivity).
    assert (Hlor : Z.lor (Z.shiftl kv 16) ku = kv * 65536 + ku)
      by (rewrite lor_low_bits by (change (2 ^ 16) with 65536; lia);
          reflexivity).
    unfold wrapu32. change (2 ^ 32) with 4294967296.
    rewrite (Z.mod_small (Z.shiftl kv 16)) by lia.
    rewrite Z.lor_comm, Hlor. apply Z.mod_small. lia. }
  rewrite Hword.
  assert (Hback : wrapu32 (wrap32 (kv * 65536 + ku)) = kv * 65536 + ku).
  { pose proof (wrap32_eqm (kv * 65536 + ku)) as Heq.
    unfold eqm32 in Heq. unfold wrapu32. rewrite Heq.
    apply Z.mod_small. change (2 ^ 32) with 4294967296. lia. }
  rewrite Hback, Z.shiftr_0_r, Z.shiftr_div_pow2 by lia.
  change (2 ^ 16) with 65536.
  split.
  - rewrite Z.add_comm, Z.mod_add by lia. apply Z.mod_small. lia.
  - rewrite Z.div_add_l by lia. rewrite (Z.div_small ku) by lia.
    rewrite Z.add_0_r. apply Z.mod_small. lia.
Qed.

(** One coordinate through [cc__EncodeUv] and [cc__DecodeUv]. *)
Lemma uv_field_round_trip (x : float32) :
  f32_valid x = true -> f32_le f32_zero x = true -> f32_le x f32_one = true ->
  exists k,
    0 <= k < 65536 /\
    f32_to_u32 (f32_mul x f32_65535) = Some k /\
    let x' := f32_div (f32_of_u32 k) f32_65535 in
    f32_valid x' = true /\ f32_is_finite x' = true /\
    65535 * Z.abs (f32_units x' - f32_units x) <= 2 ^ 149.
Proof.
  intros Hv H0 H1.
  destruct (cc__EncodeUv_field x Hv H0 H1) as (k & Hk & Henc & Hlow & Hup).
  exists k. split; [exact Hk|]. split; [exact Henc|].
  destruct (uv_decode_near_spec k Hk) as (Hv' & Hfin & Hdlow & Hdup).
  cbn zeta. split; [exact Hv'|]. split; [exact Hfin|].
  set (x' := f32_div (f32_of_u32 k) f32_65535) in *.
  change (2 ^ 157) with (256 * 2 ^ 149) in *.
  change (2 ^ 156) with (128 * 2 ^ 149) in *.
  lia.
Qed.

(** C9.  The round trip through the 16-bit packing loses at most 1/65535 per
    axis.  For every pair [uv] of binary32 numbers of [0, 1], zero of either
    sign and the subnormal numbers included ([f32_valid] says of a
    coordinate that it is a value of the type [float], as every coordinate
    the program handles is), [cc__EncodeUv] gives an [int32_t] word, and each
    coordinate of the pair [cc__DecodeUv] makes of that word is a finite
    binary32 number at most 1/65535 away from the coordinate it comes from.
    Both values are integers in units of [2^-149], the smallest positive
    binary32 number, and the bound reads: 65535 times the difference of the
    two integers is at most [2^149].  The product with [65535.0f] and the
    quotient by it are each rounded to nearest, ties to even. *)
Theorem cc__DecodeUv_EncodeUv_error (uv : cc_VertexUv) :
  f32_valid (uv_u uv) = true -> f32_valid (uv_v uv) = true ->
  f32_le f32_zero (uv_u uv) = true -> f32_le (uv_u uv) f32_one = true ->
  f32_le f32_zero (uv_v uv) = true -> f32_le (uv_v uv) f32_one = true ->
  exists w,
    cc__EncodeUv uv = Some w /\ is_int32 w /\
    let uv' := cc__DecodeUv w in
    f32_valid (uv_u uv') = true /\ f32_is_finite (uv_u uv') = true /\
    f32_valid (uv_v uv') = true /\ f32_is_finite (uv_v uv') = true /\
    65535 * Z.abs (f32_units (uv_u uv') - f32_units (uv_u uv)) <= 2 ^ 149 /\
    65535 * Z.abs (f32_units (uv_v uv') - f32_units (uv_v uv)) <= 2 ^ 149.
Proof.
  intros Vu Vv U0 U1 V0 V1.
  destruct (uv_field_round_trip _ Vu U0 U1)
    as (ku & Hku & Eu & Vu' & Fu' & Du).
  destruct (uv_field_round_trip _ Vv V0 V1)
    as (kv & Hkv & Ev & Vv' & Fv' & Dv).
  destruct (uv_fields_of_word ku kv Hku Hkv) as [Hlo Hhi].
  unfold cc__EncodeUv. rewrite Eu, Ev. cbn [obind].
  eexists. split; [reflexivity|]. split; [apply wrap32_range|].
  cbn zeta. unfold cc__DecodeUv. cbn [uv_u uv_v].
  rewrite Hlo, Hhi. repeat split; assumption.
Qed.

(** C9 on the pair (0.1f, 1.0f): it is encoded as the word [0xFFFF1999],
    the [int32_t] -58983, of fields 6553 and 65535; the first decodes to
    6553 / 65535, less than 0.1f by about 0.0000076, and the second to
    1.0f. *)
Lemma cc__DecodeUv_EncodeUv_error_tenth :
  let tenth := S754_finite false 13421773 (-27) in
  let uv := mk_VertexUv tenth f32_one in
  f32_valid (uv_u uv) = true /\ f32_valid (uv_v uv) = true /\
  f32_le f32_zero (uv_u uv) = true /\ f32_le (uv_u uv) f32_one = true /\
  f32_le f32_zero (uv_v uv) = true /\ f32_le (uv_v uv) f32_one = true /\
  cc__EncodeUv uv = Some (-58983) /\
  uv_v (cc__DecodeUv (-58983)) = f32_one /\
  65535 * Z.abs (f32_units (uv_u (cc__DecodeUv (-58983))) - f32_units tenth)
    <= 2 ^ 149 /\
  65535 * Z.abs (f32_units (uv_v (cc__DecodeUv (-58983))) - f32_units f32_one)
    <= 2 ^ 149.
Proof.
  cbv zeta.
  destruct (cc__DecodeUv_EncodeUv_error
              (mk_VertexUv (S754_finite false 13421773 (-27)) f32_one)
              eq_refl eq_refl eq_refl eq_refl eq_refl eq_refl)
    as (w & Hw & _ & _ & _ & _ & _ & Du & Dv).
  assert (Hword : w = -58983) by (vm_compute in Hw; congruence).
  subst w.
  split; [reflexivity|]. split; [reflexivity|]. split; [reflexivity|].
  split; [reflexivity|]. split; [reflexivity|]. split; [reflexivity|].
  split; [reflexivity|]. split; [reflexivity|].
  split; [exact Du | exact Dv].
Defined.

(** ** Vectors *)

Lemma set_nth_length {A : Type} (a : list A) (i : nat) (v : A) :
  length (set_nth a i v) = length a.
Proof.
  revert i. induction a as [| b a IH]; intros [| i]; cbn; congruence.
Qed.

Lemma nth_error_set_nth {A : Type} (a : list A) (i j : nat) (v : A) :
  (i < length a)%nat ->
  nth_error (set_nth a i v) j = if Nat.eqb j i then Some v else nth_error a j.
Proof.
  revert i j. induction a as [| b a IH]; intros i j Hi; [cbn in Hi; lia|].
  destruct i as [| i], j as [| j]; cbn [set_nth nth_error Nat.eqb];
    try reflexivity.
  apply IH. cbn in Hi. lia.
Qed.

(** Writing a cell of an array: the cell holds the value, the others and
    the length stay. *)
Lemma array_set_spec {A : Type} (a : list A) (i : Z) (v : A) :
  0 <= i < Z.of_nat (length a) ->
  exists a',
    array_set a i v = Some a' /\ length a' = length a /\
    array_get a' i = Some v /\
    forall j, j <> i -> array_get a' j = array_get a j.
Proof.
  intros Hi. exists (set_nth a (Z.to_nat i) v). unfold array_set, array_get.
  replace (i <? 0) with false by (symmetry; apply Z.ltb_ge; lia).
  replace (Nat.ltb (Z.to_nat i) (length a)) with true
    by (symmetry; apply Nat.ltb_lt; lia).
  split; [reflexivity|]. split; [apply set_nth_length|].
  split.
  - rewrite nth_error_set_nth by lia. now rewrite Nat.eqb_refl.
  - intros j Hj. destruct (Z.ltb_spec j 0) as [Hneg | Hnonneg]; [reflexivity|].
    rewrite nth_error_set_nth by lia.
    destruct (Nat.eqb_spec (Z.to_nat j) (Z.to_nat i)) as [Heq | Hne];
      [lia | reflexivity].
Qed.

(** The loop [for (i = 0; i < n; ++i) out[i] = val (i)], where the value
    written at step [i] depends on cells that the steps before it left
    alone: the cells [out .. out + n - 1] end up with the values, the other
    cells and the size of the memory stay. *)
Lemma for_upto_pointwise (body : Z -> float_store -> option float_store)
    (val : Z -> float32) (out n : Z) (mem0 : float_store) :
  0 <= n <= int32_max ->
  0 <= out -> out + n <= Z.of_nat (length mem0) ->
  (forall i mem,
     0 <= i < n -> length mem = length mem0 ->
     (forall p, p < out \/ out + i <= p -> array_get mem p = array_get mem0 p) ->
     body i mem = array_set mem (out + i) (val i)) ->
  exists mem',
    for_upto (Z.to_nat n) 0 n body mem0 = Some mem' /\
    length mem' = length mem0 /\
    (forall i, 0 <= i < n -> array_get mem' (out + i) = Some (val i)) /\
    (forall p, p < out \/ out + n <= p -> array_get mem' p = array_get mem0 p).
Proof.
  intros Hn Hout Hlen Hbody.
  assert (Hgen : forall (trips : nat) (i : Z) (mem : float_store),
             0 <= i <= n -> Z.of_nat trips = n - i ->
             length mem = length mem0 ->
             (forall k, 0 <= k < i -> array_get mem (out + k) = Some (val k)) ->
             (forall p, p < out \/ out + i <= p ->
                array_get mem p = array_get mem0 p) ->
             exists mem',
               for_upto trips i n body mem = Some mem' /\
               length mem' = length mem0 /\
               (forall k, 0 <= k < n ->
                  array_get mem' (out + k) = Some (val k)) /\
               (forall p, p < out \/ out + n <= p ->
                  array_get mem' p = array_get mem0 p)).
  { induction trips as [| trips IH]; intros i mem Hi Htrips Hsize Hdone Hrest.
    - exists mem. assert (i = n) by lia. subst i.
      split; [reflexivity|]. split; [exact Hsize|]. split; assumption.
    - cbn [for_upto].
      replace (i <? n) with true by (symmetry; apply Z.ltb_lt; lia).
      rewrite (Hbody i mem) by (try assumption; lia).
      destruct (array_set_spec mem (out + i) (val i)) as (mem1 & -> & L1 & G1 & O1);
        [rewrite Hsize; lia|].
      cbn [obind]. unfold add32.
      rewrite wrap32_small by (unfold is_int32, int32_min, int32_max in *; lia).
      apply IH; try lia.
      + intros k Hk. destruct (Z.eq_dec k i) as [-> | Hne]; [exact G1|].
        rewrite O1 by lia. apply Hdone. lia.
      + intros p Hp. rewrite O1 by lia. apply Hrest. lia. }
  apply (Hgen (Z.to_nat n) 0 mem0); try lia; reflexivity.
Qed.

(** A cell inside the memory holds a value. *)
Lemma array_get_inside {A : Type} (a : list A) (i : Z) :
  0 <= i < Z.of_nat (length a) -> exists v, array_get a i = Some v.
Proof.
  intros Hi. unfold array_get.
  replace (i <? 0) with false by (symmetry; apply Z.ltb_ge; lia).
  destruct (nth_error a (Z.to_nat i)) as [v |] eqn:E; [now exists v|].
  apply nth_error_None in E. lia.
Qed.

(** X16.  [cc__Mulfv] scales a vector cell by cell, also in place.  When the [n]
    cells of [x] and of [out] lie inside the memory and [x] does not start
    below [out] while overlapping it (the two may be the same vector, apart
    from each other, or [x] ahead of [out]), the call ends, the cells
    [out[0 .. n - 1]] hold the products of the cells [x] had before the
    call, and the size of the memory and every other cell are as before. *)
Theorem cc__Mulfv_pointwise (n out x : Z) (y : float32) (mem : float_store) :
  0 <= n <= int32_max ->
  0 <= out -> out + n <= Z.of_nat (length mem) ->
  0 <= x -> x + n <= Z.of_nat (length mem) ->
  out <= x \/ x + n <= out ->
  exists mem',
    cc__Mulfv n out x y mem = Some mem' /\
    length mem' = length mem /\
    (forall i, 0 <= i < n ->
       array_get mem' (out + i) =
       (xi <- array_get mem (x + i) ;; Some (f32_mul xi y))) /\
    (forall p, p < out \/ out + n <= p -> array_get mem' p = array_get mem p).
Proof.
  intros Hn Hout Hlen Hx Hxlen Halias. unfold cc__Mulfv.
  destruct (for_upto_pointwise
              (fun i mem0 => xi <- array_get mem0 (x + i) ;;
                             array_set mem0 (out + i) (f32_mul xi y))
              (fun i => match array_get mem (x + i) with
                        | Some xi => f32_mul xi y
                        | None => f32_zero
                        end)
              out n mem Hn Hout Hlen) as (mem' & Hrun & Hsize & Hval & Hrest).
  - intros i mem1 Hi Hsize Hsame.
    rewrite (Hsame (x + i)) by lia.
    destruct (array_get_inside mem (x + i)) as (xi & ->); [lia|].
    reflexivity.
  - exists mem'. split; [exact Hrun|]. split; [exact Hsize|].
    split; [| exact Hrest].
    intros i Hi. rewrite (Hval i Hi).
    destruct (array_get_inside mem (x + i)) as (xi & ->); [lia|].
    reflexivity.
Qed.

(** X16 on [cc__Mul3f (v, v, 2.0f)] with
    [v = (1, 0, -1)]: the vector is doubled in place and the cell behind it
    is left alone. *)
Lemma cc__Mulfv_pointwise_in_place :
  let two := S754_finite false 8388608 (-22) in
  let mem := [f32_one; f32_zero; f32_minus_one; f32_one] in
  cc__Mul3f 0 0 two mem =
    Some [two; f32_zero; S754_finite true 8388608 (-22); f32_one] /\
  exists mem',
    cc__Mulfv 3 0 0 two mem = Some mem' /\
    length mem' = length mem /\
    (forall i, 0 <= i < 3 ->
       array_get mem' (0 + i) =
       (xi <- array_get mem (0 + i) ;; Some (f32_mul xi two))) /\
    (forall p, p < 0 \/ 0 + 3 <= p -> array_get mem' p = array_get mem p).
Proof.
  split; [reflexivity|].
  apply cc__Mulfv_pointwise; try (left; discriminate); int32_by_computation.
Defined.

(** X17.  [cc__Addfv] adds two vectors cell by cell, also in place.  When
    the [n] cells of [x], of [y] and of [out] lie inside the memory and neither [x]
    nor [y] starts below [out] while overlapping it, the call ends, the
    cells [out[0 .. n - 1]] hold the sums of the cells [x] and [y] had
    before the call, and the size of the memory and every other cell are as
    before. *)
Theorem cc__Addfv_pointwise (n out x y : Z) (mem : float_store) :
  0 <= n <= int32_max ->
  0 <= out -> out + n <= Z.of_nat (length mem) ->
  0 <= x -> x + n <= Z.of_nat (length mem) ->
  0 <= y -> y + n <= Z.of_nat (length mem) ->
  out <= x \/ x + n <= out ->
  out <= y \/ y + n <= out ->
  exists mem',
    cc__Addfv n out x y mem = Some mem' /\
    length mem' = length mem /\
    (forall i, 0 <= i < n ->
       array_get mem' (out + i) =
       (xi <- array_get mem (x + i) ;;
        yi <- array_get mem (y + i) ;; Some (f32_add xi yi))) /\
    (forall p, p < out \/ out + n <= p -> array_get mem' p = array_get mem p).
Proof.
  intros Hn Hout Hlen Hx Hxlen Hy Hylen Hxalias Hyalias. unfold cc__Addfv.
  destruct (for_upto_pointwise
              (fun i mem0 => xi <- array_get mem0 (x + i) ;;
                             yi <- array_get mem0 (y + i) ;;
                             array_set mem0 (out + i) (f32_add xi yi))
              (fun i => match array_get mem (x + i), array_get mem (y + i) with
                        | Some xi, Some yi => f32_add xi yi
                        | _, _ => f32_zero
                        end)
              out n mem Hn Hout Hlen) as (mem' & Hrun & Hsize & Hval & Hrest).
  - intros i mem1 Hi Hsize Hsame.
    rewrite (Hsame (x + i)), (Hsame (y + i)) by lia.
    destruct (array_get_inside mem (x + i)) as (xi & ->); [lia|].
    destruct (array_get_inside mem (y + i)) as (yi & ->); [lia|].
    reflexivity.
  - exists mem'. split; [exact Hrun|]. split; [exact Hsize|].
    split; [| exact Hrest].
    intros i Hi. rewrite (Hval i Hi).
    destruct (array_get_inside mem (x + i)) as (xi & ->); [lia|].
    destruct (array_get_inside mem (y + i)) as (yi & ->); [lia|].
    reflexivity.
Qed.

(** A difference that is finite has finite operands. *)
Lemma f32_sub_finite (x y : float32) :
  f32_is_finite (f32_sub y x) = true ->
  f32_is_finite x = true /\ f32_is_finite y = true.
Proof.
  unfold f32_sub, SFsub.
  destruct x as [sx | sx | | sx mx ex], y as [sy | sy | | sy my ey];
    cbn [f32_is_finite]; try (intros; split; (reflexivity || discriminate)).
  destruct sx, sy; discriminate.
Qed.

(** A finite number compares equal to itself. *)
Lemma f32_eq_refl (x : float32) : f32_is_finite x = true -> f32_eq x x = true.
Proof.
  unfold f32_eq, SFeqb. destruct x as [s | s | | s m e]; try discriminate;
    intros _; [reflexivity|].
  cbn [SFcompare]. rewrite Z.compare_refl, Pos.compare_cont_refl.
  now destruct s.
Qed.

(** [x + 0 * (y - x)] compares equal to [x] when [y - x] is finite, fused
    or not. *)
Lemma lerp_value_at_0 (fused : bool) (x y : float32) (s : bool) :
  f32_is_finite (f32_sub y x) = true ->
  f32_eq (lerp_value fused x y (S754_zero s)) x = true.
Proof.
  intros Hd. destruct (f32_sub_finite x y Hd) as [Hx _].
  unfold lerp_value.
  destruct (f32_sub y x) as [sd | sd | | sd md ed]; try discriminate;
    destruct x as [sx | sx | | sx mx ex]; try discriminate;
    destruct fused; unfold f32_fma, f32_mul, f32_add, SFmul, SFadd;
    try (now apply f32_eq_refl); destruct sx, s, sd; reflexivity.
Qed.

(** X18.  [cc__Lerpfv] interpolates two vectors cell by cell, also in place,
    whichever way the compiler rounds [x[i] + u * (y[i] - x[i])]: the
    product and the sum one after the other, or contracted into one fused
    multiply-add.  When the [n] cells of [x], of [y] and of [out] lie
    inside the memory and neither [x] nor [y] starts below [out] while
    overlapping it, the call ends, the cells [out[0 .. n - 1]] hold the
    value of the expression on the cells [x] and [y] had before the call,
    and the size of the memory and every other cell are as before.  Either
    way, at [u = 0] the value compares equal to [x[i]] whenever
    [y[i] - x[i]] is finite; when the difference overflows it is a NaN, as
    between [-FLT_MAX] and [FLT_MAX]. *)
Theorem cc__Lerpfv_pointwise :
  (forall (fused : bool) (n out x y : Z) (u : float32) (mem : float_store),
     0 <= n <= int32_max ->
     0 <= out -> out + n <= Z.of_nat (length mem) ->
     0 <= x -> x + n <= Z.of_nat (length mem) ->
     0 <= y -> y + n <= Z.of_nat (length mem) ->
     out <= x \/ x + n <= out ->
     out <= y \/ y + n <= out ->
     exists mem',
       cc__Lerpfv fused n out x y u mem = Some mem' /\
       length mem' = length mem /\
       (forall i, 0 <= i < n ->
          array_get mem' (out + i) =
          (xi <- array_get mem (x + i) ;;
           yi <- array_get mem (y + i) ;; Some (lerp_value fused xi yi u))) /\
       (forall p, p < out \/ out + n <= p ->
          array_get mem' p = array_get mem p)) /\
  (forall (fused : bool) (x y : float32) (s : bool),
     f32_is_finite (f32_sub y x) = true ->
     f32_eq (lerp_value fused x y (S754_zero s)) x = true) /\
  (forall fused : bool,
     lerp_value fused (f32_sub f32_zero f32_max) f32_max f32_zero = S754_nan).
Proof.
  split; [| split; [exact lerp_value_at_0 | intros []; reflexivity]].
  intros fused n out x y u mem Hn Hout Hlen Hx Hxlen Hy Hylen Hxalias Hyalias.
  unfold cc__Lerpfv.
  destruct (for_upto_pointwise
              (fun i mem0 => xi <- array_get mem0 (x + i) ;;
                             yi <- array_get mem0 (y + i) ;;
                             array_set mem0 (out + i) (lerp_value fused xi yi u))
              (fun i => match array_get mem (x + i), array_get mem (y + i) with
                        | Some xi, Some yi => lerp_value fused xi yi u
                        | _, _ => f32_zero
                        end)
              out n mem Hn Hout Hlen) as (mem' & Hrun & Hsize & Hval & Hrest).
  - intros i mem1 Hi Hsize Hsame.
    rewrite (Hsame (x + i)), (Hsame (y + i)) by lia.
    destruct (array_get_inside mem (x + i)) as (xi & ->); [lia|].
    destruct (array_get_inside mem (y + i)) as (yi & ->); [lia|].
    reflexivity.
  - exists mem'. split; [exact Hrun|]. split; [exact Hsize|].
    split; [| exact Hrest].
    intros i Hi. rewrite (Hval i Hi).
    destruct (array_get_inside mem (x + i)) as (xi & ->); [lia|].
    destruct (array_get_inside mem (y + i)) as (yi & ->); [lia|].
    reflexivity.
Qed.

(** X18 on [cc__Lerp2f (a, a, b, 0.1f)] in place, with [a = (1, 1)] and
    [b = (10, 1)]: unfused, [a[0]] becomes 15938356 * 2^-23; fused, it
    becomes 15938355 * 2^-23, one unit in the last place less. *)
Lemma cc__Lerpfv_pointwise_in_place :
  let tenth := S754_finite false 13421773 (-27) in
  let ten := S754_finite false 10485760 (-20) in
  let mem := [f32_one; f32_one; ten; f32_one] in
  cc__Lerp2f false 0 0 2 tenth mem =
    Some [S754_finite false 15938356 (-23); f32_one; ten; f32_one] /\
  cc__Lerp2f true 0 0 2 tenth mem =
    Some [S754_finite false 15938355 (-23); f32_one; ten; f32_one] /\
  exists mem',
    cc__Lerpfv true 2 0 0 2 tenth mem = Some mem' /\
    length mem' = length mem /\
    (forall i, 0 <= i < 2 ->
       array_get mem' (0 + i) =
       (xi <- array_get mem (0 + i) ;;
        yi <- array_get mem (2 + i) ;; Some (lerp_value true xi yi tenth))) /\
    (forall p, p < 0 \/ 0 + 2 <= p -> array_get mem' p = array_get mem p).
Proof.
  split; [reflexivity|]. split; [reflexivity|].
  apply (proj1 cc__Lerpfv_pointwise);
    try (left; discriminate); int32_by_computation.
Defined.

(** X17 on [cc__Add3f (a, a, b)] with [a = (1, 0, -1)]
    and [b = (1, 1, 1)]: [a] becomes (2, 1, 0). *)
Lemma cc__Addfv_pointwise_in_place :
  let two := S754_finite false 8388608 (-22) in
  let mem := [f32_one; f32_zero; f32_minus_one; f32_one; f32_one; f32_one] in
  cc__Add3f 0 0 3 mem = Some [two; f32_one; f32_zero; f32_one; f32_one; f32_one] /\
  exists mem',
    cc__Addfv 3 0 0 3 mem = Some mem' /\
    length mem' = length mem /\
    (forall i, 0 <= i < 3 ->
       array_get mem' (0 + i) =
       (xi <- array_get mem (0 + i) ;;
        yi <- array_get mem (3 + i) ;; Some (f32_add xi yi))) /\
    (forall p, p < 0 \/ 0 + 3 <= p -> array_get mem' p = array_get mem p).
Proof.
  split; [reflexivity|].
  apply cc__Addfv_pointwise; try (left; discriminate); int32_by_computation.
Defined.

(** Where the source overlaps the destination from below, the loop reads
    cells it has already written: the result is not the pointwise one. *)
Lemma cc__Mulfv_backward_overlap :
  let two := S754_finite false 8388608 (-22) in
  let four := S754_finite false 8388608 (-21) in
  cc__Mulfv 2 1 0 two [f32_one; f32_one; f32_one] = Some [f32_one; two; four].
Proof. reflexivity. Qed.
